(** * Copilot Bridge client bindings: model and verified properties

    A shallow embedding of the Python clients of the Copilot Bridge
    (clients/python/copilot_interface.py, copilot_client.py and
    copilot_grpc_client.py): request building, reply decoding, the
    server-sent-event read loop of the HTTP client, the gRPC stream loop and
    the JSON extraction of [chat_json]; and of the frame of the test harness
    (test.py): the run of a check, the suite loop, the model prompt and the
    exit status.

    Conventions.
    - A Python [str] is a list of Unicode code points ([list N]); a Python
      [bytes] is a list of bytes.  [lit] turns a Rocq string literal into a
      [str].
    - Values that come out of [json.loads] are values of the type [json];
      a Python dict is an association list in insertion order.
    - An operation that may raise returns [exn + A]; operations that talk to
      the network thread the log of the requests they sent. *)

From Stdlib Require Import Strings.String Strings.Ascii Strings.Byte DecimalString.
From Stdlib Require Import NArith ZArith Bool Lia Arith List.
Import ListNotations.

(* ================================================================== *)
(** * Part I: definitions                                              *)
(* ================================================================== *)

(** ** Python strings and bytes *)

Module Py.

Local Open Scope N_scope.

Definition str := list N.
Definition bytes := list Byte.byte.

Definition lit (s : String.string) : str :=
  map Ascii.N_of_ascii (String.list_ascii_of_string s).
Arguments lit s%_string.

Definition blit (s : String.string) : bytes := String.list_byte_of_string s.
Arguments blit s%_string.

Fixpoint str_eqb (a b : str) : bool :=
  match a, b with
  | [], [] => true
  | x :: a', y :: b' => N.eqb x y && str_eqb a' b'
  | _, _ => false
  end.

(** [s.startswith(p)] *)
Fixpoint startswith (p s : str) : bool :=
  match p, s with
  | [], _ => true
  | x :: p', y :: s' => N.eqb x y && startswith p' s'
  | _ :: _, [] => false
  end.

(** [sep in s], for a non-empty [sep] *)
Fixpoint contains (sep s : str) : bool :=
  startswith sep s ||
  match s with
  | [] => false
  | _ :: s' => contains sep s'
  end.

(** [s.split(sep, 1)]: the text before the first occurrence of [sep] and the
    text after it, or [s] alone when [sep] does not occur. *)
Fixpoint split1 (sep s : str) : list str :=
  if startswith sep s then [[]; skipn (length sep) s]
  else match s with
       | [] => [[]]
       | c :: s' =>
           match split1 sep s' with
           | [a; b] => [c :: a; b]
           | _ => [s]
           end
       end.

(** [s.split(c)] for a one-character separator: never the empty list. *)
Fixpoint split_char (c : N) (s : str) : list str :=
  match s with
  | [] => [[]]
  | x :: s' =>
      if N.eqb x c then [] :: split_char c s'
      else match split_char c s' with
           | l :: ls => (x :: l) :: ls
           | [] => [[x]]
           end
  end.

(** [Py_UNICODE_ISSPACE]: the characters [str.strip()] removes and the
    pattern class [\s] matches on a [str]. *)
Definition isspace (c : N) : bool :=
  ((0x09 <=? c) && (c <=? 0x0D)) || ((0x1C <=? c) && (c <=? 0x20))
  || (c =? 0x85) || (c =? 0xA0) || (c =? 0x1680)
  || ((0x2000 <=? c) && (c <=? 0x200A))
  || (c =? 0x2028) || (c =? 0x2029) || (c =? 0x202F) || (c =? 0x205F)
  || (c =? 0x3000).

Fixpoint lstrip_by (f : N -> bool) (s : str) : str :=
  match s with
  | [] => []
  | c :: s' => if f c then lstrip_by f s' else s
  end.

Definition rstrip_by (f : N -> bool) (s : str) : str :=
  rev (lstrip_by f (rev s)).

(** [s.strip()] *)
Definition strip (s : str) : str := rstrip_by isspace (lstrip_by isspace s).

(** [s.rstrip("/")] *)
Definition rstrip_slash (s : str) : str := rstrip_by (N.eqb 47) s.

(** [str(n)] for an integer *)
Definition str_of_Z (z : Z) : str :=
  lit (DecimalString.NilEmpty.string_of_int (Z.to_int z)).

(** ** [bytes.decode("utf-8")], strict: shortest forms only, no surrogates,
    nothing above U+10FFFF.  [None] stands for [UnicodeDecodeError]. *)

Definition is_cont (b : N) : bool := (0x80 <=? b) && (b <=? 0xBF).
Definition low6 (b : N) : N := N.land b 0x3F.

Fixpoint utf8 (bs : list N) : option str :=
  match bs with
  | [] => Some []
  | b1 :: r1 =>
    if b1 <? 0x80 then option_map (cons b1) (utf8 r1)
    else match r1 with
    | [] => None
    | b2 :: r2 =>
      if (0xC2 <=? b1) && (b1 <=? 0xDF) then
        if is_cont b2
        then option_map (cons (N.land b1 0x1F * 64 + low6 b2)) (utf8 r2)
        else None
      else match r2 with
      | [] => None
      | b3 :: r3 =>
        if (0xE0 <=? b1) && (b1 <=? 0xEF) then
          if ((if b1 =? 0xE0 then 0xA0 else 0x80) <=? b2)
             && (b2 <=? (if b1 =? 0xED then 0x9F else 0xBF))
             && is_cont b3
          then option_map
                 (cons (N.land b1 0x0F * 4096 + low6 b2 * 64 + low6 b3))
                 (utf8 r3)
          else None
        else match r3 with
        | [] => None
        | b4 :: r4 =>
          if (0xF0 <=? b1) && (b1 <=? 0xF4) then
            if ((if b1 =? 0xF0 then 0x90 else 0x80) <=? b2)
               && (b2 <=? (if b1 =? 0xF4 then 0x8F else 0xBF))
               && is_cont b3 && is_cont b4
            then option_map
                   (cons (N.land b1 0x07 * 262144 + low6 b2 * 4096
                          + low6 b3 * 64 + low6 b4))
                   (utf8 r4)
            else None
          else None
        end
      end
    end
  end.

Definition decode (b : bytes) : option str := utf8 (map Byte.to_N b).

End Py.

(** ** JSON values and [json.loads]

    [json.loads] belongs to the Python standard library; the clients call it
    on every reply.  [json_loads] below follows CPython's scanner: the JSON
    grammar of RFC 8259 with the four blanks space, tab, line feed and
    carriage return, strings in strict mode (no raw control character),
    [\uXXXX] escapes with surrogate pairs joined, and the constants [NaN],
    [Infinity] and [-Infinity].  A number with a fraction or an exponent is
    kept as the decimal [m * 10^e] it denotes, before rounding to a double.
    The interpreter's recursion limit and its limit on the digits of an
    integer are not modelled. *)

Module Json.
Import Py.
Local Open Scope N_scope.

#[local] Set Warnings "-register-all".
Inductive json : Type :=
| JNull
| JBool (b : bool)
| JInt (z : Z)
| JFloat (m e : Z)
| JNaN
| JInf (neg : bool)
| JString (s : str)
| JArray (l : list json)
| JObject (d : list (str * json)).

Definition dict := list (str * json).

(** [d.get(k)]; [None] when the key is absent *)
Fixpoint dict_get (d : dict) (k : str) : option json :=
  match d with
  | [] => None
  | (k', v) :: d' => if str_eqb k' k then Some v else dict_get d' k
  end.

(** [k in d] *)
Definition dict_has (d : dict) (k : str) : bool :=
  match dict_get d k with Some _ => true | None => false end.

(** [d[k] = v]: an existing key keeps its place *)
Fixpoint dict_set (d : dict) (k : str) (v : json) : dict :=
  match d with
  | [] => [(k, v)]
  | (k', v') :: d' =>
      if str_eqb k' k then (k', v) :: d' else (k', v') :: dict_set d' k v
  end.

(** [d.get(k, default)] *)
Definition dict_get_default (d : dict) (k : str) (default : json) : json :=
  match dict_get d k with Some v => v | None => default end.

(** A decimal [m * 10^e] rounds to the double zero exactly when its
    magnitude is at most [2^-1075], half the smallest subnormal. *)
Definition rounds_to_zero (m e : Z) : bool :=
  (m =? 0)%Z ||
  ((e <? 0)%Z && (Z.abs m * 2 ^ 1075 <=? 10 ^ (- e))%Z).

(** Python truth value of a decoded value; an absent value is [None]. *)
Definition truthy (v : json) : bool :=
  match v with
  | JNull => false
  | JBool b => b
  | JInt z => negb (z =? 0)%Z
  | JFloat m e => negb (rounds_to_zero m e)
  | JNaN => true
  | JInf _ => true
  | JString s => match s with [] => false | _ => true end
  | JArray l => match l with [] => false | _ => true end
  | JObject d => match d with [] => false | _ => true end
  end.

Definition truthy_opt (o : option json) : bool :=
  match o with Some v => truthy v | None => false end.

(** *** The scanner *)

Definition is_ws (c : N) : bool :=
  (c =? 32) || (c =? 9) || (c =? 10) || (c =? 13).
Definition skip_ws : str -> str := lstrip_by is_ws.

Definition is_digit (c : N) : bool := (48 <=? c) && (c <=? 57).

Definition hexval (c : N) : option N :=
  if is_digit c then Some (c - 48)
  else if (97 <=? c) && (c <=? 102) then Some (c - 87)
  else if (65 <=? c) && (c <=? 70) then Some (c - 55)
  else None.

Definition hex4 (a b c d : N) : option N :=
  match hexval a, hexval b, hexval c, hexval d with
  | Some x, Some y, Some z, Some w => Some (((x * 16 + y) * 16 + z) * 16 + w)
  | _, _, _, _ => None
  end.

Definition is_high (c : N) : bool := (0xD800 <=? c) && (c <=? 0xDBFF).
Definition is_low (c : N) : bool := (0xDC00 <=? c) && (c <=? 0xDFFF).
Definition join_surrogates (hi lo : N) : N :=
  0x10000 + (hi - 0xD800) * 0x400 + (lo - 0xDC00).

Definition simple_escape (e : N) : option N :=
  if (e =? 34) || (e =? 92) || (e =? 47) then Some e
  else if e =? 98 then Some 8
  else if e =? 102 then Some 12
  else if e =? 110 then Some 10
  else if e =? 114 then Some 13
  else if e =? 116 then Some 9
  else None.

Definition push (c : N) (r : option (str * str)) : option (str * str) :=
  match r with Some (x, rest) => Some (c :: x, rest) | None => None end.

(** The characters of a string literal, from just after its opening quote;
    returns the decoded text and the input after the closing quote. *)
Fixpoint scanstring (s : str) : option (str * str) :=
  match s with
  | [] => None
  | c :: r =>
    if c =? 34 then Some ([], r)
    else if c =? 92 then
      match r with
      | [] => None
      | e :: r1 =>
        if e =? 117 then
          match r1 with
          | a :: b :: c1 :: d :: r2 =>
            match hex4 a b c1 d with
            | None => None
            | Some u =>
              if is_high u then
                match r2 with
                | b1 :: u1 :: a2 :: b2 :: c2 :: d2 :: r3 =>
                  if (b1 =? 92) && (u1 =? 117) then
                    match hex4 a2 b2 c2 d2 with
                    | None => None
                    | Some u2 =>
                      if is_low u2
                      then push (join_surrogates u u2) (scanstring r3)
                      else push u (scanstring r2)
                    end
                  else push u (scanstring r2)
                | _ => push u (scanstring r2)
                end
              else push u (scanstring r2)
            end
          | _ => None
          end
        else
          match simple_escape e with
          | Some x => push x (scanstring r1)
          | None => None
          end
      end
    else if c <? 32 then None
    else push c (scanstring r)
  end.

Fixpoint take_digits (s : str) : list N * str :=
  match s with
  | c :: r =>
      if is_digit c
      then let '(ds, rest) := take_digits r in (c :: ds, rest)
      else ([], s)
  | [] => ([], [])
  end.

Definition digits_value (ds : list N) : Z :=
  fold_left (fun acc c => (acc * 10 + Z.of_N (c - 48))%Z) ds 0%Z.

(** The integer part, a lone zero or a digit run without leading zero:
    its digits and the rest. *)
Definition int_part (s : str) : option (list N * str) :=
  match s with
  | c :: r =>
      if c =? 48 then Some ([c], r)
      else if is_digit c then Some (take_digits s)
      else None
  | [] => None
  end.

(** The optional fraction: a dot followed by at least one digit. *)
Definition frac_part (s : str) : list N * str :=
  match s with
  | c :: r =>
      if c =? 46 then
        match take_digits r with
        | ([], _) => ([], s)
        | (ds, rest) => (ds, rest)
        end
      else ([], s)
  | [] => ([], s)
  end.

(** The optional exponent: [e] or [E], an optional sign, at least one
    digit.  Without a digit nothing is consumed. *)
Definition exp_part (s : str) : option Z * str :=
  match s with
  | c :: r =>
      if (c =? 101) || (c =? 69) then
        let '(neg, r1) :=
          match r with
          | sg :: r' =>
              if sg =? 45 then (true, r')
              else if sg =? 43 then (false, r') else (false, r)
          | [] => (false, r)
          end in
        match take_digits r1 with
        | ([], _) => (None, s)
        | (ds, rest) =>
            (Some (if neg then - digits_value ds else digits_value ds)%Z, rest)
        end
      else (None, s)
  | [] => (None, s)
  end.

Definition match_number (s : str) : option (json * str) :=
  let '(neg, s1) :=
    match s with
    | c :: r => if c =? 45 then (true, r) else (false, s)
    | [] => (false, s)
    end in
  match int_part s1 with
  | None => None
  | Some (ids, s2) =>
      let '(fds, s3) := frac_part s2 in
      let '(ex, s4) := exp_part s3 in
      let sign := fun z : Z => if neg then (- z)%Z else z in
      match fds, ex with
      | [], None => Some (JInt (sign (digits_value ids)), s4)
      | _, _ =>
          Some (JFloat (sign (digits_value (ids ++ fds)))
                       (match ex with Some x => x | None => 0 end
                        - Z.of_nat (length fds))%Z, s4)
      end
  end.

Inductive pres (A : Type) : Type :=
| POk (a : A) (rest : str)
| PFail
| PFuel.
Arguments POk {A} a rest.
Arguments PFail {A}.
Arguments PFuel {A}.

(** [scan_once] reads one value; [array_loop] and [object_loop] read the
    members of a container up to its closing bracket.  The recursion is on
    a fuel that [json_loads] sets from the length of the text. *)
Fixpoint scan_once (fuel : nat) (s : str) {struct fuel} : pres json :=
  match fuel with
  | O => PFuel
  | S f =>
    match s with
    | [] => PFail
    | c :: r =>
      if c =? 34 then
        match scanstring r with
        | Some (x, r') => POk (JString x) r'
        | None => PFail
        end
      else if c =? 123 then
        match skip_ws r with
        | c' :: r' =>
            if c' =? 125 then POk (JObject []) r' else object_loop f (c' :: r') []
        | [] => PFail
        end
      else if c =? 91 then
        match skip_ws r with
        | c' :: r' =>
            if c' =? 93 then POk (JArray []) r' else array_loop f (c' :: r') []
        | [] => PFail
        end
      else if startswith (lit "null") s then POk JNull (skipn 4 s)
      else if startswith (lit "true") s then POk (JBool true) (skipn 4 s)
      else if startswith (lit "false") s then POk (JBool false) (skipn 5 s)
      else if startswith (lit "NaN") s then POk JNaN (skipn 3 s)
      else if startswith (lit "Infinity") s then POk (JInf false) (skipn 8 s)
      else if startswith (lit "-Infinity") s then POk (JInf true) (skipn 9 s)
      else match match_number s with
           | Some (v, r') => POk v r'
           | None => PFail
           end
    end
  end

with array_loop (fuel : nat) (s : str) (acc : list json) {struct fuel}
  : pres json :=
  match fuel with
  | O => PFuel
  | S f =>
    match scan_once f s with
    | POk v s1 =>
        match skip_ws s1 with
        | c :: r =>
            if c =? 93 then POk (JArray (rev (v :: acc))) r
            else if c =? 44 then array_loop f (skip_ws r) (v :: acc)
            else PFail
        | [] => PFail
        end
    | PFail => PFail
    | PFuel => PFuel
    end
  end

with object_loop (fuel : nat) (s : str) (acc : dict) {struct fuel}
  : pres json :=
  match fuel with
  | O => PFuel
  | S f =>
    match s with
    | q :: r0 =>
      if q =? 34 then
        match scanstring r0 with
        | Some (key, s1) =>
          match skip_ws s1 with
          | c :: r1 =>
            if c =? 58 then
              match scan_once f (skip_ws r1) with
              | POk v s2 =>
                  match skip_ws s2 with
                  | c2 :: r2 =>
                      if c2 =? 125 then POk (JObject (dict_set acc key v)) r2
                      else if c2 =? 44
                      then object_loop f (skip_ws r2) (dict_set acc key v)
                      else PFail
                  | [] => PFail
                  end
              | PFail => PFail
              | PFuel => PFuel
              end
            else PFail
          | [] => PFail
          end
        | None => PFail
        end
      else PFail
    | [] => PFail
    end
  end.

(** [json.loads(s)] for a [str]; [None] stands for [json.JSONDecodeError].
    This is [json.loads] within the limits of the interpreter: on an integer
    of more digits than the interpreter converts (4300 by default) it raises
    a plain [ValueError], and on nesting deeper than the recursion limit
    [RecursionError]; neither is a [json.JSONDecodeError]. *)
Definition json_loads (s : str) : option json :=
  if startswith [0xFEFF] s then None
  else
    match scan_once (2 * length s + 1) (skip_ws s) with
    | POk v r => match skip_ws r with [] => Some v | _ :: _ => None end
    | PFail => None
    | PFuel => None
    end.

End Json.

(** ** The two patterns of [chat_json] and [re.search]

    A backtracking matcher for the constructs the two patterns use:
    literal characters, sequence, the greedy option, the greedy and the lazy
    star over a character class, and one capture group.  It tries the
    alternatives in the order Python's [re] does, so the first success is
    the match [re.search] reports. *)

Module Re.
Import Py.
Local Open Scope N_scope.

Inductive regex : Type :=
| Eps
| Chr (c : N)
| Seq (r1 r2 : regex)
| Opt (r : regex)
| Star (cls : N -> bool)
| StarLazy (cls : N -> bool)
| Group (r : regex).

Section Matcher.
Variable R : Type.

Fixpoint star_greedy (cls : N -> bool) (s : str) (k : str -> option R)
  : option R :=
  match s with
  | c :: s' =>
      if cls c then
        match star_greedy cls s' k with
        | Some x => Some x
        | None => k s
        end
      else k s
  | [] => k s
  end.

Fixpoint star_lazy (cls : N -> bool) (s : str) (k : str -> option R)
  : option R :=
  match k s with
  | Some x => Some x
  | None =>
      match s with
      | c :: s' => if cls c then star_lazy cls s' k else None
      | [] => None
      end
  end.

(** [mtch r s cap k]: match [r] at the head of [s], then continue with [k]
    on the rest of the input and the text of the capture group. *)
Fixpoint mtch (r : regex) (s : str) (cap : option str)
  (k : str -> option str -> option R) : option R :=
  match r with
  | Eps => k s cap
  | Chr c =>
      match s with
      | x :: s' => if x =? c then k s' cap else None
      | [] => None
      end
  | Seq r1 r2 => mtch r1 s cap (fun s' cap' => mtch r2 s' cap' k)
  | Opt r1 =>
      match mtch r1 s cap k with
      | Some x => Some x
      | None => k s cap
      end
  | Star cls => star_greedy cls s (fun s' => k s' cap)
  | StarLazy cls => star_lazy cls s (fun s' => k s' cap)
  | Group r1 =>
      mtch r1 s cap
        (fun s' _ => k s' (Some (firstn (length s - length s') s)))
  end.

End Matcher.

Arguments star_greedy {R} cls s k.
Arguments star_lazy {R} cls s k.
Arguments mtch {R} r s cap k.

(** A match object: [group(0)] and [group(1)]. *)
Record match_object : Type := { group0 : str; group1 : option str }.

Definition match_at (r : regex) (s : str) : option match_object :=
  mtch r s None
    (fun s' cap =>
       Some {| group0 := firstn (length s - length s') s; group1 := cap |}).

(** [re.search(r, s)]: the match at the leftmost position that has one. *)
Fixpoint search (r : regex) (s : str) : option match_object :=
  match match_at r s with
  | Some m => Some m
  | None =>
      match s with
      | [] => None
      | _ :: s' => search r s'
      end
  end.

Fixpoint word (w : str) : regex :=
  match w with
  | [] => Eps
  | c :: w' => Seq (Chr c) (word w')
  end.

(** The class written [[\s\S]]: a blank or a non-blank. *)
Definition any_char (c : N) : bool := isspace c || negb (isspace c).

Definition TICKS : str := [96; 96; 96].

(** The end of the fence pattern: blanks, a lazily matched group of any
    characters, three backticks. *)
Definition FENCE_TAIL : regex :=
  Seq (Star isspace) (Seq (Group (StarLazy any_char)) (word TICKS)).

Definition JSON_TAG : str := Eval cbv in lit "json".

(** Three backticks, an optional [json], and the end above. *)
Definition FENCE : regex :=
  Seq (word TICKS) (Seq (Opt (word JSON_TAG)) FENCE_TAIL).

(** An opening brace, greedily any characters, a closing brace. *)
Definition BRACES : regex :=
  Seq (Chr 123) (Seq (Star any_char) (Chr 125)).

End Re.

(** ** The shared data shapes and the interface (copilot_interface.py) *)

Module Iface.
Import Py Json.
Local Open Scope N_scope.

Record ChatMessage : Type := { role : str; content : str }.

(** The fields hold whatever the transport delivered: the dataclasses do
    not check their annotations. *)
Record StatusResponse : Type := {
  status : json;
  port : json;
  default_model : json;
  requests_served : json;
  version : json
}.

Record ChatResponse : Type := {
  id : json;
  model : json;
  response_content : json
}.

Record ModelInfo : Type := {
  model_id : json;
  model_name : json;
  model_vendor : json;
  model_family : json;
  model_version : json;
  max_input_tokens : json
}.

(** One element of a message list: a [ChatMessage] object or a dict. *)
Inductive message_item : Type :=
| MsgObj (m : ChatMessage)
| MsgDict (d : dict).

(** The [messages] argument: a prompt string or a message list. *)
Inductive messages_arg : Type :=
| Prompt (s : str)
| Messages (l : list message_item).

(** The exceptions the clients raise or let through.  In Python
    [JSONDecodeError] is a subclass of [ValueError]; here [ValueError] is
    the exception the interface raises itself, with its message. *)
Inductive exn : Type :=
| CopilotClientError (arg : json)
| ValueError (msg : str)
| RuntimeError (msg : str)
| JSONDecodeError
| UnicodeDecodeError
| AttributeError
| TypeError
| RpcError (details : str).

Definition result (A : Type) : Type := (exn + A)%type.

(** How a generator run to its end finishes. *)
Inductive outcome : Type :=
| Returned
| Raised (e : exn).

(** [a or b] on optional strings: [a] when it is a non-empty string. *)
Definition por (a b : option str) : option str :=
  match a with
  | Some (_ :: _) => a
  | _ => b
  end.

(** [data.get(k, default)] on a decoded reply: only a dict has [get]. *)
Definition py_get (data : json) (k : str) (default : json) : result json :=
  match data with
  | JObject d => inr (dict_get_default d k default)
  | _ => inl AttributeError
  end.

Definition NL : str := [10].

Definition PARSE_MESSAGE : str := lit "Could not parse JSON from response:" ++ NL.

(** The body of [chat_json] after the call to [chat]: [text] is what [chat]
    returned and [err] builds the final exception ([ValueError] in the
    interface, [CopilotClientError] in the HTTP client). *)
Definition extract_json (err : str -> exn) (text : json) : result json :=
  match text with
  | JString text =>
      match json_loads text with
      | Some v => inr v
      | None =>
          match Re.search Re.FENCE text with
          | Some m =>
              match Re.group1 m with
              | Some g =>
                  match json_loads (strip g) with
                  | Some v => inr v
                  | None => inl JSONDecodeError
                  end
              | None => inl AttributeError
              end
          | None =>
              match Re.search Re.BRACES text with
              | Some m =>
                  match json_loads (Re.group0 m) with
                  | Some v => inr v
                  | None => inl JSONDecodeError
                  end
              | None => inl (err (PARSE_MESSAGE ++ firstn 500 text))
              end
          end
      end
  | _ => inl TypeError
  end.

End Iface.

(** ** The HTTP client (copilot_client.py) *)

Module Http.
Import Py Json Iface.
Local Open Scope N_scope.

Record CopilotClient : Type := {
  base_url : str;
  api_key : option str;
  client_default_model : option str;
  client_default_vendor : option str
}.

(** [CopilotClient.__init__] *)
Definition new_client (base_url : str) (api_key default_model
  default_vendor : option str) : CopilotClient :=
  {| base_url := rstrip_slash base_url;
     api_key := api_key;
     client_default_model := default_model;
     client_default_vendor := default_vendor |}.

(** What [urllib.request.Request] is built from, with the timeout of the
    [urlopen] call.  [data] is the payload before [json.dumps] and
    [encode]: the bytes sent are a function of it. *)
Record Request : Type := {
  method : str;
  url : str;
  headers : list (str * str);
  data : option json;
  timeout : Z
}.

(** What [urlopen] does with a request: it returns a response, whose body
    arrives as the chunks successive reads deliver, or it raises
    [HTTPError] (the body given as [decode("utf-8", errors="replace")] reads
    it) or [URLError] (the reason given as the f-string prints it).  These
    are the outcomes the client has code for; an exception of another class
    (a connection that breaks off, a timeout during a read) passes through
    the client as it is and is not among them. *)
Inductive urlopen_result : Type :=
| Response (chunks : list bytes)
| HTTPError (code : Z) (body : str)
| URLError (reason : str).

(** A URL that [urllib.request.Request] takes: it starts with [http://] or
    [https://] and is made of printable ASCII characters other than the
    blank, the angle brackets and the square brackets.  The client builds
    the request object before its [try] block, and the constructor parses
    the URL: for a URL without a scheme, such as a bare host name or the
    empty text, it raises [ValueError], and then nothing is handed to
    [urlopen]. *)
Definition plain_char (c : N) : bool :=
  (33 <=? c) && (c <=? 126)
  && negb (c =? 60) && negb (c =? 62) && negb (c =? 91) && negb (c =? 93).

Definition plain_url (url : str) : bool :=
  (startswith (lit "http://") url || startswith (lit "https://") url)
  && forallb plain_char url.

(** Operations thread the log of the requests handed to [urlopen]. *)
Definition M (A : Type) : Type := list Request -> result A * list Request.

Definition ret {A : Type} (a : A) : M A := fun log => (inr a, log).
Definition raise {A : Type} (e : exn) : M A := fun log => (inl e, log).
Definition bind {A B : Type} (m : M A) (k : A -> M B) : M B :=
  fun log =>
    match m log with
    | (inr a, log') => k a log'
    | (inl e, log') => (inl e, log')
    end.
Definition lift {A : Type} (r : result A) : M A := fun log => (r, log).

Notation "x <- m ;; k" := (bind m (fun x => k))
  (at level 61, m at next level, right associativity).

Definition http_error_message (code : Z) (body : str) : str :=
  lit "HTTP " ++ str_of_Z code ++ lit ": " ++ body.

Definition cannot_connect_message (base : str) (reason : str) : str :=
  lit "Cannot connect to Copilot Bridge at " ++ base
  ++ lit ". Is VS Code running with the extension? Error: " ++ reason.

Definition cannot_connect_stream_message (base : str) (reason : str) : str :=
  lit "Cannot connect to Copilot Bridge at " ++ base ++ lit ". Error: "
  ++ reason.

Definition DATA_PREFIX : str := Eval cbv in lit "data: ".
Definition BLANK_LINE : str := [10; 10].
Definition K_MESSAGES : str := Eval cbv in lit "messages".
Definition K_MODEL : str := Eval cbv in lit "model".
Definition K_VENDOR : str := Eval cbv in lit "vendor".
Definition K_SYSTEM_PROMPT : str := Eval cbv in lit "systemPrompt".
Definition K_ROLE : str := Eval cbv in lit "role".
Definition K_CONTENT : str := Eval cbv in lit "content".
Definition K_DONE : str := Eval cbv in lit "done".
Definition K_ERROR : str := Eval cbv in lit "error".
Definition USER : str := Eval cbv in lit "user".

Definition message_dict (r c : str) : json :=
  JObject [(K_ROLE, JString r); (K_CONTENT, JString c)].

(** [if o: d[k] = o] *)
Definition set_if_truthy (d : dict) (k : str) (o : option str) : dict :=
  match o with
  | Some (c :: s) => dict_set d k (JString (c :: s))
  | _ => d
  end.

Definition _build_payload (self : CopilotClient) (messages : messages_arg)
  (model vendor system_prompt : option str) : json :=
  let messages :=
    match messages with
    | Prompt s => [message_dict USER s]
    | Messages l =>
        map (fun m => match m with
                      | MsgObj o => message_dict (role o) (content o)
                      | MsgDict d => JObject d
                      end) l
    end in
  let payload := [(K_MESSAGES, JArray messages)] in
  let m := por model (client_default_model self) in
  let v := por vendor (client_default_vendor self) in
  let payload := set_if_truthy payload K_MODEL m in
  let payload := set_if_truthy payload K_VENDOR v in
  let payload := set_if_truthy payload K_SYSTEM_PROMPT system_prompt in
  JObject payload.

Definition _headers (self : CopilotClient) : list (str * str) :=
  let h := [(lit "Content-Type", lit "application/json")] in
  match api_key self with
  | Some (c :: k) => h ++ [(lit "Authorization", lit "Bearer " ++ c :: k)]
  | _ => h
  end.

(** [for m in v] on a decoded value: a list gives its elements, a string
    its characters, a dict its keys; nothing else can be iterated. *)
Definition py_iter (v : json) : result (list json) :=
  match v with
  | JArray l => inr l
  | JString s => inr (map (fun c => JString [c]) s)
  | JObject d => inr (map (fun kv => JString (fst kv)) d)
  | _ => inl TypeError
  end.

(** The [ModelInfo(...)] of the comprehension in [list_models]: six calls
    of [m.get], which only a dict has. *)
Definition model_info (m : json) : result ModelInfo :=
  match m with
  | JObject d =>
      inr {| model_id := dict_get_default d (lit "id") (JString []);
             model_name := dict_get_default d (lit "name") (JString []);
             model_vendor := dict_get_default d (lit "vendor") (JString []);
             model_family := dict_get_default d (lit "family") (JString []);
             model_version := dict_get_default d (lit "version") (JString []);
             max_input_tokens :=
               dict_get_default d (lit "maxInputTokens") (JInt 0) |}
  | _ => inl AttributeError
  end.

(** A list comprehension [[f(m) for m in l]]: the elements from left to
    right, up to the first one that raises. *)
Fixpoint comprehension {A B : Type} (f : A -> result B) (l : list A)
  : result (list B) :=
  match l with
  | [] => inr []
  | m :: l' =>
      match f m with
      | inl e => inl e
      | inr b =>
          match comprehension f l' with
          | inl e => inl e
          | inr bs => inr (b :: bs)
          end
      end
  end.

Section Network.

Variable urlopen : Request -> urlopen_result.

(** [json.loads(resp.read().decode("utf-8"))] *)
Definition read_json (chunks : list bytes) : result json :=
  match decode (concat chunks) with
  | None => inl UnicodeDecodeError
  | Some text =>
      match json_loads text with
      | None => inl JSONDecodeError
      | Some v => inr v
      end
  end.

(** The exchange [_get] and [_post] share, from the call of [urlopen] on:
    one call of [urlopen], the reply decoded, the two transport errors
    translated.  The request object is built before it; this is the client
    for the URLs the constructor takes ([plain_url]). *)
Definition exchange (self : CopilotClient) (req : Request) : M json :=
  fun log =>
    (match urlopen req with
     | Response chunks => read_json chunks
     | HTTPError code body =>
         inl (CopilotClientError (JString (http_error_message code body)))
     | URLError reason =>
         inl (CopilotClientError
                (JString (cannot_connect_message (base_url self) reason)))
     end,
     log ++ [req]).

Definition _get (self : CopilotClient) (path : str) : M json :=
  exchange self
    {| method := lit "GET"; url := base_url self ++ path;
       headers := _headers self; data := None; timeout := 30 |}.

Definition _post (self : CopilotClient) (path : str) (payload : json)
  : M json :=
  exchange self
    {| method := lit "POST"; url := base_url self ++ path;
       headers := _headers self; data := Some payload; timeout := 300 |}.

Definition status (self : CopilotClient) : M StatusResponse :=
  data <- _get self (lit "/status") ;;
  lift match data with
       | JObject d =>
           inr {| status := dict_get_default d (lit "status") (JString []);
                  port := dict_get_default d (lit "port") (JInt 0);
                  default_model :=
                    dict_get_default d (lit "defaultModel") (JString []);
                  requests_served :=
                    dict_get_default d (lit "requestsServed") (JInt 0);
                  version := dict_get_default d (lit "version") (JString []) |}
       | _ => inl AttributeError
       end.

Definition chat (self : CopilotClient) (messages : messages_arg)
  (model vendor system_prompt : option str) : M json :=
  let payload := _build_payload self messages model vendor system_prompt in
  data <- _post self (lit "/chat") payload ;;
  lift (py_get data K_CONTENT (JString [])).

Definition chat_full (self : CopilotClient) (messages : messages_arg)
  (model vendor system_prompt : option str) : M ChatResponse :=
  let payload := _build_payload self messages model vendor system_prompt in
  data <- _post self (lit "/chat") payload ;;
  lift match data with
       | JObject d =>
           inr {| id := dict_get_default d (lit "id") (JInt 0);
                  model := dict_get_default d K_MODEL (JString []);
                  response_content :=
                    dict_get_default d K_CONTENT (JString []) |}
       | _ => inl AttributeError
       end.

Definition parse_error (preview : str) : exn :=
  CopilotClientError (JString preview).

Definition chat_json (self : CopilotClient) (messages : messages_arg)
  (model vendor system_prompt : option str) : M json :=
  text <- chat self messages model vendor system_prompt ;;
  lift (extract_json parse_error text).

Definition list_models (self : CopilotClient) : M (list ModelInfo) :=
  data <- _get self (lit "/models") ;;
  models <- lift (py_get data (lit "models") (JArray [])) ;;
  items <- lift (py_iter models) ;;
  lift (comprehension model_info items).

(** [ask_copilot], with the module-level [_default_client] as a state that
    the call reads and leaves behind: the client is built anew when there is
    none or when its [base_url] is not the [base_url] argument. *)
Definition ask_copilot (prompt : str) (model system_prompt : option str)
  (base_url_arg : str) (_default_client : option CopilotClient)
  (log : list Request)
  : (result json * list Request) * option CopilotClient :=
  let client :=
    match _default_client with
    | None => new_client base_url_arg None None None
    | Some c =>
        if negb (str_eqb (base_url c) base_url_arg)
        then new_client base_url_arg None None None
        else c
    end in
  (chat client (Prompt prompt) model None system_prompt log, Some client).

End Network.

(** *** The streaming read loop of [_post_stream] *)

(** What one [data: ] line makes the loop do. *)
Inductive action : Type :=
| AReturn
| ARaise (e : exn)
| AYield (v : json)
| ASkip.

(** The body of [if line.startswith("data: ")], on [line[6:]].  The two
    lookups [k in event_data] and [event_data[k]] are one [dict_get]. *)
Definition handle_data (payload : str) : action :=
  match json_loads payload with
  | None => ARaise JSONDecodeError
  | Some (JObject event_data) =>
      if truthy_opt (dict_get event_data K_DONE) then AReturn
      else
        match dict_get event_data K_ERROR with
        | Some e => ARaise (CopilotClientError e)
        | None =>
            match dict_get event_data K_CONTENT with
            | Some c => AYield c
            | None => ASkip
            end
        end
  | Some _ => ARaise AttributeError
  end.

Definition handle_line (line : str) : action :=
  if startswith DATA_PREFIX line then handle_data (skipn 6 line) else ASkip.

(** **** Run to the end: the fragments a consumer that exhausts the
    generator receives, and how the generator ends. *)

Inductive loop_end : Type :=
| Continue
| Stop (o : outcome).

(** [for line in event.split("\n")] *)
Fixpoint for_lines (lines : list str) : list json * loop_end :=
  match lines with
  | [] => ([], Continue)
  | line :: rest =>
      match handle_line line with
      | AReturn => ([], Stop Returned)
      | ARaise e => ([], Stop (Raised e))
      | AYield v => let '(ys, e) := for_lines rest in (v :: ys, e)
      | ASkip => for_lines rest
      end
  end.

(** How [while "\n\n" in buffer] ends: by its condition, with the buffer
    that is left, or inside an event. *)
Inductive buffer_end : Type :=
| More (buffer : str)
| Halt (o : outcome).

(** [while "\n\n" in buffer].  Each round shortens the buffer, so its
    length bounds the number of rounds.  The last branch stands for the
    failed unpacking of a split without separator, which the loop condition
    excludes. *)
Fixpoint while_events_fuel (fuel : nat) (buffer : str)
  : list json * buffer_end :=
  match fuel with
  | O => ([], More buffer)
  | S f =>
      if contains BLANK_LINE buffer then
        match split1 BLANK_LINE buffer with
        | [event; buffer'] =>
            match for_lines (split_char 10 event) with
            | (ys, Continue) =>
                let '(ys', e) := while_events_fuel f buffer' in (ys ++ ys', e)
            | (ys, Stop o) => (ys, Halt o)
            end
        | _ => ([], Halt (Raised (ValueError [])))
        end
      else ([], More buffer)
  end.

Definition while_events (buffer : str) : list json * buffer_end :=
  while_events_fuel (length buffer) buffer.

(** [while True: chunk = resp.read(1024) ...] over the chunks the reads
    deliver; the end of the body reads as the empty chunk. *)
Fixpoint read_loop (chunks : list bytes) (buffer : str)
  : list json * outcome :=
  match chunks with
  | [] => ([], Returned)
  | chunk :: chunks' =>
      match chunk with
      | [] => ([], Returned)
      | _ :: _ =>
          match decode chunk with
          | None => ([], Raised UnicodeDecodeError)
          | Some text =>
              match while_events (buffer ++ text) with
              | (ys, More buffer') =>
                  let '(ys', o) := read_loop chunks' buffer' in (ys ++ ys', o)
              | (ys, Halt o) => (ys, o)
              end
          end
      end
  end.


(** The [try] block of [_post_stream] run to its end on a response. *)
Definition stream_all (chunks : list bytes) : list json * outcome :=
  read_loop chunks [].

(** **** The generator protocol: one [next] at a time, and [close]

    The response object counts the calls of its [close]. *)

Record connection : Type := { unread : list bytes; closes : nat }.

Definition close (resp : connection) : connection :=
  {| unread := unread resp; closes := S (closes resp) |}.

(** Where a step of the loop stops: at the [yield], with the lines of the
    event still to scan, or at the end of the generator. *)
Inductive line_step : Type :=
| LYield (v : json) (rest : list str)
| LStop (o : outcome)
| LContinue.

Fixpoint next_in_lines (lines : list str) : line_step :=
  match lines with
  | [] => LContinue
  | line :: rest =>
      match handle_line line with
      | AReturn => LStop Returned
      | ARaise e => LStop (Raised e)
      | AYield v => LYield v rest
      | ASkip => next_in_lines rest
      end
  end.

Fixpoint next_in_events_fuel (fuel : nat) (buffer : str) : line_step * str :=
  match fuel with
  | O => (LContinue, buffer)
  | S f =>
      if contains BLANK_LINE buffer then
        match split1 BLANK_LINE buffer with
        | [event; buffer'] =>
            match next_in_lines (split_char 10 event) with
            | LContinue => next_in_events_fuel f buffer'
            | st => (st, buffer')
            end
        | _ => (LStop (Raised (ValueError [])), buffer)
        end
      else (LContinue, buffer)
  end.

Definition next_in_events (buffer : str) : line_step * str :=
  next_in_events_fuel (length buffer) buffer.

Inductive step : Type :=
| AtYield (v : json) (lines : list str) (buffer : str) (chunks : list bytes)
| AtEnd (o : outcome) (chunks : list bytes).

Fixpoint next_in_reads (chunks : list bytes) (buffer : str) : step :=
  match chunks with
  | [] => AtEnd Returned []
  | chunk :: chunks' =>
      match chunk with
      | [] => AtEnd Returned chunks'
      | _ :: _ =>
          match decode chunk with
          | None => AtEnd (Raised UnicodeDecodeError) chunks'
          | Some text =>
              match next_in_events (buffer ++ text) with
              | (LYield v rest, buffer') => AtYield v rest buffer' chunks'
              | (LStop o, _) => AtEnd o chunks'
              | (LContinue, buffer') => next_in_reads chunks' buffer'
              end
          end
      end
  end.

(** Run from the point after a [yield] (or from the start of the [try]
    block, with no line and an empty buffer) to the next [yield] or to the
    end. *)
Definition resume (lines : list str) (buffer : str) (chunks : list bytes)
  : step :=
  match next_in_lines lines with
  | LYield v rest => AtYield v rest buffer chunks
  | LStop o => AtEnd o chunks
  | LContinue =>
      match next_in_events buffer with
      | (LYield v rest, buffer') => AtYield v rest buffer' chunks
      | (LStop o, _) => AtEnd o chunks
      | (LContinue, buffer') => next_in_reads chunks buffer'
      end
  end.

(** The generator object [_post_stream] returns. *)
Inductive generator : Type :=
| Created (self : CopilotClient) (path : str) (payload : json)
| Suspended (lines : list str) (buffer : str) (resp : connection)
| Finished (resp : option connection).

(** What [next(gen)] gives the consumer. *)
Inductive resumed : Type :=
| Yielded (v : json)
| StopIteration
| Threw (e : exn).

Definition of_step (s : step) (n : nat) : resumed * generator :=
  match s with
  | AtYield v lines buffer chunks =>
      (Yielded v, Suspended lines buffer {| unread := chunks; closes := n |})
  | AtEnd o chunks =>
      (match o with Returned => StopIteration | Raised e => Threw e end,
       Finished (Some (close {| unread := chunks; closes := n |})))
  end.

Section Stream.

Variable urlopen : Request -> urlopen_result.

(** [next(gen)].  The first one runs the function from its top: the
    request is sent and, with a response at hand, the [try] block is
    entered.  The [finally] clause closes the response when the block is
    left.  As for [exchange], the request object is built first, and this
    is the generator for the URLs the constructor takes. *)
Definition gen_next (g : generator) (log : list Request)
  : (resumed * generator) * list Request :=
  match g with
  | Created self path payload =>
      let req := {| method := lit "POST"; url := base_url self ++ path;
                    headers := _headers self; data := Some payload;
                    timeout := 300 |} in
      (match urlopen req with
       | Response chunks => of_step (resume [] [] chunks) 0
       | HTTPError code body =>
           (Threw (CopilotClientError
                     (JString (http_error_message code body))),
            Finished None)
       | URLError reason =>
           (Threw (CopilotClientError
                     (JString (cannot_connect_stream_message
                                 (base_url self) reason))),
            Finished None)
       end, log ++ [req])
  | Suspended lines buffer resp =>
      (of_step (resume lines buffer (unread resp)) (closes resp), log)
  | Finished r => ((StopIteration, Finished r), log)
  end.

End Stream.

(** [gen.close()], also what happens to a generator that is dropped: a
    generator suspended at the [yield] gets [GeneratorExit] there and leaves
    the [try] block through [finally]; one that never ran runs nothing. *)
Definition gen_close (g : generator) : generator :=
  match g with
  | Created _ _ _ => Finished None
  | Suspended _ _ resp => Finished (Some (close resp))
  | Finished r => Finished r
  end.

Definition _post_stream (self : CopilotClient) (path : str) (payload : json)
  : generator := Created self path payload.

Definition chat_stream (self : CopilotClient) (messages : messages_arg)
  (model vendor system_prompt : option str) : generator :=
  _post_stream self (lit "/chat/stream")
    (_build_payload self messages model vendor system_prompt).

(** What a consumer does with a generator. *)
Inductive consumer_action : Type :=
| DoNext
| DoClose.

Section Consumer.

Variable urlopen : Request -> urlopen_result.

Definition act (a : consumer_action) (st : generator * list Request)
  : generator * list Request :=
  match a with
  | DoNext =>
      let r := gen_next urlopen (fst st) (snd st) in (snd (fst r), snd r)
  | DoClose => (gen_close (fst st), snd st)
  end.

Definition consume (acts : list consumer_action) (g : generator)
  : generator * list Request :=
  fold_left (fun st a => act a st) acts (g, []).


End Consumer.

End Http.

(** ** The gRPC client (copilot_grpc_client.py)

    The generated protobuf classes and the stub are not part of the
    sources; their messages are records with the fields the client reads and
    writes, and the stub is a parameter. *)

Module Grpc.
Import Py Json Iface.
Local Open Scope N_scope.

Record pbChatMessage : Type := { pb_role : str; pb_content : str }.

Record ChatRequest : Type := {
  messages : list pbChatMessage;
  req_model : str;
  req_vendor : str;
  req_system_prompt : str
}.

Record ChatReply : Type := {
  reply_id : Z;
  reply_model : str;
  reply_content : str
}.

Record ChatChunk : Type := {
  chunk_content : str;
  chunk_done : bool;
  chunk_error : str
}.

(** A server stream: the messages the iterator delivers and, when the call
    breaks, the error it then raises. *)
Record server_stream : Type := {
  delivered : list ChatChunk;
  failure : option str
}.

Record CopilotGrpcClient : Type := {
  address : str;
  grpc_default_model : str;
  grpc_default_vendor : str
}.

(** [a or b] with a string default *)
Definition por_str (a : option str) (b : str) : str :=
  match a with
  | Some (c :: s) => c :: s
  | _ => b
  end.

(** [CopilotGrpcClient.__init__] *)
Definition new_client (address : str) (default_model default_vendor
  : option str) : CopilotGrpcClient :=
  {| address := address;
     grpc_default_model := por_str default_model [];
     grpc_default_vendor := por_str default_vendor [] |}.

(** [[pb2.ChatMessage(role=m.role, content=m.content) for m in messages]]:
    a dict has no attribute [role]. *)
Fixpoint convert_messages (l : list message_item)
  : result (list pbChatMessage) :=
  match l with
  | [] => inr []
  | MsgObj m :: l' =>
      match convert_messages l' with
      | inr ms => inr ({| pb_role := role m; pb_content := content m |} :: ms)
      | inl e => inl e
      end
  | MsgDict _ :: _ => inl AttributeError
  end.

Definition _build_request (self : CopilotGrpcClient)
  (messages : messages_arg) (model vendor system_prompt : option str)
  : result ChatRequest :=
  match
    match messages with
    | Prompt s => inr [{| pb_role := Http.USER; pb_content := s |}]
    | Messages l => convert_messages l
    end
  with
  | inl e => inl e
  | inr msgs =>
      inr {| messages := msgs;
             req_model := por_str model (grpc_default_model self);
             req_vendor := por_str vendor (grpc_default_vendor self);
             req_system_prompt := por_str system_prompt [] |}
  end.

(** The calls made on the stub. *)
Inductive rpc : Type :=
| CallChat (req : ChatRequest)
| CallChatStream (req : ChatRequest).

Definition M (A : Type) : Type := list rpc -> result A * list rpc.

Definition STREAM_ERROR : str := Eval cbv in lit "gRPC stream error: ".

(** [for chunk in self._stub.ChatStream(req)] run to its end. *)
Fixpoint stream_loop (chunks : list ChatChunk) (failure : option str)
  : list str * outcome :=
  match chunks with
  | [] =>
      ([], match failure with
           | Some d => Raised (RpcError d)
           | None => Returned
           end)
  | chunk :: rest =>
      match chunk_error chunk with
      | _ :: _ => ([], Raised (RuntimeError (STREAM_ERROR ++ chunk_error chunk)))
      | [] =>
          if chunk_done chunk then ([], Returned)
          else
            match chunk_content chunk with
            | _ :: _ =>
                let '(ys, o) := stream_loop rest failure in
                (chunk_content chunk :: ys, o)
            | [] => stream_loop rest failure
            end
      end
  end.

Section Stub.

Variable Chat : ChatRequest -> result ChatReply.
Variable ChatStream : ChatRequest -> server_stream.

Definition call_chat (self : CopilotGrpcClient) (messages : messages_arg)
  (model vendor system_prompt : option str) : M ChatReply :=
  fun log =>
    match _build_request self messages model vendor system_prompt with
    | inl e => (inl e, log)
    | inr req => (Chat req, log ++ [CallChat req])
    end.

Definition chat (self : CopilotGrpcClient) (messages : messages_arg)
  (model vendor system_prompt : option str) : M str :=
  fun log =>
    match call_chat self messages model vendor system_prompt log with
    | (inr reply, log') => (inr (reply_content reply), log')
    | (inl e, log') => (inl e, log')
    end.

Definition chat_full (self : CopilotGrpcClient) (messages : messages_arg)
  (model vendor system_prompt : option str) : M ChatResponse :=
  fun log =>
    match call_chat self messages model vendor system_prompt log with
    | (inr reply, log') =>
        (inr {| id := JInt (reply_id reply);
                Iface.model := JString (reply_model reply);
                response_content := JString (reply_content reply) |}, log')
    | (inl e, log') => (inl e, log')
    end.

(** [chat_stream] run to its end: the fragments, how it ends, the calls. *)
Definition chat_stream (self : CopilotGrpcClient) (messages : messages_arg)
  (model vendor system_prompt : option str)
  : (list str * outcome) * list rpc :=
  match _build_request self messages model vendor system_prompt with
  | inl e => (([], Raised e), [])
  | inr req =>
      let s := ChatStream req in
      (stream_loop (delivered s) (failure s), [CallChatStream req])
  end.

(** [chat_json] is the interface's: it raises [ValueError]. *)
Definition chat_json (self : CopilotGrpcClient) (messages : messages_arg)
  (model vendor system_prompt : option str) : M json :=
  fun log =>
    match chat self messages model vendor system_prompt log with
    | (inr text, log') => (extract_json ValueError (JString text), log')
    | (inl e, log') => (inl e, log')
    end.

End Stub.

End Grpc.

(** ** The test harness (test.py)

    The checks run against a live server.  What is modelled is the frame
    around them: [run_test], the loop of [run_interface_tests], the check
    [test_chat_empty_rejected] and the summary of [main].  The clock and the
    text [str(e)] of an exception are parameters. *)

Module Harness.
Import Py Json Iface.
Local Open Scope N_scope.

(** What a check can raise: what the client raised, or the
    [AssertionError] of the check itself. *)
Inductive raised : Type :=
| FromClient (e : exn)
| AssertionError (msg : str).

(** [type(e).__name__]; a failed unary call of a gRPC stub raises
    [grpc._channel._InactiveRpcError]. *)
Definition exn_name (e : exn) : str :=
  match e with
  | CopilotClientError _ => lit "CopilotClientError"
  | ValueError _ => lit "ValueError"
  | RuntimeError _ => lit "RuntimeError"
  | JSONDecodeError => lit "JSONDecodeError"
  | UnicodeDecodeError => lit "UnicodeDecodeError"
  | AttributeError => lit "AttributeError"
  | TypeError => lit "TypeError"
  | RpcError _ => lit "_InactiveRpcError"
  end.

Definition type_name (e : raised) : str :=
  match e with
  | FromClient e => exn_name e
  | AssertionError _ => lit "AssertionError"
  end.

(** [test_chat_empty_rejected], given what [client.chat([])] did. *)
Definition test_chat_empty_rejected {A : Type} (chat_empty : result A)
  : raised + option str :=
  let body : raised + unit :=
    match chat_empty with
    | inr _ =>
        inl (AssertionError
               (lit "Should have raised an error for empty messages"))
    | inl e => inl (FromClient e)
    end in
  match body with
  | inr _ => inr None
  | inl e =>
      if contains (lit "AssertionError") (type_name e) then inl e
      else inr (Some (lit "correctly rejected: " ++ type_name e))
  end.

Section Run.

(** The seconds between two readings of the clock, a float. *)
Variable seconds : Type.

(** [str(e)] *)
Variable exn_text : raised -> str.

Record TestResult : Type := {
  name : str;
  passed : bool;
  message : str;
  duration : seconds
}.

(** [run_test], given what the call of the check did and the time it
    took. *)
Definition run_test (name : str) (func : raised + option str)
  (elapsed : seconds) : TestResult :=
  match func with
  | inr result_msg =>
      {| name := name; passed := true;
         message := match result_msg with
                    | Some (c :: s) => c :: s
                    | _ => []
                    end;
         duration := elapsed |}
  | inl e =>
      {| name := name; passed := false;
         message := type_name e ++ lit ": " ++ exn_text e;
         duration := elapsed |}
  end.

(** A check of a suite: its name, what its call does, the time it takes. *)
Record check : Type := {
  check_name : str;
  check_run : raised + option str;
  check_time : seconds
}.

(** The loop of [run_interface_tests] and of [run_http_specific_tests],
    over the checks of the suite. *)
Definition run_tests (transport_name : str) (tests : list check)
  : list TestResult :=
  fold_left
    (fun results t =>
       results ++ [run_test (transport_name ++ lit "::" ++ check_name t)
                     (check_run t) (check_time t)])
    tests [].

(** The counts of the summary of [main] and the status it exits with. *)
Definition count_passed (all_results : list TestResult) : nat :=
  length (filter (fun r => passed r) all_results).

Definition count_failed (all_results : list TestResult) : nat :=
  length (filter (fun r => negb (passed r)) all_results).

Definition exit_status (all_results : list TestResult) : Z :=
  if Nat.eqb (count_failed all_results) 0 then 0%Z else 1%Z.

End Run.

(** The field [{m.family:<30s}] of a line of the listing: the format code
    [s] takes a text only.  A number or a boolean raises [ValueError], with
    the name of its type in the message, and null, a list or a dict raise
    [TypeError]. *)
Definition format_family (family : json) : result str :=
  let unknown (type : str) :=
    inl (ValueError (lit "Unknown format code 's' for object of type '"
                     ++ type ++ lit "'")) in
  match family with
  | JString s => inr (s ++ repeat 32 (30 - length s))
  | JInt _ => unknown (lit "int")
  | JBool _ => unknown (lit "bool")
  | JFloat _ _ | JNaN | JInf _ => unknown (lit "float")
  | JNull | JArray _ | JObject _ => inl TypeError
  end.

(** The loop that prints the models before the prompt, one line each; the
    output itself is taken to succeed. *)
Fixpoint listing (models : list ModelInfo) : result unit :=
  match models with
  | [] => inr tt
  | m :: rest =>
      match format_family (model_family m) with
      | inl e => inl e
      | inr _ => listing rest
      end
  end.

(** What [pick_model_interactive] comes to: the family of a model, the
    exit of the program, or the prompt still open when the answers given so
    far are used up. *)
Inductive picked : Type :=
| Family (f : json)
| SystemExit (code : Z)
| Prompting.

Section Picker.

(** [int(s)] on a text; [None] stands for [ValueError]. *)
Variable py_int : str -> option Z.

(** The [while True] loop over the answers to the prompt: a line, or the
    end of the input, on which [input] raises [EOFError].  The last branch
    of the index lookup is excluded by the bounds test before it. *)
Fixpoint prompt_loop (models : list ModelInfo) (answers : list (option str))
  : picked :=
  match answers with
  | [] => Prompting
  | None :: rest => prompt_loop models rest
  | Some line :: rest =>
      let choice := strip line in
      match
        match choice with
        | [] => Some 0%Z
        | _ :: _ =>
            match py_int choice with
            | Some n => Some (n - 1)%Z
            | None => None
            end
        end
      with
      | None => prompt_loop models rest
      | Some idx =>
          if ((0 <=? idx)%Z && (idx <? Z.of_nat (length models))%Z)%bool
          then
            match nth_error models (Z.to_nat idx) with
            | Some m => Family (model_family m)
            | None => prompt_loop models rest
            end
          else prompt_loop models rest
      end
  end.

(** [pick_model_interactive], given what [client.list_models()] did: the
    exit when there is no model, the listing, the prompt. *)
Definition pick_model_interactive (listed : result (list ModelInfo))
  (answers : list (option str)) : result picked :=
  match listed with
  | inl e => inl e
  | inr [] => inr (SystemExit 1)
  | inr (m :: ms) =>
      match listing (m :: ms) with
      | inl e => inl e
      | inr _ => inr (prompt_loop (m :: ms) answers)
      end
  end.

End Picker.

Arguments name {seconds} t.
Arguments passed {seconds} t.
Arguments message {seconds} t.
Arguments duration {seconds} t.
Arguments check_name {seconds} c.
Arguments check_run {seconds} c.
Arguments check_time {seconds} c.
Arguments run_test {seconds} exn_text name func elapsed.
Arguments run_tests {seconds} exn_text transport_name tests.
Arguments count_passed {seconds} all_results.
Arguments count_failed {seconds} all_results.
Arguments exit_status {seconds} all_results.

End Harness.

(** ** Reference definitions, in the words of the specification *)

Module Spec.
Import Py Json Iface.
Local Open Scope N_scope.

(** "Optional fields are omitted when unset, per-call overrides are favoured
    over client-level defaults", read with "set" as "given": the value
    the specification lets a field take. *)
Definition claimed_choice (arg default : option str) : option str :=
  match arg with
  | Some x => Some x
  | None => default
  end.

(** The same with "set" as "given and not empty", which is what the
    client's truth tests implement. *)
Definition chosen (arg default : option str) : option str :=
  match arg with
  | Some (c :: s) => Some (c :: s)
  | _ =>
      match default with
      | Some (c :: s) => Some (c :: s)
      | _ => None
      end
  end.

(** The keys of a request body: [messages], then each optional field that
    has a value. *)
Definition body_keys (m v sp : option str) : list str :=
  Http.K_MESSAGES
    :: (match m with Some _ => [Http.K_MODEL] | None => [] end)
    ++ (match v with Some _ => [Http.K_VENDOR] | None => [] end)
    ++ (match sp with Some _ => [Http.K_SYSTEM_PROMPT] | None => [] end).

(** The status shape [{status, port, defaultModel, requestsServed,
    version}]: an object with the five fields, texts and integers. *)
Definition is_text (o : option json) : bool :=
  match o with Some (JString _) => true | _ => false end.
Definition is_integer (o : option json) : bool :=
  match o with Some (JInt _) => true | _ => false end.

Definition well_formed_status (body : bytes) : bool :=
  match decode body with
  | Some text =>
      match json_loads text with
      | Some (JObject d) =>
          is_text (dict_get d (lit "status"))
          && is_integer (dict_get d (lit "port"))
          && is_text (dict_get d (lit "defaultModel"))
          && is_integer (dict_get d (lit "requestsServed"))
          && is_text (dict_get d (lit "version"))
      | _ => false
      end
  | None => false
  end.

(** The request [status] sends. *)
Definition status_request_of (self : Http.CopilotClient) : Http.Request :=
  {| Http.method := lit "GET";
     Http.url := Http.base_url self ++ lit "/status";
     Http.headers := Http._headers self;
     Http.data := None;
     Http.timeout := 30 |}.

(** The complete events of a text: the pieces that a blank line ends, from
    left to right; what follows the last blank line is no event yet. *)
Fixpoint events_from (current : str) (s : str) : list str :=
  match s with
  | [] => []
  | c :: s' =>
      match s' with
      | d :: s'' =>
          if (c =? 10) && (d =? 10)
          then rev current :: events_from [] s''
          else events_from (c :: current) s'
      | [] => []
      end
  end.

Definition events (text : str) : list str := events_from [] text.

(** The remainders of the [data: ] lines of an event, in order. *)
Definition data_of_event (event : str) : list str :=
  map (skipn 6)
    (filter (startswith Http.DATA_PREFIX) (split_char 10 event)).

Definition data_payloads (text : str) : list str :=
  flat_map data_of_event (events text).

(** Dispatching on the payloads in order: the sequence of fragments ends at
    the first payload that terminates or raises. *)
Fixpoint interpret (handle : str -> Http.action) (payloads : list str)
  : list json * outcome :=
  match payloads with
  | [] => ([], Returned)
  | p :: ps =>
      match handle p with
      | Http.AReturn => ([], Returned)
      | Http.ARaise e => ([], Raised e)
      | Http.AYield v => let '(ys, o) := interpret handle ps in (v :: ys, o)
      | Http.ASkip => interpret handle ps
      end
  end.

(** How a loop over a whole text ends when the input ends with it. *)
Definition at_end_of_input (r : list json * Http.buffer_end)
  : list json * outcome :=
  match r with
  | (ys, Http.More _) => (ys, Returned)
  | (ys, Http.Halt o) => (ys, o)
  end.

(** What the consumer of a generator sees, call after call, when the run
    to the end yields [ys] and ends with [o]: the fragments, the end, and
    [StopIteration] from then on. *)
Definition answers (r : list json * outcome) (n : nat)
  : list Http.resumed :=
  firstn n
    (map Http.Yielded (fst r)
     ++ match snd r with
        | Returned => Http.StopIteration
        | Raised e => Http.Threw e
        end
     :: repeat Http.StopIteration n).





(** The stream a text denotes, for a given way to handle a payload. *)
Definition stream_of_text (handle : str -> Http.action) (text : str)
  : list json * outcome :=
  interpret handle (data_payloads text).

(** The dispatch as the specification words it: [{done: true}] terminates,
    an object with [error] raises, an object with [content] yields, any
    other shape is ignored. *)
Definition claimed_handle (payload : str) : Http.action :=
  match json_loads payload with
  | None => Http.ARaise JSONDecodeError
  | Some (JObject d) =>
      match dict_get d Http.K_DONE with
      | Some (JBool true) => Http.AReturn
      | _ =>
          match dict_get d Http.K_ERROR with
          | Some e => Http.ARaise (CopilotClientError e)
          | None =>
              match dict_get d Http.K_CONTENT with
              | Some c => Http.AYield c
              | None => Http.ASkip
              end
          end
      end
  | Some _ => Http.ASkip
  end.

(** The text the chunks of a response carry, when each chunk decodes. *)
Fixpoint decoded (chunks : list bytes) : option str :=
  match chunks with
  | [] => Some []
  | c :: cs =>
      match decode c, decoded cs with
      | Some t, Some ts => Some (t ++ ts)
      | _, _ => None
      end
  end.

(** The three-stage fallback as the specification words it: each stage is
    tried when the one before it fails, and the preview error is raised when
    all three fail. *)
Definition claimed_extract (err : str -> exn) (text : str) : result json :=
  match json_loads text with
  | Some v => inr v
  | None =>
      match
        match Re.search Re.FENCE text with
        | Some m =>
            match Re.group1 m with
            | Some g => json_loads (strip g)
            | None => None
            end
        | None => None
        end
      with
      | Some v => inr v
      | None =>
          match
            match Re.search Re.BRACES text with
            | Some m => json_loads (Re.group0 m)
            | None => None
            end
          with
          | Some v => inr v
          | None => inl (err (PARSE_MESSAGE ++ firstn 500 text))
          end
      end
  end.

(** The connection a generator holds is released once: none of its
    [close] calls happened while the generator is suspended, one happened
    when it has finished. *)
Definition released_once (g : Http.generator) : Prop :=
  match g with
  | Http.Created _ _ _ => False
  | Http.Suspended _ _ resp => Http.closes resp = 0%nat
  | Http.Finished (Some resp) => Http.closes resp = 1%nat
  | Http.Finished None => False
  end.

(** A generator that holds no connection: it has not run, or it finished
    without a response. *)
Definition holds_nothing (g : Http.generator) : Prop :=
  match g with
  | Http.Created _ _ _ => True
  | Http.Finished None => True
  | _ => False
  end.

Definition is_finished (g : Http.generator) : Prop :=
  match g with
  | Http.Finished _ => True
  | _ => False
  end.

(** The request [_post_stream] sends. *)
Definition stream_request_of (self : Http.CopilotClient) (path : str)
  (payload : json) : Http.Request :=
  {| Http.method := lit "POST";
     Http.url := Http.base_url self ++ path;
     Http.headers := Http._headers self;
     Http.data := Some payload;
     Http.timeout := 300 |}.

Definition is_some {A : Type} (o : option A) : bool :=
  match o with Some _ => true | None => false end.

Definition all_blank (ws : str) : Prop :=
  Forall (fun c => isspace c = true) ws.

Definition starts_nonblank (s : str) : Prop :=
  match s with
  | [] => True
  | c :: _ => isspace c = false
  end.

(** A text holds a fenced block when three backticks are followed, after
    any text, by three more; it holds a braced part when an opening brace is
    followed, after any text, by a closing one. *)
Definition has_fence (text : str) : Prop :=
  exists pre mid post, text = pre ++ Re.TICKS ++ mid ++ Re.TICKS ++ post.

Definition has_braces (text : str) : Prop :=
  exists pre mid post, text = pre ++ [123] ++ mid ++ [125] ++ post.

(** A text wrapped in a fenced block: the opening backticks, a tag, blanks,
    the text, blanks, the closing backticks. *)
Definition fenced (tag ws1 t ws2 : str) : str :=
  Re.TICKS ++ tag ++ ws1 ++ t ++ ws2 ++ Re.TICKS.

(** The conditions under which [g] is the content of the first fenced
    block of [pre ++ ``` ++ tag ++ ws ++ g ++ ``` ++ post]. *)
Definition first_fence (pre tag ws g post : str) : Prop :=
  contains Re.TICKS (pre ++ [96; 96]) = false
  /\ (tag = Re.JSON_TAG
      \/ (tag = []
          /\ startswith Re.JSON_TAG (ws ++ g ++ Re.TICKS ++ post) = false))
  /\ all_blank ws
  /\ starts_nonblank (g ++ Re.TICKS ++ post)
  /\ contains Re.TICKS (g ++ [96; 96]) = false.

(** What [chat_json] gives for the text [text] that [chat] returned, stage
    by stage: the text itself when it parses; otherwise the content of the
    first fenced block when there is one, and then nothing else is tried:
    the result is what parsing one part of the text gives, its value or its
    decoding error; otherwise the part between the outermost braces; the
    preview error exactly when the text neither parses nor holds a fenced
    block nor a braced part. *)
Definition follows_stages (err : str -> exn) (text : str) (r : result json)
  : Prop :=
  (forall v, json_loads text = Some v -> r = inr v)
  /\ (json_loads text = None ->
      forall pre tag ws g post,
        text = pre ++ Re.TICKS ++ tag ++ ws ++ g ++ Re.TICKS ++ post ->
        first_fence pre tag ws g post ->
        r = match json_loads (strip g) with
            | Some v => inr v
            | None => inl JSONDecodeError
            end)
  /\ (json_loads text = None -> has_fence text ->
      exists pre g post,
        text = pre ++ g ++ post
        /\ (forall v, json_loads (strip g) = Some v -> r = inr v)
        /\ (json_loads (strip g) = None -> r = inl JSONDecodeError))
  /\ (json_loads text = None -> ~ has_fence text ->
      forall pre mid post,
        text = pre ++ [123] ++ mid ++ [125] ++ post ->
        ~ In 123 pre -> ~ In 125 post ->
        r = match json_loads ([123] ++ mid ++ [125]) with
            | Some v => inr v
            | None => inl JSONDecodeError
            end)
  /\ (r = inl (err (PARSE_MESSAGE ++ firstn 500 text))
      <-> json_loads text = None /\ ~ has_fence text /\ ~ has_braces text).

End Spec.

(** ** Reference definitions for the derived properties *)

Module Ref.
Import Py Json Iface.
Local Open Scope N_scope.

(** The request [_get] builds for a path, and the one [_post] and
    [_post_stream] build for a path and a payload. *)
Definition get_request (self : Http.CopilotClient) (path : str)
  : Http.Request :=
  {| Http.method := lit "GET";
     Http.url := Http.base_url self ++ path;
     Http.headers := Http._headers self;
     Http.data := None;
     Http.timeout := 30 |}.

Definition post_request (self : Http.CopilotClient) (path : str)
  (payload : json) : Http.Request :=
  {| Http.method := lit "POST";
     Http.url := Http.base_url self ++ path;
     Http.headers := Http._headers self;
     Http.data := Some payload;
     Http.timeout := 300 |}.

(** An operation hands exactly the requests [reqs] to [urlopen], whatever
    the log before it and whatever its outcome. *)
Definition sends {A : Type} (m : Http.M A) (reqs : list Http.Request)
  : Prop :=
  forall log, snd (m log) = log ++ reqs.

(** The exception a failed exchange is turned into by [_get] and [_post];
    none for a response. *)
Definition transport_error (self : Http.CopilotClient)
  (r : Http.urlopen_result) : option exn :=
  match r with
  | Http.Response _ => None
  | Http.HTTPError code body =>
      Some (CopilotClientError
              (JString (lit "HTTP " ++ str_of_Z code ++ lit ": " ++ body)))
  | Http.URLError reason =>
      Some (CopilotClientError
              (JString (lit "Cannot connect to Copilot Bridge at "
                        ++ Http.base_url self
                        ++ lit ". Is VS Code running with the extension? Error: "
                        ++ reason)))
  end.

(** A request carries the key of the client as a bearer token, and no
    [Authorization] header when the client has no key or an empty one. *)
Definition bearer_ok (self : Http.CopilotClient) (r : Http.Request) : Prop :=
  In (lit "Content-Type", lit "application/json") (Http.headers r)
  /\ forall v,
       In (lit "Authorization", v) (Http.headers r)
       <-> exists c k,
             Http.api_key self = Some (c :: k)
             /\ v = lit "Bearer " ++ c :: k.

(** A text that ends with a slash. *)
Definition ends_with_slash (s : str) : Prop := exists t, s = t ++ [47].

(** The values [_default_client] takes when only [ask_copilot] assigns it:
    none, or a client built from a base URL alone. *)
Definition built_by_ask (g : option Http.CopilotClient) : Prop :=
  match g with
  | None => True
  | Some c => exists b, c = Http.new_client b None None None
  end.


(** A message of a gRPC stream ends the stream when it carries an error or
    the [done] flag. *)
Definition stops (c : Grpc.ChatChunk) : bool :=
  match Grpc.chunk_error c with
  | _ :: _ => true
  | [] => Grpc.chunk_done c
  end.

(** The messages before the first one that ends the stream, and that
    one. *)
Fixpoint before_stop (chunks : list Grpc.ChatChunk) : list Grpc.ChatChunk :=
  match chunks with
  | [] => []
  | c :: rest => if stops c then [] else c :: before_stop rest
  end.

Fixpoint first_stop (chunks : list Grpc.ChatChunk) : option Grpc.ChatChunk :=
  match chunks with
  | [] => None
  | c :: rest => if stops c then Some c else first_stop rest
  end.

Definition nonempty (s : str) : bool :=
  match s with
  | [] => false
  | _ :: _ => true
  end.

(** The fragments of a gRPC stream: the non-empty contents of the messages
    before the first one that ends it, in order. *)
Definition fragments (chunks : list Grpc.ChatChunk) : list str :=
  filter nonempty (map Grpc.chunk_content (before_stop chunks)).

(** How a gRPC stream ends: at the first message with an error, by
    [RuntimeError]; at the first one with the [done] flag, normally; with no
    such message, as the call itself ends. *)
Definition ending (chunks : list Grpc.ChatChunk) (failure : option str)
  : outcome :=
  match first_stop chunks with
  | Some c =>
      match Grpc.chunk_error c with
      | _ :: _ =>
          Raised (RuntimeError (lit "gRPC stream error: "
                                ++ Grpc.chunk_error c))
      | [] => Returned
      end
  | None =>
      match failure with
      | Some d => Raised (RpcError d)
      | None => Returned
      end
  end.

(** The JSON body that carries a gRPC request: the messages, and each of
    the three fields that is not empty. *)
Definition field_if_nonempty (k v : str) : list (str * json) :=
  match v with
  | [] => []
  | _ :: _ => [(k, JString v)]
  end.

Definition json_of_request (req : Grpc.ChatRequest) : json :=
  JObject
    ((Http.K_MESSAGES,
      JArray (map (fun m => Http.message_dict (Grpc.pb_role m)
                              (Grpc.pb_content m))
                (Grpc.messages req)))
     :: field_if_nonempty Http.K_MODEL (Grpc.req_model req)
     ++ field_if_nonempty Http.K_VENDOR (Grpc.req_vendor req)
     ++ field_if_nonempty Http.K_SYSTEM_PROMPT (Grpc.req_system_prompt req)).

(** The [pb2.ChatMessage] of a [ChatMessage]. *)
Definition pb_of (m : ChatMessage) : Grpc.pbChatMessage :=
  {| Grpc.pb_role := role m; Grpc.pb_content := content m |}.

Definition is_dict (m : message_item) : bool :=
  match m with
  | MsgDict _ => true
  | MsgObj _ => false
  end.

(** The messages are a prompt, or a list of [ChatMessage] objects and of
    dicts whose values are texts: what [json.dumps] turns into a body
    whatever the limits of the interpreter. *)
Definition text_value (kv : str * json) : bool :=
  match snd kv with
  | JString _ => true
  | _ => false
  end.

Definition text_only (messages : messages_arg) : bool :=
  match messages with
  | Prompt _ => true
  | Messages l =>
      forallb (fun m => match m with
                        | MsgObj _ => true
                        | MsgDict d => forallb text_value d
                        end) l
  end.

(** A text is a part of another: it stands in it, in one piece. *)
Definition part_of (t text : str) : Prop :=
  exists pre post, text = pre ++ t ++ post.

(** A text is the end of another. *)
Definition suffix_of (t text : str) : Prop := exists pre, text = pre ++ t.

(** A check returned without raising. *)
Definition returned {A B : Type} (r : A + B) : bool :=
  match r with
  | inr _ => true
  | inl _ => false
  end.

End Ref.

(** ** Concrete clients, servers and streams *)

Module Examples.
Import Py Json Iface.
Local Open Scope N_scope.

(** Literals with double quotes inside: the apostrophe stands for the
    double quote. *)
Definition q (s : String.string) : str :=
  map (fun c => if c =? 39 then 34 else c) (lit s).
Arguments q s%_string.

Definition bq (s : String.string) : bytes :=
  map (fun b => match b with Byte.x27 => Byte.x22 | _ => b end) (blit s).
Arguments bq s%_string.

(** A line of a response: the text and a line feed. *)
Definition line (s : String.string) : bytes := bq s ++ [Byte.x0a].
Arguments line s%_string.

Definition demo_client : Http.CopilotClient :=
  Http.new_client (lit "http://127.0.0.1:3741/") None None None.

(** A client constructed with a default model. *)
Definition client_with_default : Http.CopilotClient :=
  Http.new_client (lit "http://127.0.0.1:3741") None (Some (lit "gpt-4o"))
    None.

Definition demo_grpc_client : Grpc.CopilotGrpcClient :=
  Grpc.new_client (lit "127.0.0.1:3742") None None.

(** A server that answers every request with a chat reply. *)
Definition accepting_server (_ : Http.Request) : Http.urlopen_result :=
  Http.Response [bq "{'id': 7, 'model': 'gpt-4o', 'content': 'ok'}"].

(** A server that rejects every request with status 400. *)
Definition rejecting_server (_ : Http.Request) : Http.urlopen_result :=
  Http.HTTPError 400 (q "{'error': 'messages must not be empty'}").

(** A server that cannot be reached. *)
Definition unreachable_server (_ : Http.Request) : Http.urlopen_result :=
  Http.URLError (lit "[Errno 111] Connection refused").

(** A server whose status reply is an object without any field. *)
Definition bare_server (_ : Http.Request) : Http.urlopen_result :=
  Http.Response [bq "{}"].

Definition grpc_chat_ok (_ : Grpc.ChatRequest) : result Grpc.ChatReply :=
  inr {| Grpc.reply_id := 7; Grpc.reply_model := lit "gpt-4o";
         Grpc.reply_content := lit "ok" |}.

Definition grpc_no_stream (_ : Grpc.ChatRequest) : Grpc.server_stream :=
  {| Grpc.delivered := []; Grpc.failure := None |}.

Definition chat_request : Http.Request :=
  {| Http.method := lit "POST";
     Http.url := lit "http://127.0.0.1:3741/chat";
     Http.headers := [(lit "Content-Type", lit "application/json")];
     Http.data := Some (JObject [(Http.K_MESSAGES, JArray [])]);
     Http.timeout := 300 |}.

Definition status_request : Http.Request :=
  {| Http.method := lit "GET";
     Http.url := lit "http://127.0.0.1:3741/status";
     Http.headers := [(lit "Content-Type", lit "application/json")];
     Http.data := None;
     Http.timeout := 30 |}.

(** A server whose chat reply is a JSON object in a fenced block. *)
Definition fencing_server (_ : Http.Request) : Http.urlopen_result :=
  Http.Response
    [bq "{'content': '```json\n{\'a\': 1}\n```'}"].

(** A server whose chat reply is prose without any JSON. *)
Definition prose_server (_ : Http.Request) : Http.urlopen_result :=
  Http.Response [bq "{'content': 'no json here'}"].

(** A server whose chat reply holds a fenced block that is no JSON, and a
    JSON object after it. *)
Definition mixed_server (_ : Http.Request) : Http.urlopen_result :=
  Http.Response
    [bq "{'content': '```x``` {\'a\': 1}'}"].

(** The object whose one field holds three backticks. *)
Definition ticks_object : str := q "{'a':'```'}".

Definition hi_request : Http.Request :=
  {| Http.method := lit "POST";
     Http.url := lit "http://127.0.0.1:3741/chat";
     Http.headers := [(lit "Content-Type", lit "application/json")];
     Http.data :=
       Some (JObject [(Http.K_MESSAGES,
                       JArray [Http.message_dict Http.USER (lit "hi")])]);
     Http.timeout := 300 |}.

(** A server that answers with the scenario's stream. *)
Definition streaming_server (chunks : list bytes) (_ : Http.Request)
  : Http.urlopen_result := Http.Response chunks.

(** A message of a gRPC stream that carries nothing. *)
Definition empty_chunk : Grpc.ChatChunk :=
  {| Grpc.chunk_content := []; Grpc.chunk_done := false;
     Grpc.chunk_error := [] |}.

(** One complete event and the start of a second one, which the end of
    the input cuts short. *)
Definition cut_short : list bytes :=
  [line "data: {'content':'A'}" ++ [Byte.x0a] ++ bq "data: {'con";
   bq "tent':'B'}"].

(** The three events of the specification's scenario, one read each. *)
Definition scenario : list bytes :=
  [line "data: {'content':'He'}" ++ [Byte.x0a];
   line "data: {'content':'llo'}" ++ [Byte.x0a];
   line "data: {'done':true}" ++ [Byte.x0a]].

(** A server whose reply to every request is the model list of the
    specification's scenario. *)
Definition models_server (_ : Http.Request) : Http.urlopen_result :=
  Http.Response
    [bq "{'models':[{'id':'gpt-4o','name':'GPT-4o','vendor':'copilot',";
     bq "'family':'gpt-4o','version':'1','maxInputTokens':128000}]}"].

(** A server whose chat reply has no content. *)
Definition silent_server (_ : Http.Request) : Http.urlopen_result :=
  Http.Response [bq "{'id': 8, 'model': 'gpt-4o'}"].

(** A client with a key. *)
Definition keyed_client : Http.CopilotClient :=
  Http.new_client (lit "http://127.0.0.1:3741") (Some (lit "s3cret")) None
    None.

(** A stream that goes on after its [done] event. *)
Definition after_done : list bytes :=
  [line "data: {'content':'x'}" ++ [Byte.x0a];
   line "data: {'done':true}" ++ [Byte.x0a]].

(** The two bytes of a two-byte character, one read each, in a data line. *)
Definition split_character : list bytes :=
  [bq "data: {'content':'caf" ++ [Byte.xc3];
   [Byte.xa9] ++ line "'}" ++ [Byte.x0a]].

(** A model as the server lists it, and one whose family is a number. *)
Definition gpt_model : ModelInfo :=
  {| model_id := JString (lit "gpt-4o"); model_name := JString (lit "GPT-4o");
     model_vendor := JString (lit "copilot");
     model_family := JString (lit "gpt-4o");
     model_version := JString (lit "1"); max_input_tokens := JInt 128000 |}.

Definition odd_model : ModelInfo :=
  {| model_id := JString (lit "x"); model_name := JString (lit "X");
     model_vendor := JString (lit "copilot"); model_family := JInt 5;
     model_version := JString (lit "1"); max_input_tokens := JInt 0 |}.

(** A gRPC stream of three messages: a content, an empty one, the end. *)
Definition three_messages : list Grpc.ChatChunk :=
  [{| Grpc.chunk_content := lit "He"; Grpc.chunk_done := false;
      Grpc.chunk_error := [] |};
   empty_chunk;
   {| Grpc.chunk_content := lit "late"; Grpc.chunk_done := true;
      Grpc.chunk_error := [] |}].

End Examples.

(* ================================================================== *)
(** * Part II: lemmas and theorems                                     *)
(* ================================================================== *)

Import Py Json Iface.


(** ** Strings *)

Section Strings.
Local Open Scope N_scope.

Lemma str_eqb_eq (a b : str) : str_eqb a b = true <-> a = b.
Proof.
  revert b; induction a as [|x a IH]; intros [|y b]; simpl;
    try (split; congruence).
  rewrite andb_true_iff, N.eqb_eq, IH. split.
  - intros [-> ->]; reflexivity.
  - intros H; injection H; auto.
Qed.

Lemma str_eqb_refl (a : str) : str_eqb a a = true.
Proof. apply str_eqb_eq; reflexivity. Qed.

Lemma str_eqb_neq (a b : str) : str_eqb a b = false <-> a <> b.
Proof.
  rewrite <- str_eqb_eq. destruct (str_eqb a b); split; congruence.
Qed.

Lemma startswith_app (p s : str) : startswith p (p ++ s) = true.
Proof.
  induction p as [|x p IH]; simpl; [reflexivity|].
  now rewrite N.eqb_refl, IH.
Qed.

Lemma startswith_iff (p s : str) :
  startswith p s = true <-> exists r, s = p ++ r.
Proof.
  revert s; induction p as [|x p IH]; intros s; simpl.
  - split; [intros _; now exists s | reflexivity].
  - destruct s as [|y s].
    + split; [discriminate | intros [r H]; discriminate].
    + rewrite andb_true_iff, N.eqb_eq, IH. split.
      * intros [-> [r ->]]. now exists r.
      * intros [r H]. injection H as -> ->. split; [reflexivity | now exists r].
Qed.

Lemma startswith_skipn (p s : str) :
  startswith p s = true -> s = p ++ skipn (length p) s.
Proof.
  intros H. apply startswith_iff in H as [r ->].
  now rewrite skipn_app, skipn_all, Nat.sub_diag.
Qed.

Lemma startswith_more (p s t : str) :
  startswith p s = true -> startswith p (s ++ t) = true.
Proof.
  intros H. apply startswith_iff in H as [r ->].
  rewrite <- app_assoc. apply startswith_app.
Qed.

Lemma contains_iff (sep s : str) :
  contains sep s = true <-> exists a b, s = a ++ sep ++ b.
Proof.
  induction s as [|c s IH]; simpl.
  - rewrite orb_false_r, startswith_iff. split.
    + intros [r H]. exists [], r. exact H.
    + intros [a [b H]]. destruct a; simpl in H.
      * now exists b.
      * discriminate.
  - rewrite orb_true_iff, startswith_iff, IH. split.
    + intros [[r H] | [a [b H]]].
      * exists [], r. exact H.
      * exists (c :: a), b. simpl. now rewrite H.
    + intros [[|x a] [b H]]; simpl in H.
      * left. now exists b.
      * right. injection H as _ H. now exists a, b.
Qed.

Lemma contains_more (sep s t : str) :
  contains sep s = true -> contains sep (s ++ t) = true.
Proof.
  rewrite !contains_iff. intros [a [b ->]]. exists a, (b ++ t).
  now rewrite <- !app_assoc.
Qed.

Lemma contains_suffix (sep s t : str) :
  contains sep t = true -> contains sep (s ++ t) = true.
Proof.
  rewrite !contains_iff. intros [a [b ->]]. exists (s ++ a), b.
  now rewrite <- !app_assoc.
Qed.

End Strings.

(** ** Dicts *)

Section Dicts.

Lemma dict_get_set_same (d : dict) (k : str) (v : json) :
  dict_get (dict_set d k v) k = Some v.
Proof.
  induction d as [|[k' v'] d IH]; simpl.
  - now rewrite str_eqb_refl.
  - destruct (str_eqb k' k) eqn:E; simpl; rewrite E; auto.
Qed.

Lemma dict_get_set_other (d : dict) (k k' : str) (v : json) :
  k <> k' -> dict_get (dict_set d k v) k' = dict_get d k'.
Proof.
  intros Hne. induction d as [|[k0 v0] d IH]; simpl.
  - apply str_eqb_neq in Hne. now rewrite Hne.
  - destruct (str_eqb k0 k) eqn:E; simpl.
    + apply str_eqb_eq in E; subst k0.
      apply str_eqb_neq in Hne. now rewrite Hne.
    + now rewrite IH.
Qed.

End Dicts.

(** ** The fuel of the JSON scanner is enough *)

Section Fuel.
Local Open Scope N_scope.

Lemma lstrip_by_length (f : N -> bool) (s : str) :
  (length (lstrip_by f s) <= length s)%nat.
Proof.
  induction s as [|c s IH]; simpl; [lia|].
  destruct (f c); simpl; lia.
Qed.

Lemma skip_ws_length (s : str) : (length (skip_ws s) <= length s)%nat.
Proof. apply lstrip_by_length. Qed.

Lemma push_shorter (c : N) (o : option (str * str)) (x r : str) (n : nat) :
  push c o = Some (x, r) ->
  (forall x' r', o = Some (x', r') -> (length r' < n)%nat) ->
  (length r < n)%nat.
Proof.
  destruct o as [[x' r']|]; simpl; [|discriminate].
  intros H Ho. injection H as _ <-. now apply (Ho x').
Qed.

Lemma scanstring_shorter_aux (n : nat) :
  forall s x r,
    (length s <= n)%nat -> scanstring s = Some (x, r) ->
    (length r < length s)%nat.
Proof.
  induction n as [|n IH]; intros s x r Hn H.
  - destruct s; [discriminate | simpl in Hn; lia].
  - destruct s as [|c s]; [discriminate|].
    cbn [scanstring] in H. cbn [length] in *.
    assert (Step : forall s' (o : N) x' r',
               (length s' <= n)%nat -> push o (scanstring s') = Some (x', r') ->
               (length r' < S (length s'))%nat).
    { intros s' o x' r' Hs' Hp.
      apply (push_shorter _ _ _ _ _ Hp). intros x2 r2 H2.
      pose proof (IH s' x2 r2 Hs' H2). lia. }
    destruct (c =? 34).
    { injection H as _ <-. lia. }
    destruct (c =? 92).
    2:{ destruct (c <? 32); [discriminate|].
        pose proof (Step s c x r ltac:(lia) H). lia. }
    destruct s as [|e r1]; [discriminate|]. cbn [length] in *.
    destruct (e =? 117).
    2:{ destruct (simple_escape e); [|discriminate].
        pose proof (Step r1 _ x r ltac:(lia) H). lia. }
    destruct r1 as [|a [|b [|c1 [|d r2]]]]; try discriminate.
    cbn [length] in *.
    destruct (hex4 a b c1 d) as [u|]; [|discriminate].
    assert (Plain : push u (scanstring r2) = Some (x, r) ->
                    (length r < S (S (S (S (S (S (length r2)))))))%nat).
    { intros Hp. pose proof (Step r2 u x r ltac:(lia) Hp). lia. }
    destruct (is_high u); [|now apply Plain].
    destruct r2 as [|b1 [|u1 [|a2 [|b2 [|c2 [|d2 r3]]]]]];
      try (now apply Plain).
    destruct ((b1 =? 92) && (u1 =? 117)); [|now apply Plain].
    destruct (hex4 a2 b2 c2 d2) as [u2|]; [|discriminate].
    destruct (is_low u2); [|now apply Plain].
    cbn [length] in *.
    pose proof (Step r3 _ x r ltac:(lia) H). lia.
Qed.

Lemma scanstring_shorter (s x r : str) :
  scanstring s = Some (x, r) -> (length r < length s)%nat.
Proof. apply (scanstring_shorter_aux (length s)). lia. Qed.

Lemma take_digits_length (s : str) :
  (length (snd (take_digits s)) <= length s)%nat.
Proof.
  induction s as [|c s IH]; simpl; [lia|].
  destruct (is_digit c); [|simpl; lia].
  destruct (take_digits s) as [ds rest]. simpl in *. lia.
Qed.

Lemma int_part_shorter (s : str) (ds : list N) (r : str) :
  int_part s = Some (ds, r) -> (length r < length s)%nat.
Proof.
  unfold int_part. destruct s as [|c s]; [discriminate|].
  destruct (c =? 48); [intros H; injection H as _ <-; simpl; lia|].
  destruct (is_digit c) eqn:D; [|discriminate].
  intros H. injection H as H. cbn [take_digits] in H. rewrite D in H.
  pose proof (take_digits_length s) as L.
  destruct (take_digits s) as [ds' rest]. injection H as _ <-.
  simpl in *. lia.
Qed.

Lemma frac_part_length (s : str) :
  (length (snd (frac_part s)) <= length s)%nat.
Proof.
  unfold frac_part. destruct s as [|c s]; [simpl; lia|].
  destruct (c =? 46); [|simpl; lia].
  pose proof (take_digits_length s) as L.
  destruct (take_digits s) as [[|d ds] rest]; simpl in *; lia.
Qed.

Lemma exp_part_length (s : str) :
  (length (snd (exp_part s)) <= length s)%nat.
Proof.
  unfold exp_part. destruct s as [|c s]; [simpl; lia|].
  destruct ((c =? 101) || (c =? 69)); [|simpl; lia].
  destruct s as [|sg r'].
  - simpl. lia.
  - destruct (sg =? 45).
    + pose proof (take_digits_length r') as L.
      destruct (take_digits r') as [[|d ds] rest]; simpl in *; lia.
    + destruct (sg =? 43).
      * pose proof (take_digits_length r') as L.
        destruct (take_digits r') as [[|d ds] rest]; simpl in *; lia.
      * pose proof (take_digits_length (sg :: r')) as L.
        destruct (take_digits (sg :: r')) as [[|d ds] rest]; simpl in *; lia.
Qed.

Lemma match_number_shorter (s : str) (v : json) (r : str) :
  match_number s = Some (v, r) -> (length r < length s)%nat.
Proof.
  unfold match_number.
  set (s1 := snd match s with
                 | c :: r0 => if c =? 45 then (true, r0) else (false, s)
                 | [] => (false, s)
                 end).
  assert (L1 : (length s1 <= length s)%nat).
  { subst s1. destruct s as [|c r0]; [simpl; lia|].
    destruct (c =? 45); simpl; lia. }
  destruct (match s with
            | c :: r0 => if c =? 45 then (true, r0) else (false, s)
            | [] => (false, s)
            end) as [neg s1'] eqn:E.
  simpl in s1. subst s1.
  destruct (int_part s1') as [[ids s2]|] eqn:I; [|discriminate].
  apply int_part_shorter in I.
  pose proof (frac_part_length s2) as F.
  destruct (frac_part s2) as [fds s3].
  pose proof (exp_part_length s3) as X.
  destruct (exp_part s3) as [ex s4]. simpl in *.
  intros H.
  assert (r = s4).
  { destruct fds; destruct ex; injection H as _ <-; reflexivity. }
  subst r. lia.
Qed.

Lemma startswith_skipn_shorter (p s : str) :
  p <> [] -> startswith p s = true ->
  (length (skipn (length p) s) < length s)%nat.
Proof.
  intros Hp H. apply startswith_iff in H as [r ->].
  rewrite skipn_app, skipn_all, Nat.sub_diag, !length_app. simpl.
  destruct p; [contradiction | simpl; lia].
Qed.

(** What the three scanning functions return is shorter than what they
    were given. *)
Lemma scan_shorter (f : nat) :
  (forall s v r, scan_once f s = POk v r -> (length r < length s)%nat)
  /\ (forall s acc v r,
         array_loop f s acc = POk v r -> (length r < length s)%nat)
  /\ (forall s acc v r,
         object_loop f s acc = POk v r -> (length r < length s)%nat).
Proof.
  induction f as [|f [IHs [IHa IHo]]];
    [repeat split; intros; discriminate|].
  split; [|split].
  - intros s v r H. cbn [scan_once] in H.
    destruct s as [|c s']; [discriminate|]. cbn [length].
    destruct (c =? 34).
    { destruct (scanstring s') as [[x r']|] eqn:E; [|discriminate].
      injection H as _ <-. apply scanstring_shorter in E. lia. }
    destruct (c =? 123).
    { pose proof (skip_ws_length s') as L.
      destruct (skip_ws s') as [|c' r']; [discriminate|].
      destruct (c' =? 125).
      - injection H as _ <-. simpl in L. lia.
      - apply IHo in H. lia. }
    destruct (c =? 91).
    { pose proof (skip_ws_length s') as L.
      destruct (skip_ws s') as [|c' r']; [discriminate|].
      destruct (c' =? 93).
      - injection H as _ <-. simpl in L. lia.
      - apply IHa in H. lia. }
    repeat match type of H with
           | (if startswith ?p ?t then _ else _) = _ =>
               let E := fresh "E" in
               destruct (startswith p t) eqn:E;
               [ injection H as _ <-;
                 apply (startswith_skipn_shorter p t) in E;
                 [exact E | discriminate]
               | ]
           end.
    destruct (match_number (c :: s')) as [[v' r']|] eqn:Em; [|discriminate].
    injection H as _ <-. apply match_number_shorter in Em. exact Em.
  - intros s acc v r H. cbn [array_loop] in H.
    destruct (scan_once f s) as [v1 s1| |] eqn:E; try discriminate.
    apply IHs in E. pose proof (skip_ws_length s1) as L.
    destruct (skip_ws s1) as [|c r1]; [discriminate|].
    destruct (c =? 93).
    + injection H as _ <-. simpl in L. lia.
    + destruct (c =? 44); [|discriminate].
      apply IHa in H. pose proof (skip_ws_length r1). simpl in L. lia.
  - intros s acc v r H. cbn [object_loop] in H.
    destruct s as [|q r0]; [discriminate|]. cbn [length].
    destruct (q =? 34); [|discriminate].
    destruct (scanstring r0) as [[key s1]|] eqn:E; [|discriminate].
    apply scanstring_shorter in E. pose proof (skip_ws_length s1) as L1.
    destruct (skip_ws s1) as [|c r1]; [discriminate|].
    destruct (c =? 58); [|discriminate].
    destruct (scan_once f (skip_ws r1)) as [v1 s2| |] eqn:E2;
      try discriminate.
    apply IHs in E2. pose proof (skip_ws_length r1) as L2.
    pose proof (skip_ws_length s2) as L3.
    destruct (skip_ws s2) as [|c2 r2]; [discriminate|].
    simpl in L1, L3.
    destruct (c2 =? 125).
    + injection H as _ <-. lia.
    + destruct (c2 =? 44); [|discriminate].
      apply IHo in H. pose proof (skip_ws_length r2). lia.
Qed.

(** With twice the length of the text and one more, no scan stops for want
    of fuel. *)
Lemma scan_fuel (f : nat) :
  (forall s, (2 * length s + 1 <= f)%nat -> scan_once f s <> PFuel)
  /\ (forall s acc, (2 * length s + 2 <= f)%nat ->
                    array_loop f s acc <> PFuel)
  /\ (forall s acc, (2 * length s <= f)%nat -> s <> [] ->
                    object_loop f s acc <> PFuel).
Proof.
  induction f as [|f [IHs [IHa IHo]]].
  - repeat split; intros; try lia.
    destruct s; [contradiction | simpl in *; lia].
  - split; [|split].
    + intros s Hf. cbn [scan_once].
      destruct s as [|c s']; [discriminate|]. cbn [length] in Hf.
      destruct (c =? 34); [destruct (scanstring s') as [[? ?]|]; discriminate|].
      destruct (c =? 123).
      { pose proof (skip_ws_length s') as L.
        destruct (skip_ws s') as [|c' r']; [discriminate|].
        destruct (c' =? 125); [discriminate|].
        apply IHo; [simpl in *; lia | discriminate]. }
      destruct (c =? 91).
      { pose proof (skip_ws_length s') as L.
        destruct (skip_ws s') as [|c' r']; [discriminate|].
        destruct (c' =? 93); [discriminate|].
        apply IHa. simpl in *. lia. }
      repeat match goal with
             | |- (if ?b then _ else _) <> _ => destruct b; [discriminate|]
             end.
      destruct (match_number (c :: s')) as [[? ?]|]; discriminate.
    + intros s acc Hf. cbn [array_loop].
      pose proof (IHs s ltac:(lia)) as Hs.
      destruct (scan_once f s) as [v1 s1| |] eqn:E;
        [|discriminate|contradiction].
      apply (proj1 (scan_shorter f)) in E.
      pose proof (skip_ws_length s1) as L.
      destruct (skip_ws s1) as [|c r1]; [discriminate|].
      destruct (c =? 93); [discriminate|].
      destruct (c =? 44); [|discriminate].
      apply IHa. pose proof (skip_ws_length r1). simpl in L. lia.
    + intros s acc Hf Hne. cbn [object_loop].
      destruct s as [|q r0]; [contradiction|]. cbn [length] in Hf.
      destruct (q =? 34); [|discriminate].
      destruct (scanstring r0) as [[key s1]|] eqn:E; [|discriminate].
      apply scanstring_shorter in E. pose proof (skip_ws_length s1) as L1.
      destruct (skip_ws s1) as [|c r1]; [discriminate|].
      destruct (c =? 58); [|discriminate].
      pose proof (skip_ws_length r1) as L2. simpl in L1.
      pose proof (IHs (skip_ws r1) ltac:(lia)) as Hs.
      destruct (scan_once f (skip_ws r1)) as [v1 s2| |] eqn:E2;
        [|discriminate|contradiction].
      apply (proj1 (scan_shorter f)) in E2.
      pose proof (skip_ws_length s2) as L3.
      destruct (skip_ws s2) as [|c2 r2] eqn:E3; [discriminate|].
      simpl in L3.
      destruct (c2 =? 125); [discriminate|].
      destruct (c2 =? 44); [|discriminate].
      pose proof (skip_ws_length r2) as L4.
      destruct (skip_ws r2) as [|c3 r3] eqn:E4.
      * destruct f; [simpl in *; lia | reflexivity || discriminate].
      * apply IHo; [simpl in *; lia | discriminate].
Qed.

(** [json_loads] never answers for want of fuel: when it gives no value,
    the scanner rejected the text. *)
Lemma json_loads_fuel (s : str) :
  scan_once (2 * length s + 1) (skip_ws s) <> PFuel.
Proof.
  apply (proj1 (scan_fuel (2 * length s + 1))).
  pose proof (skip_ws_length s). lia.
Qed.

End Fuel.

(** ** Request building *)

Section Requests.
Local Open Scope N_scope.

Lemma set_if_truthy_other (d : dict) (k k' : str) (o : option str) :
  k <> k' -> dict_get (Http.set_if_truthy d k o) k' = dict_get d k'.
Proof.
  intros H. destruct o as [[|c s]|]; simpl; auto using dict_get_set_other.
Qed.

Lemma payload_messages (self : Http.CopilotClient) (messages : messages_arg)
  (model vendor sp : option str) :
  exists d,
    Http._build_payload self messages model vendor sp = JObject d /\
    dict_get d Http.K_MESSAGES =
      Some (JArray
              match messages with
              | Prompt s => [Http.message_dict Http.USER s]
              | Messages l =>
                  map (fun m => match m with
                                | MsgObj o => Http.message_dict (role o) (content o)
                                | MsgDict d => JObject d
                                end) l
              end).
Proof.
  unfold Http._build_payload. eexists. split; [reflexivity|].
  rewrite !set_if_truthy_other by (vm_compute; discriminate).
  reflexivity.
Qed.

End Requests.

(** C7: a prompt string is sent as the one-element message list that holds
    it as a user message.  For every prompt [s], [chat], [chat_full] and
    [chat_stream] of the HTTP client, given [s], equal what they are given
    the list of the single [ChatMessage] with role [user] and content [s]
    (or of the dict of the same shape), request log included; the same holds
    for the gRPC client and the list of the single [ChatMessage]. *)
Theorem prompt_is_one_user_message (s : str) :
  let one := Messages [MsgObj {| role := Http.USER; content := s |}] in
  let one_dict :=
    Messages [MsgDict [(Http.K_ROLE, JString Http.USER);
                       (Http.K_CONTENT, JString s)]] in
  (forall urlopen self model vendor sp log,
      Http._build_payload self (Prompt s) model vendor sp
        = Http._build_payload self one model vendor sp
      /\ Http.chat urlopen self (Prompt s) model vendor sp log
         = Http.chat urlopen self one model vendor sp log
      /\ Http.chat_full urlopen self (Prompt s) model vendor sp log
         = Http.chat_full urlopen self one model vendor sp log
      /\ Http.chat_stream self (Prompt s) model vendor sp
         = Http.chat_stream self one model vendor sp
      /\ Http.chat urlopen self (Prompt s) model vendor sp log
         = Http.chat urlopen self one_dict model vendor sp log
      /\ Http.chat_full urlopen self (Prompt s) model vendor sp log
         = Http.chat_full urlopen self one_dict model vendor sp log
      /\ Http.chat_stream self (Prompt s) model vendor sp
         = Http.chat_stream self one_dict model vendor sp)
  /\
  (forall Chat ChatStream self model vendor sp log,
      Grpc._build_request self (Prompt s) model vendor sp
        = Grpc._build_request self one model vendor sp
      /\ Grpc.chat Chat self (Prompt s) model vendor sp log
         = Grpc.chat Chat self one model vendor sp log
      /\ Grpc.chat_full Chat self (Prompt s) model vendor sp log
         = Grpc.chat_full Chat self one model vendor sp log
      /\ Grpc.chat_stream ChatStream self (Prompt s) model vendor sp
         = Grpc.chat_stream ChatStream self one model vendor sp).
Proof.
  split; intros; repeat split; reflexivity.
Qed.

(** In the gRPC client the list holds [ChatMessage] objects: a dict has no
    attribute [role], and no call is made. *)
Lemma grpc_dict_message_is_refused
  (Chat : Grpc.ChatRequest -> result Grpc.ChatReply)
  (self : Grpc.CopilotGrpcClient) (d : dict) (rest : list message_item)
  (model vendor sp : option str) (log : list Grpc.rpc) :
  Grpc.chat Chat self (Messages (MsgDict d :: rest)) model vendor sp log
  = (inl AttributeError, log).
Proof. reflexivity. Qed.

(** C1, as the code has it: an empty message list is not rejected by the
    client.  For a base URL that the request constructor takes, [chat] and
    [chat_full] of the HTTP client hand one request to [urlopen]: a POST to
    [/chat] with the timeout of 300 seconds whose body is the payload built
    for the empty list and holds the empty list under [messages].  Each
    returns what that exchange gives: [CopilotClientError] when [urlopen]
    raises [HTTPError] or [URLError], the decoding error or
    [AttributeError] when the reply cannot be read, and otherwise the
    content, or the id, the model and the content, of the reply.  The gRPC
    client calls [Chat] once with a request without messages and returns
    the content of the reply, or the reply as a [ChatResponse]; it raises
    only what the call raises. *)
Theorem empty_messages_are_sent :
  (forall urlopen self model vendor sp log,
      Http.plain_url (Http.base_url self ++ lit "/chat") = true ->
      exists d,
        let req :=
          {| Http.method := lit "POST";
             Http.url := Http.base_url self ++ lit "/chat";
             Http.headers := Http._headers self;
             Http.data := Some (JObject d);
             Http.timeout := 300 |} in
        Http._build_payload self (Messages []) model vendor sp = JObject d
        /\ dict_get d Http.K_MESSAGES = Some (JArray [])
        /\ snd (Http.chat urlopen self (Messages []) model vendor sp log)
           = log ++ [req]
        /\ snd (Http.chat_full urlopen self (Messages []) model vendor sp log)
           = log ++ [req]
        /\ fst (Http.chat urlopen self (Messages []) model vendor sp log)
           = match urlopen req with
             | Http.Response chunks =>
                 match Http.read_json chunks with
                 | inr data => py_get data Http.K_CONTENT (JString [])
                 | inl e => inl e
                 end
             | Http.HTTPError code body =>
                 inl (CopilotClientError
                        (JString (Http.http_error_message code body)))
             | Http.URLError reason =>
                 inl (CopilotClientError
                        (JString (Http.cannot_connect_message
                                    (Http.base_url self) reason)))
             end
        /\ fst (Http.chat_full urlopen self (Messages []) model vendor sp log)
           = match urlopen req with
             | Http.Response chunks =>
                 match Http.read_json chunks with
                 | inr (JObject reply) =>
                     inr {| id := dict_get_default reply (lit "id") (JInt 0);
                            model :=
                              dict_get_default reply (lit "model")
                                (JString []);
                            response_content :=
                              dict_get_default reply (lit "content")
                                (JString []) |}
                 | inr _ => inl AttributeError
                 | inl e => inl e
                 end
             | Http.HTTPError code body =>
                 inl (CopilotClientError
                        (JString (Http.http_error_message code body)))
             | Http.URLError reason =>
                 inl (CopilotClientError
                        (JString (Http.cannot_connect_message
                                    (Http.base_url self) reason)))
             end)
  /\
  (forall Chat self model vendor sp log,
      exists req,
        Grpc.messages req = []
        /\ Grpc.chat Chat self (Messages []) model vendor sp log
           = (match Chat req with
              | inr reply => inr (Grpc.reply_content reply)
              | inl e => inl e
              end, log ++ [Grpc.CallChat req])
        /\ Grpc.chat_full Chat self (Messages []) model vendor sp log
           = (match Chat req with
              | inr reply =>
                  inr {| id := JInt (Grpc.reply_id reply);
                         model := JString (Grpc.reply_model reply);
                         response_content :=
                           JString (Grpc.reply_content reply) |}
              | inl e => inl e
              end, log ++ [Grpc.CallChat req])).
Proof.
  split.
  - intros urlopen self model vendor sp log _.
    destruct (payload_messages self (Messages []) model vendor sp)
      as [d [Hp Hd]].
    exists d. cbv zeta.
    unfold Http.chat, Http.chat_full, Http._post, Http.bind, Http.exchange,
      Http.lift.
    rewrite Hp.
    split; [reflexivity|]. split; [exact Hd|].
    split; [|split; [|split]].
    + destruct (urlopen _) as [chunks|code body|reason]; try reflexivity.
      destruct (Http.read_json chunks); reflexivity.
    + destruct (urlopen _) as [chunks|code body|reason]; try reflexivity.
      destruct (Http.read_json chunks); reflexivity.
    + destruct (urlopen _) as [chunks|code body|reason]; try reflexivity.
      destruct (Http.read_json chunks); reflexivity.
    + destruct (urlopen _) as [chunks|code body|reason]; try reflexivity.
      destruct (Http.read_json chunks) as [e|data]; [reflexivity|].
      destruct data; reflexivity.
  - intros Chat self model vendor sp log.
    exists {| Grpc.messages := [];
              Grpc.req_model := Grpc.por_str model (Grpc.grpc_default_model self);
              Grpc.req_vendor := Grpc.por_str vendor (Grpc.grpc_default_vendor self);
              Grpc.req_system_prompt := Grpc.por_str sp [] |}.
    unfold Grpc.chat, Grpc.chat_full, Grpc.call_chat. simpl.
    split; [reflexivity|]. split.
    + destruct (Chat _); reflexivity.
    + destruct (Chat _); reflexivity.
Qed.

(** C1, witness: the client for [http://127.0.0.1:3741] and the empty list:
    one POST to [/chat] with the empty list in its body. *)
Lemma empty_messages_are_sent_witness :
  Http.plain_url (lit "http://127.0.0.1:3741/chat") = true
  /\ snd (Http.chat Examples.accepting_server Examples.demo_client
            (Messages []) None None None [])
     = [Examples.chat_request]
  /\ snd (Http.chat_full Examples.rejecting_server Examples.demo_client
            (Messages []) None None None [])
     = [Examples.chat_request].
Proof.
  split; [vm_compute; reflexivity|]. split.
  - destruct (proj1 empty_messages_are_sent Examples.accepting_server
                Examples.demo_client None None None [] eq_refl)
      as [d [Hp [_ [Hs _]]]].
    rewrite Hs. vm_compute in Hp. injection Hp as <-. reflexivity.
  - destruct (proj1 empty_messages_are_sent Examples.rejecting_server
                Examples.demo_client None None None [] eq_refl)
      as [d [Hp [_ [_ [Hs _]]]]].
    rewrite Hs. vm_compute in Hp. injection Hp as <-. reflexivity.
Defined.

(** C1, counterexample: with a server that answers, [chat] on the empty
    list returns the answer after one request with an empty [messages]; with
    a server that rejects, the error is the translated HTTP status, again
    after the request.  The gRPC client calls the stub as well. *)
Lemma empty_messages_reach_the_network :
  Http.chat Examples.accepting_server Examples.demo_client (Messages [])
    None None None []
    = (inr (JString (lit "ok")), [Examples.chat_request])
  /\ Http.chat Examples.rejecting_server Examples.demo_client (Messages [])
       None None None []
     = (inl (CopilotClientError
               (JString (Examples.q
                  "HTTP 400: {'error': 'messages must not be empty'}"))),
        [Examples.chat_request])
  /\ Grpc.chat Examples.grpc_chat_ok Examples.demo_grpc_client (Messages [])
       None None None []
     = (inr (lit "ok"),
        [Grpc.CallChat {| Grpc.messages := []; Grpc.req_model := [];
                          Grpc.req_vendor := [];
                          Grpc.req_system_prompt := [] |}]).
Proof. repeat split; vm_compute; reflexivity. Qed.

Section Payload.
Local Open Scope N_scope.

Lemma por_chosen (arg default : option str) :
  match por arg default with
  | Some (c :: s) => Some (c :: s)
  | _ => None
  end = Spec.chosen arg default.
Proof. destruct arg as [[|c s]|], default as [[|c' s']|]; reflexivity. Qed.

Lemma set_if_truthy_chosen (d : dict) (k : str) (arg default : option str) :
  Http.set_if_truthy d k (por arg default)
  = match Spec.chosen arg default with
    | Some x => dict_set d k (JString x)
    | None => d
    end.
Proof. destruct arg as [[|c s]|], default as [[|c' s']|]; reflexivity. Qed.

Lemma set_if_truthy_alone (d : dict) (k : str) (arg : option str) :
  Http.set_if_truthy d k arg
  = match Spec.chosen arg None with
    | Some x => dict_set d k (JString x)
    | None => d
    end.
Proof. destruct arg as [[|c s]|]; reflexivity. Qed.

End Payload.

(** C6, as the code has it: the request body is an object whose keys are
    [messages] and then [model], [vendor], [systemPrompt], each present
    exactly when a non-empty value is available for it; the value of
    [model] and [vendor] is the per-call argument when that is a non-empty
    string and the client's default otherwise, and an empty string counts
    as no value, for the per-call argument and for the default alike. *)
Theorem payload_fields (self : Http.CopilotClient) (messages : messages_arg)
  (model vendor system_prompt : option str) :
  let m := Spec.chosen model (Http.client_default_model self) in
  let v := Spec.chosen vendor (Http.client_default_vendor self) in
  let sp := Spec.chosen system_prompt None in
  exists d,
    Http._build_payload self messages model vendor system_prompt = JObject d
    /\ map fst d = Spec.body_keys m v sp
    /\ dict_get d Http.K_MESSAGES =
         Some (JArray
                 match messages with
                 | Prompt s => [Http.message_dict Http.USER s]
                 | Messages l =>
                     map (fun i => match i with
                                   | MsgObj o =>
                                       Http.message_dict (role o) (content o)
                                   | MsgDict d => JObject d
                                   end) l
                 end)
    /\ dict_get d Http.K_MODEL = option_map JString m
    /\ dict_get d Http.K_VENDOR = option_map JString v
    /\ dict_get d Http.K_SYSTEM_PROMPT = option_map JString sp.
Proof.
  intros m v sp.
  destruct (payload_messages self messages model vendor system_prompt)
    as [d [Hp Hd]].
  exists d. split; [exact Hp|]. split; [|split; [exact Hd|]];
    unfold Http._build_payload in Hp; injection Hp as <-; clear Hd;
    rewrite (set_if_truthy_alone _ _ system_prompt);
    rewrite !set_if_truthy_chosen; fold m v sp;
    generalize (JArray
                  match messages with
                  | Prompt s => [Http.message_dict Http.USER s]
                  | Messages l =>
                      map (fun i => match i with
                                    | MsgObj o =>
                                        Http.message_dict (role o) (content o)
                                    | MsgDict d => JObject d
                                    end) l
                  end) as ms; intros ms;
    destruct m, v, sp; repeat split; reflexivity.
Qed.

(** C6, counterexample: an empty string given as the [model] argument is a
    value that is set, yet it does not take precedence over the client's
    default, and without a default the field is left out. *)
Lemma empty_model_argument_is_dropped :
  Spec.claimed_choice (Some [])
    (Http.client_default_model Examples.client_with_default) = Some []
  /\ Http._build_payload Examples.client_with_default (Prompt (lit "hi"))
       (Some []) None None
     = JObject [(Http.K_MESSAGES,
                 JArray [Http.message_dict Http.USER (lit "hi")]);
                (Http.K_MODEL, JString (lit "gpt-4o"))]
  /\ Spec.claimed_choice (Some [])
       (Http.client_default_model Examples.demo_client) = Some []
  /\ Http._build_payload Examples.demo_client (Prompt (lit "hi"))
       (Some []) None None
     = JObject [(Http.K_MESSAGES,
                 JArray [Http.message_dict Http.USER (lit "hi")])].
Proof. repeat split; vm_compute; reflexivity. Qed.

(** ** [status] *)

(** C5, as the code has it: for a base URL that the request constructor
    takes, [status] hands one GET of [/status] to [urlopen].  When [urlopen]
    raises [URLError], the server being out of reach, [status] fails with a
    [CopilotClientError] whose message names the base URL; when it raises
    [HTTPError], with a [CopilotClientError] that carries the code and the
    body.  A reply that is not UTF-8 or not JSON raises the decoding error,
    a JSON value that is no object raises [AttributeError], and every JSON
    object is accepted: a field it lacks reads as the empty text or as
    zero. *)
Theorem status_outcomes (urlopen : Http.Request -> Http.urlopen_result)
  (self : Http.CopilotClient) (log : list Http.Request) :
  let req := Spec.status_request_of self in
  let r := Http.status urlopen self log in
  (Http.plain_url (Http.url req) = true -> snd r = log ++ [req])
  /\ (forall reason, urlopen req = Http.URLError reason ->
        exists pre post,
          fst r = inl (CopilotClientError
                         (JString (pre ++ Http.base_url self ++ post))))
  /\ (forall code body, urlopen req = Http.HTTPError code body ->
        fst r = inl (CopilotClientError
                       (JString (Http.http_error_message code body))))
  /\ (forall chunks, urlopen req = Http.Response chunks ->
        match Http.read_json chunks with
        | inl e => fst r = inl e
        | inr (JObject d) =>
            fst r = inr {| status := dict_get_default d (lit "status") (JString []);
                           port := dict_get_default d (lit "port") (JInt 0);
                           default_model :=
                             dict_get_default d (lit "defaultModel") (JString []);
                           requests_served :=
                             dict_get_default d (lit "requestsServed") (JInt 0);
                           version :=
                             dict_get_default d (lit "version") (JString []) |}
        | inr _ => fst r = inl AttributeError
        end).
Proof.
  intros req r. subst r.
  unfold Http.status, Http._get, Http.bind, Http.exchange, Http.lift.
  fold (Spec.status_request_of self). fold req.
  destruct (urlopen req) as [chunks|code body|reason] eqn:E; simpl.
  - destruct (Http.read_json chunks) as [e|v] eqn:R; simpl;
      (split; [intros _; reflexivity|]); repeat split; try discriminate;
      intros chunks' H; injection H as <-; rewrite R;
      try destruct v; reflexivity.
  - split; [intros _; reflexivity|]. repeat split; try discriminate.
    intros code' body' H; injection H as <- <-. reflexivity.
  - split; [intros _; reflexivity|]. repeat split; try discriminate.
    intros reason' H; injection H as <-.
    eexists _, _. unfold Http.cannot_connect_message. reflexivity.
Qed.

(** C5, witness: the client for [http://127.0.0.1:3741] against the
    unreachable server and the rejecting one. *)
Lemma status_outcomes_witness :
  snd (Http.status Examples.unreachable_server Examples.demo_client [])
  = [Examples.status_request]
  /\ (exists pre post,
      fst (Http.status Examples.unreachable_server Examples.demo_client [])
      = inl (CopilotClientError
               (JString (pre ++ lit "http://127.0.0.1:3741" ++ post))))
  /\ fst (Http.status Examples.rejecting_server Examples.demo_client [])
     = inl (CopilotClientError
              (JString (Examples.q
                 "HTTP 400: {'error': 'messages must not be empty'}"))).
Proof.
  split; [|split].
  - exact (proj1 (status_outcomes Examples.unreachable_server
                    Examples.demo_client [])
             ltac:(vm_compute; reflexivity)).
  - exact (proj1 (proj2 (status_outcomes Examples.unreachable_server
                           Examples.demo_client []))
             (lit "[Errno 111] Connection refused") eq_refl).
  - exact (proj1 (proj2 (proj2 (status_outcomes Examples.rejecting_server
                                  Examples.demo_client [])))
             400%Z _ eq_refl).
Defined.

(** C5, counterexample: the reply [{}] is not the status shape, and
    [status] returns a [StatusResponse] of defaults for it. *)
Lemma bare_status_reply_is_accepted :
  Spec.well_formed_status (Examples.bq "{}") = false
  /\ Http.status Examples.bare_server Examples.demo_client []
     = (inr {| status := JString []; port := JInt 0;
               default_model := JString []; requests_served := JInt 0;
               version := JString [] |},
        [Examples.status_request]).
Proof. split; vm_compute; reflexivity. Qed.

(** ** The gRPC stream loop *)

Lemma stream_loop_nonempty (chunks : list Grpc.ChatChunk)
  (failure : option str) :
  Forall (fun y : str => y <> []) (fst (Grpc.stream_loop chunks failure)).
Proof.
  induction chunks as [|c rest IH]; simpl.
  - constructor.
  - destruct (Grpc.chunk_error c); [|constructor].
    destruct (Grpc.chunk_done c); [constructor|].
    destruct (Grpc.chunk_content c) as [|x y] eqn:E; [exact IH|].
    destruct (Grpc.stream_loop rest failure) as [ys o]. simpl in *.
    constructor; [discriminate | exact IH].
Qed.

(** C9: every fragment the gRPC client's [chat_stream] yields is a
    non-empty string; a stream message with an empty content, no error and
    no done marker is skipped; the HTTP client yields the empty string for
    the event whose content is the empty string. *)
Theorem empty_fragments_differ :
  (forall ChatStream self messages model vendor sp,
      Forall (fun y : str => y <> [])
        (fst (fst (Grpc.chat_stream ChatStream self messages model vendor sp))))
  /\ (forall rest failure,
        Grpc.stream_loop (Examples.empty_chunk :: rest) failure
        = Grpc.stream_loop rest failure)
  /\ Http.handle_line (Examples.q "data: {'content':''}")
     = Http.AYield (JString [])
  /\ Http.stream_all [Examples.line "data: {'content':''}" ++ [Byte.x0a]]
     = ([JString []], Returned)
  /\ fst (Http.gen_next
            (Examples.streaming_server
               [Examples.line "data: {'content':''}" ++ [Byte.x0a]])
            (Http.chat_stream Examples.demo_client (Prompt (lit "hi"))
               None None None) [])
     = (Http.Yielded (JString []),
        Http.Suspended [] [] {| Http.unread := []; Http.closes := 0 |}).
Proof.
  split; [|split; [|split; [|split]]].
  - intros. unfold Grpc.chat_stream.
    destruct (Grpc._build_request _ _ _ _ _); simpl.
    + constructor.
    + apply stream_loop_nonempty.
  - reflexivity.
  - vm_compute; reflexivity.
  - vm_compute; reflexivity.
  - vm_compute; reflexivity.
Qed.

(** ** The generator protocol *)

Section Protocol.

Variable urlopen : Http.Request -> Http.urlopen_result.

Lemma of_step_released (s : Http.step) :
  Spec.released_once (snd (Http.of_step s 0)).
Proof. destruct s; reflexivity. Qed.

Lemma gen_next_released (g : Http.generator) (log : list Http.Request) :
  Spec.released_once g ->
  Spec.released_once (snd (fst (Http.gen_next urlopen g log))).
Proof.
  destruct g as [self path payload|lines buffer resp|[resp|]]; simpl;
    try contradiction.
  - intros H. rewrite H. apply of_step_released.
  - auto.
Qed.

Lemma gen_close_released (g : Http.generator) :
  Spec.released_once g -> Spec.released_once (Http.gen_close g).
Proof.
  destruct g as [self path payload|lines buffer resp|[resp|]]; simpl;
    try contradiction; auto.
Qed.

Lemma act_released (a : Http.consumer_action)
  (st : Http.generator * list Http.Request) :
  Spec.released_once (fst st) ->
  Spec.released_once (fst (Http.act urlopen a st)).
Proof.
  destruct st as [g log], a; simpl.
  - apply gen_next_released.
  - apply gen_close_released.
Qed.

Lemma fold_released (acts : list Http.consumer_action)
  (st : Http.generator * list Http.Request) :
  Spec.released_once (fst st) ->
  Spec.released_once
    (fst (fold_left (fun st a => Http.act urlopen a st) acts st)).
Proof.
  revert st; induction acts as [|a acts IH]; intros st H; simpl; auto.
  apply IH, act_released, H.
Qed.

Lemma act_holds_nothing (a : Http.consumer_action)
  (st : Http.generator * list Http.Request) :
  Spec.holds_nothing (fst st) ->
  Spec.holds_nothing (fst (Http.act urlopen a st))
  \/ Spec.released_once (fst (Http.act urlopen a st)).
Proof.
  destruct st as [g log], a; simpl;
    destruct g as [self path payload|lines buffer resp|[resp|]]; simpl;
    try contradiction; auto.
  intros _. destruct (urlopen _); simpl; auto.
  right. apply of_step_released.
Qed.

Lemma fold_holds_nothing (acts : list Http.consumer_action)
  (st : Http.generator * list Http.Request) :
  Spec.holds_nothing (fst st) ->
  Spec.holds_nothing
    (fst (fold_left (fun st a => Http.act urlopen a st) acts st))
  \/ Spec.released_once
       (fst (fold_left (fun st a => Http.act urlopen a st) acts st)).
Proof.
  revert st; induction acts as [|a acts IH]; intros st H; simpl; auto.
  destruct (act_holds_nothing a st H) as [H'|H'].
  - apply IH, H'.
  - right. apply fold_released, H'.
Qed.

End Protocol.

(** C8: the response of the streaming read loop is closed exactly once on
    every way out.  Whatever the consumer does with the generator, in any
    order and for any response: a generator that obtained a response has
    closed it not at all while it is suspended at the [yield] and exactly
    once when it has finished, be it by a done event, by the end of the
    input, by an exception or by the consumer's [close]; a [close] always
    finishes the generator; and a generator that finished holds no
    response only when it never obtained one. *)
Theorem connection_released_once
  (urlopen : Http.Request -> Http.urlopen_result)
  (self : Http.CopilotClient) (path : str) (payload : json)
  (acts : list Http.consumer_action) :
  let g0 := Http._post_stream self path payload in
  (Spec.holds_nothing (fst (Http.consume urlopen acts g0))
   \/ Spec.released_once (fst (Http.consume urlopen acts g0)))
  /\ Spec.is_finished
       (fst (Http.consume urlopen (acts ++ [Http.DoClose]) g0))
  /\ (forall chunks,
        urlopen (Spec.stream_request_of self path payload)
        = Http.Response chunks ->
        Spec.released_once
          (fst (Http.consume urlopen (Http.DoNext :: acts) g0))).
Proof.
  intros g0. split; [|split].
  - apply fold_holds_nothing. exact I.
  - unfold Http.consume. rewrite fold_left_app. simpl.
    destruct (fst (fold_left _ acts (g0, []))) as [| |]; exact I.
  - intros chunks H. unfold Http.consume. simpl.
    apply fold_released. unfold g0, Http._post_stream. simpl.
    fold (Spec.stream_request_of self path payload). rewrite H.
    apply of_step_released.
Qed.

(** C8, witness: the consumer takes one fragment of the scenario and closes
    the generator. *)
Lemma connection_released_once_witness :
  Spec.released_once
    (fst (Http.consume (Examples.streaming_server Examples.scenario)
            [Http.DoNext; Http.DoClose]
            (Http._post_stream Examples.demo_client (lit "/chat/stream")
               (JObject [])))).
Proof.
  exact (proj2 (proj2 (connection_released_once
                         (Examples.streaming_server Examples.scenario)
                         Examples.demo_client (lit "/chat/stream")
                         (JObject []) [Http.DoClose]))
           Examples.scenario eq_refl).
Defined.

(** ** Splitting at the first separator *)

Section Splitting.
Local Open Scope N_scope.

Lemma startswith_length (p s : str) :
  startswith p s = true -> (length p <= length s)%nat.
Proof.
  intros H. apply startswith_iff in H as [r ->]. rewrite length_app. lia.
Qed.

Lemma startswith_app_long (p s t : str) :
  (length p <= length s)%nat -> startswith p (s ++ t) = startswith p s.
Proof.
  revert s; induction p as [|x p IH]; intros [|y s] H; simpl in *;
    try reflexivity; try lia.
  rewrite IH by lia. reflexivity.
Qed.

Lemma contains_length (sep s : str) :
  contains sep s = true -> (length sep <= length s)%nat.
Proof.
  intros H. apply contains_iff in H as [a [b ->]].
  rewrite !length_app. lia.
Qed.

Lemma split1_contains (sep s : str) :
  contains sep s = true ->
  exists a b, split1 sep s = [a; b] /\ s = a ++ sep ++ b.
Proof.
  induction s as [|c s IH]; simpl; intros H.
  - rewrite orb_false_r in H. rewrite H. exists [], [].
    destruct sep; [auto | discriminate].
  - destruct (startswith sep (c :: s)) eqn:E.
    + exists [], (skipn (length sep) (c :: s)). split; [reflexivity|].
      apply (startswith_skipn _ _ E).
    + simpl in H. destruct (IH H) as [a [b [Hs ->]]].
      rewrite Hs. exists (c :: a), b. auto.
Qed.

Lemma split1_more (sep s t : str) :
  contains sep s = true ->
  split1 sep (s ++ t)
  = match split1 sep s with
    | [a; b] => [a; b ++ t]
    | l => l
    end.
Proof.
  induction s as [|c s IH]; intros H.
  - simpl in H. rewrite orb_false_r in H. destruct sep; [|discriminate].
    destruct t; reflexivity.
  - pose proof (contains_length _ _ H) as Hlen.
    cbn [split1 app]. change (c :: s ++ t) with ((c :: s) ++ t).
    rewrite (startswith_app_long _ _ t Hlen).
    destruct (startswith sep (c :: s)) eqn:E.
    + f_equal. f_equal. rewrite skipn_app.
      replace (length sep - length (c :: s))%nat with 0%nat by lia.
      reflexivity.
    + simpl in H. rewrite E in H. simpl in H. rewrite (IH H).
      destruct (split1_contains _ _ H) as [a [b [Hs _]]]. rewrite Hs.
      reflexivity.
Qed.

Lemma split1_shorter (s a b : str) :
  split1 Http.BLANK_LINE s = [a; b] -> contains Http.BLANK_LINE s = true ->
  (length b < length s)%nat.
Proof.
  intros Hs Hc. destruct (split1_contains _ _ Hc) as [a' [b' [Hs' ->]]].
  rewrite Hs in Hs'. injection Hs' as -> ->.
  rewrite !length_app. simpl. lia.
Qed.

End Splitting.

(** ** The event loop on a whole buffer *)

Section EventLoop.
Local Open Scope N_scope.

Lemma while_events_fuel_any (f1 : nat) :
  forall (f2 : nat) (b : str),
    (length b <= f1)%nat -> (length b <= f2)%nat ->
    Http.while_events_fuel f1 b = Http.while_events_fuel f2 b.
Proof.
  induction f1 as [|f1 IH]; intros f2 b H1 H2.
  - destruct b; [|simpl in H1; lia]. destruct f2; reflexivity.
  - destruct f2 as [|f2].
    + destruct b; [|simpl in H2; lia]. reflexivity.
    + simpl. destruct (contains Http.BLANK_LINE b) eqn:C; [|reflexivity].
      destruct (split1 Http.BLANK_LINE b) as [|e [|b' [|x l]]] eqn:S;
        try reflexivity.
      pose proof (split1_shorter _ _ _ S C) as Hlt.
      rewrite (IH f2 b') by lia. reflexivity.
Qed.

(** The equation of the loop: one round, then the loop again. *)
Lemma while_events_eq (b : str) :
  Http.while_events b
  = if contains Http.BLANK_LINE b then
      match split1 Http.BLANK_LINE b with
      | [event; b'] =>
          match Http.for_lines (split_char 10 event) with
          | (ys, Http.Continue) =>
              let '(ys', e) := Http.while_events b' in (ys ++ ys', e)
          | (ys, Http.Stop o) => (ys, Http.Halt o)
          end
      | _ => ([], Http.Halt (Raised (ValueError [])))
      end
    else ([], Http.More b).
Proof.
  unfold Http.while_events. destruct b as [|c b]; [reflexivity|].
  cbn [length Http.while_events_fuel].
  destruct (contains Http.BLANK_LINE (c :: b)) eqn:C; [|reflexivity].
  destruct (split1 Http.BLANK_LINE (c :: b)) as [|e [|b' [|x l]]] eqn:S;
    try reflexivity.
  pose proof (split1_shorter _ _ _ S C) as Hlt. simpl in Hlt.
  rewrite (while_events_fuel_any (length b) (length b') b') by lia.
  reflexivity.
Qed.

Lemma while_events_app_aux (n : nat) :
  forall b t,
    (length b <= n)%nat ->
    Http.while_events (b ++ t)
    = match Http.while_events b with
      | (ys, Http.More b') =>
          let '(ys', e) := Http.while_events (b' ++ t) in (ys ++ ys', e)
      | (ys, Http.Halt o) => (ys, Http.Halt o)
      end.
Proof.
  induction n as [|n IH]; intros b t Hn.
  - destruct b; [|simpl in Hn; lia]. simpl.
    change (Http.while_events []) with (@nil json, Http.More []).
    simpl. destruct (Http.while_events t); reflexivity.
  - rewrite (while_events_eq b).
    destruct (contains Http.BLANK_LINE b) eqn:C.
    + rewrite (while_events_eq (b ++ t)), (contains_more _ _ t C).
      rewrite (split1_more _ _ t C).
      destruct (split1_contains _ _ C) as [e [b' [S E]]]. rewrite S.
      pose proof (split1_shorter _ _ _ S C) as Hlt.
      destruct (Http.for_lines (split_char 10 e)) as [ys [|o]];
        [|reflexivity].
      rewrite (IH b' t) by lia.
      destruct (Http.while_events b') as [ys1 [b1|o1]].
      * destruct (Http.while_events (b1 ++ t)) as [ys2 e2].
        now rewrite app_assoc.
      * reflexivity.
    + destruct (Http.while_events (b ++ t)); reflexivity.
Qed.

(** More input after the buffer: the events of the buffer first, then the
    loop on what was left and the new input. *)
Lemma while_events_app (b t : str) :
  Http.while_events (b ++ t)
  = match Http.while_events b with
    | (ys, Http.More b') =>
        let '(ys', e) := Http.while_events (b' ++ t) in (ys ++ ys', e)
    | (ys, Http.Halt o) => (ys, Http.Halt o)
    end.
Proof. apply (while_events_app_aux (length b)). lia. Qed.

Lemma while_events_rest_aux (n : nat) :
  forall b ys b',
    (length b <= n)%nat ->
    Http.while_events b = (ys, Http.More b') ->
    contains Http.BLANK_LINE b' = false
    /\ exists consumed, b = consumed ++ b'
                        /\ Http.while_events consumed = (ys, Http.More []).
Proof.
  induction n as [|n IH]; intros b ys b' Hn; rewrite (while_events_eq b).
  - destruct b; [|simpl in Hn; lia]. simpl. intros H; injection H as <- <-.
    split; [reflexivity|]. exists []. split; reflexivity.
  - destruct (contains Http.BLANK_LINE b) eqn:C.
    + destruct (split1_contains _ _ C) as [e [b1 [S E]]]. rewrite S.
      pose proof (split1_shorter _ _ _ S C) as Hlt.
      destruct (Http.for_lines (split_char 10 e)) as [ys0 [|o]] eqn:F;
        [|discriminate].
      destruct (Http.while_events b1) as [ys1 e1] eqn:W.
      intros H; injection H as <- ->.
      destruct (IH b1 ys1 b' ltac:(lia) W) as [Hc [consumed [-> Hw]]].
      split; [exact Hc|].
      exists (e ++ Http.BLANK_LINE ++ consumed). split.
      * rewrite E. now rewrite <- !app_assoc.
      * rewrite while_events_eq.
        assert (C' : contains Http.BLANK_LINE
                       (e ++ Http.BLANK_LINE ++ consumed) = true).
        { apply contains_iff. now exists e, consumed. }
        rewrite C'.
        assert (S' : split1 Http.BLANK_LINE
                       (e ++ Http.BLANK_LINE ++ consumed) = [e; consumed]).
        { assert (C0 : contains Http.BLANK_LINE (e ++ Http.BLANK_LINE) = true).
          { apply contains_iff. exists e, []. now rewrite app_nil_r. }
          pose proof (split1_more _ _ b' C) as M. rewrite S, E in M.
          pose proof (split1_more _ _ consumed C0) as M0.
          pose proof (split1_more _ _ (consumed ++ b') C0) as M1.
          rewrite <- !app_assoc in M0, M1. rewrite <- !app_assoc in M.
          destruct (split1_contains _ _ C0) as [a0 [b0 [S0 E0]]].
          rewrite S0 in M0, M1.
          rewrite <- E in M1. rewrite S in M1.
          injection M1 as -> Hb. rewrite M0. f_equal. f_equal.
          apply (f_equal (@length N)) in Hb. rewrite !length_app in Hb.
          destruct b0; [reflexivity | simpl in Hb; lia]. }
        rewrite S', F, Hw. reflexivity.
    + intros H; injection H as <- <-. split; [exact C|].
      exists []. split; reflexivity.
Qed.

(** What the loop leaves in the buffer holds no blank line, is the end of
    the text, and the fragments are those of the text before it. *)
Lemma while_events_rest (b : str) (ys : list json) (b' : str) :
  Http.while_events b = (ys, Http.More b') ->
  contains Http.BLANK_LINE b' = false
  /\ exists consumed, b = consumed ++ b'
                      /\ Http.while_events consumed = (ys, Http.More []).
Proof. apply (while_events_rest_aux (length b)). lia. Qed.

End EventLoop.

(** ** The read loop and the text as a whole *)

Section ReadLoop.
Local Open Scope N_scope.

Lemma while_events_drained (b : str) :
  contains Http.BLANK_LINE b = false ->
  Http.while_events b = ([], Http.More b).
Proof. intros H. rewrite while_events_eq, H. reflexivity. Qed.

(** Reading chunk by chunk gives what the loop gives on the whole text. *)
Lemma read_loop_whole (chunks : list bytes) :
  forall buffer text,
    Forall (fun c : bytes => c <> []) chunks ->
    Spec.decoded chunks = Some text ->
    contains Http.BLANK_LINE buffer = false ->
    Http.read_loop chunks buffer
    = Spec.at_end_of_input (Http.while_events (buffer ++ text)).
Proof.
  induction chunks as [|c cs IH]; intros buffer text Hne Hd Hb.
  - injection Hd as <-. rewrite app_nil_r, (while_events_drained _ Hb).
    reflexivity.
  - inversion Hne as [|c0 cs0 Hc Hcs]; subst.
    simpl in Hd. destruct c as [|x c']; [congruence|].
    cbn [Http.read_loop].
    destruct (decode (x :: c')) as [t|]; [|discriminate].
    destruct (Spec.decoded cs) as [ts|] eqn:D; [|discriminate].
    injection Hd as <-.
    rewrite app_assoc, (while_events_app (buffer ++ t) ts).
    destruct (Http.while_events (buffer ++ t)) as [ys [b'|o]] eqn:W.
    + destruct (while_events_rest _ _ _ W) as [Hb' _].
      rewrite (IH b' ts Hcs eq_refl Hb').
      destruct (Http.while_events (b' ++ ts)) as [ys' [b2|o2]]; reflexivity.
    + reflexivity.
Qed.

End ReadLoop.

(** ** The loop on a text and the dispatch over its data lines *)

Section Flat.
Local Open Scope N_scope.

Lemma contains_blank_single (c : N) : contains Http.BLANK_LINE [c] = false.
Proof. simpl. now rewrite !andb_false_r. Qed.

Lemma startswith_blank (c d : N) (s : str) :
  startswith Http.BLANK_LINE (c :: d :: s) = (c =? 10) && (d =? 10).
Proof.
  simpl. rewrite andb_true_r, (N.eqb_sym c), (N.eqb_sym d). reflexivity.
Qed.

Lemma events_from_step (current : str) (c d : N) (s : str) :
  Spec.events_from current (c :: d :: s)
  = if (c =? 10) && (d =? 10)
    then rev current :: Spec.events_from [] s
    else Spec.events_from (c :: current) (d :: s).
Proof. reflexivity. Qed.

Lemma contains_step (sep : str) (c : N) (s : str) :
  contains sep (c :: s) = startswith sep (c :: s) || contains sep s.
Proof. reflexivity. Qed.

Lemma split1_step (sep : str) (c : N) (s : str) :
  split1 sep (c :: s)
  = if startswith sep (c :: s) then [[]; skipn (length sep) (c :: s)]
    else match split1 sep s with
         | [a; b] => [c :: a; b]
         | _ => [c :: s]
         end.
Proof. reflexivity. Qed.

Lemma events_from_eq (s : str) :
  forall current,
    Spec.events_from current s
    = if contains Http.BLANK_LINE s then
        match split1 Http.BLANK_LINE s with
        | [e; r] => (rev current ++ e) :: Spec.events_from [] r
        | _ => []
        end
      else [].
Proof.
  induction s as [|c s IH]; intros current; [reflexivity|].
  destruct s as [|d s].
  - rewrite contains_blank_single. reflexivity.
  - rewrite events_from_step, contains_step, split1_step, startswith_blank.
    destruct ((c =? 10) && (d =? 10)) eqn:E.
    + simpl. now rewrite app_nil_r.
    + rewrite (IH (c :: current)). cbn [orb].
      destruct (contains Http.BLANK_LINE (d :: s)) eqn:C; [|reflexivity].
      destruct (split1_contains _ _ C) as [e [r [S _]]]. rewrite S.
      simpl. now rewrite <- app_assoc.
Qed.

Lemma events_eq (text : str) :
  Spec.events text
  = if contains Http.BLANK_LINE text then
      match split1 Http.BLANK_LINE text with
      | [e; r] => e :: Spec.events r
      | _ => []
      end
    else [].
Proof. apply (events_from_eq text []). Qed.

Lemma for_lines_interpret (lines : list str) (rest : list str) :
  Spec.interpret Http.handle_data
    (map (skipn 6) (filter (startswith Http.DATA_PREFIX) lines) ++ rest)
  = match Http.for_lines lines with
    | (ys, Http.Continue) =>
        let '(ys', o) := Spec.interpret Http.handle_data rest in
        (ys ++ ys', o)
    | (ys, Http.Stop o) => (ys, o)
    end.
Proof.
  induction lines as [|l lines IH]; cbn [filter map app Http.for_lines].
  - destruct (Spec.interpret Http.handle_data rest); reflexivity.
  - unfold Http.handle_line.
    destruct (startswith Http.DATA_PREFIX l); [|exact IH].
    cbn [map app Spec.interpret].
    destruct (Http.handle_data (skipn 6 l)); try reflexivity; [|exact IH].
    rewrite IH.
    destruct (Http.for_lines lines) as [ys [|o]]; [|reflexivity].
    destruct (Spec.interpret Http.handle_data rest); reflexivity.
Qed.

Lemma whole_is_flat_aux (n : nat) :
  forall text,
    (length text <= n)%nat ->
    Spec.at_end_of_input (Http.while_events text)
    = Spec.stream_of_text Http.handle_data text.
Proof.
  unfold Spec.stream_of_text, Spec.data_payloads.
  induction n as [|n IH]; intros text Hn;
    rewrite while_events_eq, events_eq.
  - destruct text; [reflexivity | simpl in Hn; lia].
  - destruct (contains Http.BLANK_LINE text) eqn:C; [|reflexivity].
    destruct (split1_contains _ _ C) as [e [r [S E]]]. rewrite S.
    pose proof (split1_shorter _ _ _ S C) as Hlt.
    cbn [flat_map]. unfold Spec.data_of_event at 1.
    rewrite for_lines_interpret, <- (IH r) by lia.
    destruct (Http.for_lines (split_char 10 e)) as [ys [|o]]; [|reflexivity].
    destruct (Http.while_events r) as [ys' [b|o]]; reflexivity.
Qed.

(** The loop on a whole text dispatches on the data lines of its complete
    events, in order. *)
Lemma whole_is_flat (text : str) :
  Spec.at_end_of_input (Http.while_events text)
  = Spec.stream_of_text Http.handle_data text.
Proof. apply (whole_is_flat_aux (length text)). lia. Qed.

Lemma stream_all_flat (chunks : list bytes) (text : str) :
  Forall (fun c : bytes => c <> []) chunks ->
  Spec.decoded chunks = Some text ->
  Http.stream_all chunks = Spec.stream_of_text Http.handle_data text.
Proof.
  intros Hne Hd. unfold Http.stream_all.
  rewrite (read_loop_whole chunks [] text Hne Hd eq_refl).
  apply whole_is_flat.
Qed.

End Flat.

(** C2, as the code has it: for every response whose chunks are not empty
    and decode as UTF-8, whatever the chunk boundaries, the read loop yields
    what dispatching on the [data: ] lines of the complete events of the
    whole text yields, in order.  The dispatch on the remainder of such a
    line: a JSON object whose [done] field is truthy ends the sequence;
    otherwise an object with an [error] key raises [CopilotClientError] with
    its value; otherwise an object with a [content] key yields its value;
    any other object is ignored; a remainder that is not JSON raises the
    decoding error and a JSON value that is no object raises
    [AttributeError].  The three events of the scenario yield [He], [llo]
    and the end. *)
Theorem stream_dispatches_on_data_lines :
  (forall chunks text,
      Forall (fun c : bytes => c <> []) chunks ->
      Spec.decoded chunks = Some text ->
      Http.stream_all chunks = Spec.stream_of_text Http.handle_data text)
  /\ (forall payload d,
        json_loads payload = Some (JObject d) ->
        Http.handle_data payload
        = if truthy_opt (dict_get d Http.K_DONE) then Http.AReturn
          else match dict_get d Http.K_ERROR with
               | Some e => Http.ARaise (CopilotClientError e)
               | None =>
                   match dict_get d Http.K_CONTENT with
                   | Some c => Http.AYield c
                   | None => Http.ASkip
                   end
               end)
  /\ (forall payload d,
        json_loads payload = Some (JObject d) ->
        dict_get d Http.K_DONE = None
        \/ (exists b, dict_get d Http.K_DONE = Some (JBool b)) ->
        Http.handle_data payload = Spec.claimed_handle payload)
  /\ (forall payload,
        json_loads payload = None ->
        Http.handle_data payload = Http.ARaise JSONDecodeError)
  /\ (forall payload v,
        json_loads payload = Some v ->
        (forall d, v <> JObject d) ->
        Http.handle_data payload = Http.ARaise AttributeError)
  /\ Http.stream_all Examples.scenario
     = ([JString (lit "He"); JString (lit "llo")], Returned).
Proof.
  split; [exact stream_all_flat|].
  split; [intros payload d H; unfold Http.handle_data; now rewrite H|].
  split.
  { intros payload d H Hd.
    unfold Http.handle_data, Spec.claimed_handle. rewrite H.
    destruct Hd as [-> | [[|] ->]]; reflexivity. }
  split; [intros payload H; unfold Http.handle_data; now rewrite H|].
  split.
  { intros payload v H Hv. unfold Http.handle_data. rewrite H.
    destruct v; try reflexivity. now destruct (Hv d). }
  vm_compute. reflexivity.
Qed.

(** C2, witness: the scenario, its three events arriving in three reads. *)
Lemma stream_dispatches_on_data_lines_witness :
  Http.stream_all Examples.scenario
  = Spec.stream_of_text Http.handle_data
      (Examples.q "data: {'content':'He'}" ++ Http.BLANK_LINE
       ++ Examples.q "data: {'content':'llo'}" ++ Http.BLANK_LINE
       ++ Examples.q "data: {'done':true}" ++ Http.BLANK_LINE)
  /\ Http.handle_data (Examples.q "{'content':'He'}")
     = Spec.claimed_handle (Examples.q "{'content':'He'}")
  /\ Http.handle_data (Examples.q "{'content'") = Http.ARaise JSONDecodeError
  /\ Http.handle_data (Examples.q "5") = Http.ARaise AttributeError.
Proof.
  destruct stream_dispatches_on_data_lines as [H1 [_ [H3 [H4 [H5 _]]]]].
  split; [|split; [|split]].
  - apply H1.
    + repeat constructor; discriminate.
    + vm_compute. reflexivity.
  - apply (H3 _ [(Http.K_CONTENT, JString (lit "He"))]).
    + vm_compute. reflexivity.
    + left. vm_compute. reflexivity.
  - apply H4. vm_compute. reflexivity.
  - apply (H5 _ (JInt 5)).
    + vm_compute. reflexivity.
    + discriminate.
Defined.

(** C2, counterexample: an object whose [done] field is the number one and
    which carries a content ends the stream, where the dispatch of the
    specification yields the content; and the number five as a payload
    raises, where the specification ignores it. *)
Lemma truthy_done_ends_the_stream :
  Http.stream_all [Examples.line "data: {'done':1,'content':'x'}" ++ [Byte.x0a]]
  = ([], Returned)
  /\ Spec.stream_of_text Spec.claimed_handle
       (Examples.q "data: {'done':1,'content':'x'}" ++ Http.BLANK_LINE)
     = ([JString (lit "x")], Returned)
  /\ Http.stream_all [Examples.line "data: 5" ++ [Byte.x0a]]
     = ([], Raised AttributeError)
  /\ Spec.stream_of_text Spec.claimed_handle
       (Examples.q "data: 5" ++ Http.BLANK_LINE)
     = ([], Returned).
Proof. repeat split; vm_compute; reflexivity. Qed.

(** C10: what the buffer holds when the input ends is dropped.  For every
    response whose chunks are not empty and decode, if the loop run over the
    whole text leaves a remainder in the buffer, then the generator yields
    the fragments of the text before that remainder and returns normally:
    the remainder holds no blank line, yields nothing and raises nothing,
    whatever it is. *)
Theorem unterminated_event_is_dropped (chunks : list bytes) (text : str)
  (ys : list json) (rest : str) :
  Forall (fun c : bytes => c <> []) chunks ->
  Spec.decoded chunks = Some text ->
  Http.while_events text = (ys, Http.More rest) ->
  Http.stream_all chunks = (ys, Returned)
  /\ contains Http.BLANK_LINE rest = false
  /\ exists consumed,
       text = consumed ++ rest
       /\ Http.while_events consumed = (ys, Http.More []).
Proof.
  intros Hne Hd Hw. split.
  - unfold Http.stream_all.
    rewrite (read_loop_whole chunks [] text Hne Hd eq_refl).
    simpl. rewrite Hw. reflexivity.
  - exact (while_events_rest _ _ _ Hw).
Qed.

(** C10, witness: the input ends inside the second event, a data line with
    a content of its own; only the first fragment is yielded. *)
Lemma unterminated_event_is_dropped_witness :
  Http.stream_all Examples.cut_short = ([JString (lit "A")], Returned)
  /\ contains Http.BLANK_LINE (Examples.q "data: {'content':'B'}") = false
  /\ exists consumed,
       Examples.q "data: {'content':'A'}" ++ Http.BLANK_LINE
         ++ Examples.q "data: {'content':'B'}"
       = consumed ++ Examples.q "data: {'content':'B'}"
       /\ Http.while_events consumed = ([JString (lit "A")], Http.More []).
Proof.
  apply (unterminated_event_is_dropped Examples.cut_short).
  - repeat constructor; discriminate.
  - vm_compute. reflexivity.
  - vm_compute. reflexivity.
Defined.

(** ** One [next] at a time and the run to the end agree *)

Section Steps.
Local Open Scope N_scope.











End Steps.

Section Nexts.

Variable urlopen : Http.Request -> Http.urlopen_result.





End Nexts.


(** ** The matcher on the two patterns *)

Section Matcher.
Local Open Scope N_scope.

Lemma any_char_true (c : N) : Re.any_char c = true.
Proof. apply orb_negb_r. Qed.

Lemma blank_not_tick (c : N) : isspace c = true -> (c =? 96) = false.
Proof.
  intros H. destruct (c =? 96) eqn:E; [|reflexivity].
  apply N.eqb_eq in E; subst c. discriminate.
Qed.

Lemma startswith_ticks_blank (c : N) (s : str) :
  isspace c = true -> startswith Re.TICKS (c :: s) = false.
Proof.
  intros H. unfold Re.TICKS. cbn [startswith].
  rewrite N.eqb_sym, (blank_not_tick c H). reflexivity.
Qed.

Lemma mtch_word {R : Type} (w : str) :
  forall (s : str) (cap : option str) (k : str -> option str -> option R),
    Re.mtch (Re.word w) s cap k
    = if startswith w s then k (skipn (length w) s) cap else None.
Proof.
  induction w as [|x w IH]; intros s cap k; [reflexivity|].
  destruct s as [|y s]; [reflexivity|].
  cbn [Re.word Re.mtch startswith length skipn].
  rewrite (N.eqb_sym y x). destruct (x =? y); [apply IH | reflexivity].
Qed.

Lemma contains_skipn (sep s : str) (n : nat) :
  contains sep (skipn n s) = true -> contains sep s = true.
Proof.
  intros H. rewrite <- (firstn_skipn n s). now apply contains_suffix.
Qed.

(** When the continuation succeeds exactly on the texts that start with
    [p], the lazy star over any character succeeds exactly on the texts
    that contain [p]; so does the greedy star. *)
Lemma star_lazy_some {R : Type} (p : str) (k : str -> option R) :
  (forall s, Spec.is_some (k s) = startswith p s) ->
  forall s, Spec.is_some (Re.star_lazy Re.any_char s k) = contains p s.
Proof.
  intros Hk. induction s as [|c s IH]; simpl.
  - rewrite <- Hk. destruct (k []); reflexivity.
  - rewrite <- Hk, any_char_true, <- IH. destruct (k (c :: s)); reflexivity.
Qed.

Lemma star_greedy_any_some {R : Type} (p : str) (k : str -> option R) :
  (forall s, Spec.is_some (k s) = startswith p s) ->
  forall s, Spec.is_some (Re.star_greedy Re.any_char s k) = contains p s.
Proof.
  intros Hk. induction s as [|c s IH]; simpl.
  - rewrite <- Hk. rewrite orb_false_r. reflexivity.
  - rewrite any_char_true, <- IH, <- Hk.
    destruct (Re.star_greedy Re.any_char s k); simpl;
      [now rewrite orb_true_r | now rewrite orb_false_r].
Qed.

Lemma star_greedy_blank_some {R : Type} (k : str -> option R) :
  (forall s, Spec.is_some (k s) = contains Re.TICKS s) ->
  forall s, Spec.is_some (Re.star_greedy isspace s k) = contains Re.TICKS s.
Proof.
  intros Hk. induction s as [|c s IH]; [apply Hk|].
  cbn [Re.star_greedy]. destruct (isspace c) eqn:B; [|apply Hk].
  rewrite contains_step, (startswith_ticks_blank c s B), <- IH. simpl.
  destruct (Re.star_greedy isspace s k); [reflexivity|].
  rewrite Hk, contains_step, (startswith_ticks_blank c s B). simpl.
  rewrite <- IH. reflexivity.
Qed.

Lemma fence_tail_some {R : Type} (k : str -> option str -> option R) :
  (forall s c, Spec.is_some (k s c) = true) ->
  forall s cap,
    Spec.is_some (Re.mtch Re.FENCE_TAIL s cap k) = contains Re.TICKS s.
Proof.
  intros Hk s cap. unfold Re.FENCE_TAIL. cbn [Re.mtch].
  apply star_greedy_blank_some. intros s3.
  apply star_lazy_some. intros s4.
  rewrite mtch_word. destruct (startswith Re.TICKS s4); [apply Hk | reflexivity].
Qed.

Lemma match_at_fence_some (s : str) :
  Spec.is_some (Re.match_at Re.FENCE s)
  = startswith Re.TICKS s && contains Re.TICKS (skipn 3 s).
Proof.
  unfold Re.match_at, Re.FENCE. cbn [Re.mtch]. rewrite mtch_word.
  destruct (startswith Re.TICKS s); [|reflexivity].
  cbn [andb length Re.TICKS]. rewrite mtch_word.
  set (K := fun (s' : str) (cap : option str) =>
              Some {| Re.group0 := firstn (length s - length s') s;
                      Re.group1 := cap |}).
  assert (HK : forall s c, Spec.is_some (K s c) = true) by reflexivity.
  pose proof (fence_tail_some K HK) as T.
  destruct (startswith Re.JSON_TAG (skipn 3 s)) eqn:J.
  - match goal with
    | |- Spec.is_some match ?m with _ => _ end = _ => destruct m eqn:M
    end.
    + pose proof (T (skipn (length Re.JSON_TAG) (skipn 3 s)) None) as T'.
      rewrite M in T'. cbn [Spec.is_some] in *. symmetry.
      apply (contains_skipn _ _ (length Re.JSON_TAG)). now rewrite <- T'.
    + apply T.
  - apply T.
Qed.

Lemma search_some_iff (r : Re.regex) (text : str) :
  Spec.is_some (Re.search r text) = true
  <-> exists pre s, text = pre ++ s
                    /\ Spec.is_some (Re.match_at r s) = true.
Proof.
  induction text as [|c text IH]; simpl.
  - destruct (Re.match_at r []) eqn:M; simpl.
    + split; [|reflexivity]. intros _. exists [], []. now rewrite M.
    + split; [discriminate|]. intros [pre [s [H Hs]]].
      symmetry in H. apply app_eq_nil in H as [-> ->]. now rewrite M in Hs.
  - destruct (Re.match_at r (c :: text)) eqn:M; simpl.
    + split; [|reflexivity]. intros _. exists [], (c :: text). now rewrite M.
    + rewrite IH. split.
      * intros [pre [s [-> Hs]]]. now exists (c :: pre), s.
      * intros [[|x pre] [s [H Hs]]]; simpl in H.
        -- subst s. now rewrite M in Hs.
        -- injection H as _ ->. now exists pre, s.
Qed.

(** [re.search] finds a fence exactly in the texts that hold one. *)
Lemma search_fence_iff (text : str) :
  Spec.is_some (Re.search Re.FENCE text) = true <-> Spec.has_fence text.
Proof.
  rewrite search_some_iff. unfold Spec.has_fence. split.
  - intros [pre [s [-> H]]]. rewrite match_at_fence_some in H.
    apply andb_true_iff in H as [H1 H2].
    apply startswith_skipn in H1. apply contains_iff in H2 as [mid [post H2]].
    exists pre, mid, post. rewrite H1. simpl length. now rewrite H2.
  - intros [pre [mid [post ->]]]. exists pre, (Re.TICKS ++ mid ++ Re.TICKS ++ post).
    split; [reflexivity|]. rewrite match_at_fence_some, startswith_app.
    change (skipn 3 (Re.TICKS ++ mid ++ Re.TICKS ++ post))
      with (mid ++ Re.TICKS ++ post).
    simpl. apply contains_iff. now exists mid, post.
Qed.

Lemma match_at_braces_some (s : str) :
  Spec.is_some (Re.match_at Re.BRACES s)
  = startswith [123] s && contains [125] (skipn 1 s).
Proof.
  unfold Re.match_at, Re.BRACES. cbn [Re.mtch].
  destruct s as [|c s]; [reflexivity|].
  cbn [startswith skipn]. rewrite (N.eqb_sym 123 c), andb_true_r.
  destruct (c =? 123); [|reflexivity].
  cbn [andb]. apply star_greedy_any_some. intros s'.
  destruct s' as [|x s']; [reflexivity|].
  cbn [startswith]. rewrite (N.eqb_sym 125 x), andb_true_r.
  destruct (x =? 125); reflexivity.
Qed.

(** [re.search] finds a braced part exactly in the texts that hold one. *)
Lemma search_braces_iff (text : str) :
  Spec.is_some (Re.search Re.BRACES text) = true <-> Spec.has_braces text.
Proof.
  rewrite search_some_iff. unfold Spec.has_braces. split.
  - intros [pre [s [-> H]]]. rewrite match_at_braces_some in H.
    apply andb_true_iff in H as [H1 H2].
    apply startswith_skipn in H1. apply contains_iff in H2 as [mid [post H2]].
    exists pre, mid, post. rewrite H1. simpl length. now rewrite H2.
  - intros [pre [mid [post ->]]]. exists pre, ([123] ++ mid ++ [125] ++ post).
    split; [reflexivity|]. rewrite match_at_braces_some.
    simpl. apply contains_iff. now exists mid, post.
Qed.

End Matcher.

(** ** Where the matcher finds its match *)

Section First.
Local Open Scope N_scope.

Lemma is_some_false {A : Type} (o : option A) :
  Spec.is_some o = false -> o = None.
Proof. destruct o; [discriminate | reflexivity]. Qed.

Lemma star_lazy_first {R : Type} (k : str -> option R) (rest : str) (x : R) :
  k rest = Some x ->
  forall a,
    (forall a1 a2, a = a1 ++ a2 -> a2 <> [] -> k (a2 ++ rest) = None) ->
    Re.star_lazy Re.any_char (a ++ rest) k = Some x.
Proof.
  intros Hk. induction a as [|c a IH]; intros H.
  - simpl. destruct rest; simpl; now rewrite Hk.
  - cbn [app Re.star_lazy].
    pose proof (H [] (c :: a) eq_refl ltac:(discriminate)) as E.
    cbn [app] in E. rewrite E, any_char_true. apply IH.
    intros a1 a2 -> Ha. apply (H (c :: a1) a2 eq_refl Ha).
Qed.

Lemma star_greedy_blank_first {R : Type} (k : str -> option R) (rest : str)
  (x : R) :
  k rest = Some x -> Spec.starts_nonblank rest ->
  forall ws, Spec.all_blank ws ->
    Re.star_greedy isspace (ws ++ rest) k = Some x.
Proof.
  intros Hk Hr. induction ws as [|c ws IH]; intros Hws.
  - simpl. destruct rest as [|c r]; simpl; [exact Hk|].
    simpl in Hr. now rewrite Hr.
  - inversion Hws as [|c0 ws0 Hc Hws']; subst.
    cbn [app Re.star_greedy]. rewrite Hc, (IH Hws'). reflexivity.
Qed.

Lemma star_greedy_none {R : Type} (k : str -> option R) :
  forall r,
    (forall b1 b2, r = b1 ++ b2 -> k b2 = None) ->
    Re.star_greedy Re.any_char r k = None.
Proof.
  induction r as [|c r IH]; intros H.
  - simpl. apply (H [] [] eq_refl).
  - cbn [Re.star_greedy]. rewrite any_char_true, IH.
    + apply (H [] (c :: r) eq_refl).
    + intros b1 b2 ->. apply (H (c :: b1) b2 eq_refl).
Qed.

Lemma star_greedy_last {R : Type} (k : str -> option R) (rest : str) (x : R) :
  k rest = Some x ->
  (forall b1 b2, rest = b1 ++ b2 -> b1 <> [] -> k b2 = None) ->
  forall a, Re.star_greedy Re.any_char (a ++ rest) k = Some x.
Proof.
  intros Hk H. induction a as [|c a IH].
  - simpl. destruct rest as [|c r]; [exact Hk|].
    cbn [Re.star_greedy]. rewrite any_char_true, star_greedy_none.
    + exact Hk.
    + intros b1 b2 E. apply (H (c :: b1) b2); [now rewrite E | discriminate].
  - cbn [app Re.star_greedy]. now rewrite any_char_true, IH.
Qed.

Lemma search_first (r : Re.regex) (s : str) (m : Re.match_object) :
  Re.match_at r s = Some m ->
  forall pre,
    (forall p1 p2, pre = p1 ++ p2 -> p2 <> [] ->
                   Re.match_at r (p2 ++ s) = None) ->
    Re.search r (pre ++ s) = Some m.
Proof.
  intros Hm. induction pre as [|c pre IH]; intros H.
  - simpl. destruct s; simpl; now rewrite Hm.
  - cbn [app Re.search].
    pose proof (H [] (c :: pre) eq_refl ltac:(discriminate)) as E.
    cbn [app] in E. rewrite E. apply IH. intros p1 p2 -> Hp. apply (H (c :: p1) p2 eq_refl Hp).
Qed.

(** No three backticks begin inside [g] when [g] followed by two backticks
    holds no three in a row. *)
Lemma no_early_ticks (g rest : str) :
  contains Re.TICKS (g ++ [96; 96]) = false ->
  forall a1 a2, g = a1 ++ a2 -> a2 <> [] ->
    startswith Re.TICKS (a2 ++ Re.TICKS ++ rest) = false.
Proof.
  intros H a1 a2 -> Ha.
  destruct (startswith Re.TICKS (a2 ++ Re.TICKS ++ rest)) eqn:E;
    [|reflexivity].
  exfalso. rewrite <- app_assoc in H.
  assert (C : contains Re.TICKS (a1 ++ a2 ++ [96; 96]) = true).
  { apply contains_suffix.
    change (Re.TICKS ++ rest) with ([96; 96] ++ 96 :: rest) in E.
    rewrite app_assoc in E.
    rewrite startswith_app_long in E.
    - apply contains_iff. apply startswith_iff in E as [r E].
      exists [], r. exact E.
    - destruct a2 as [|c a2]; [contradiction|].
      simpl. rewrite length_app. simpl. lia. }
  congruence.
Qed.

Lemma firstn_sub_app (a b : str) :
  firstn (length (a ++ b) - length b) (a ++ b) = a.
Proof.
  rewrite length_app. replace (length a + length b - length b)%nat
    with (length a + 0)%nat by lia.
  rewrite firstn_app_2. simpl. apply app_nil_r.
Qed.

End First.

(** ** The first fenced block and the outermost braces *)

Section Blocks.
Local Open Scope N_scope.

Lemma fence_tail_group {R : Type} (k : str -> option str -> option R)
  (cap : option str) (ws g post : str) (x : R) :
  k post (Some g) = Some x ->
  Spec.all_blank ws ->
  Spec.starts_nonblank (g ++ Re.TICKS ++ post) ->
  contains Re.TICKS (g ++ [96; 96]) = false ->
  Re.mtch Re.FENCE_TAIL (ws ++ g ++ Re.TICKS ++ post) cap k = Some x.
Proof.
  intros Hk Hws Hg Hno. unfold Re.FENCE_TAIL. cbn [Re.mtch].
  apply star_greedy_blank_first; [|exact Hg|exact Hws].
  apply star_lazy_first.
  - rewrite mtch_word, startswith_app.
    change (skipn (length Re.TICKS) (Re.TICKS ++ post)) with post.
    now rewrite firstn_sub_app.
  - intros a1 a2 E Ha. rewrite mtch_word.
    now rewrite (no_early_ticks g post Hno a1 a2 E Ha).
Qed.

Lemma match_at_fence (tag ws g post : str) :
  tag = Re.JSON_TAG
  \/ (tag = [] /\ startswith Re.JSON_TAG (ws ++ g ++ Re.TICKS ++ post) = false) ->
  Spec.all_blank ws ->
  Spec.starts_nonblank (g ++ Re.TICKS ++ post) ->
  contains Re.TICKS (g ++ [96; 96]) = false ->
  exists m,
    Re.match_at Re.FENCE (Re.TICKS ++ tag ++ ws ++ g ++ Re.TICKS ++ post)
    = Some m
    /\ Re.group1 m = Some g.
Proof.
  intros Htag Hws Hg Hno. unfold Re.match_at, Re.FENCE. cbn [Re.mtch].
  rewrite mtch_word, startswith_app.
  change (skipn (length Re.TICKS)
            (Re.TICKS ++ tag ++ ws ++ g ++ Re.TICKS ++ post))
    with (tag ++ ws ++ g ++ Re.TICKS ++ post).
  rewrite mtch_word.
  destruct Htag as [-> | [-> Hj]].
  - rewrite startswith_app.
    change (skipn (length Re.JSON_TAG)
              (Re.JSON_TAG ++ ws ++ g ++ Re.TICKS ++ post))
      with (ws ++ g ++ Re.TICKS ++ post).
    rewrite (fence_tail_group _ None ws g post _ eq_refl Hws Hg Hno).
    eexists. split; reflexivity.
  - cbn [app]. rewrite Hj.
    rewrite (fence_tail_group _ None ws g post _ eq_refl Hws Hg Hno).
    eexists. split; reflexivity.
Qed.

(** The group of the fence pattern is the text between the first three
    backticks, with an optional tag and blanks after them, and the next
    three backticks. *)
Lemma search_fence_first (pre tag ws g post : str) :
  contains Re.TICKS (pre ++ [96; 96]) = false ->
  tag = Re.JSON_TAG
  \/ (tag = [] /\ startswith Re.JSON_TAG (ws ++ g ++ Re.TICKS ++ post) = false) ->
  Spec.all_blank ws ->
  Spec.starts_nonblank (g ++ Re.TICKS ++ post) ->
  contains Re.TICKS (g ++ [96; 96]) = false ->
  exists m,
    Re.search Re.FENCE (pre ++ Re.TICKS ++ tag ++ ws ++ g ++ Re.TICKS ++ post)
    = Some m
    /\ Re.group1 m = Some g.
Proof.
  intros Hpre Htag Hws Hg Hno.
  destruct (match_at_fence tag ws g post Htag Hws Hg Hno) as [m [Hm H1]].
  exists m. split; [|exact H1].
  apply search_first; [exact Hm|].
  intros p1 p2 E Hp. apply is_some_false.
  rewrite match_at_fence_some.
  now rewrite (no_early_ticks pre _ Hpre p1 p2 E Hp).
Qed.

Lemma match_at_braces_other (c : N) (s : str) :
  c <> 123 -> Re.match_at Re.BRACES (c :: s) = None.
Proof.
  intros H. apply is_some_false. rewrite match_at_braces_some.
  cbn [startswith]. apply N.eqb_neq in H. rewrite N.eqb_sym, H. reflexivity.
Qed.

(** The match of the brace pattern runs from the first opening brace to
    the last closing brace. *)
Lemma search_braces_first (pre mid post : str) :
  ~ In 123 pre -> ~ In 125 post ->
  exists m,
    Re.search Re.BRACES (pre ++ [123] ++ mid ++ [125] ++ post) = Some m
    /\ Re.group0 m = [123] ++ mid ++ [125].
Proof.
  intros Hpre Hpost. eexists. split.
  - apply search_first.
    + unfold Re.match_at, Re.BRACES. cbn [Re.mtch app]. rewrite N.eqb_refl.
      apply star_greedy_last.
      * cbn [app]. rewrite N.eqb_refl. reflexivity.
      * intros b1 b2 E Hb. destruct b2 as [|x b2]; [reflexivity|].
        destruct b1 as [|y b1]; [contradiction|].
        injection E as _ E.
        assert (Hx : x <> 125).
        { intros ->. apply Hpost. rewrite E. apply in_or_app. right. now left. }
        apply N.eqb_neq in Hx. now rewrite Hx.
    + intros p1 p2 E Hp. destruct p2 as [|c p2]; [contradiction|].
      apply match_at_braces_other. intros ->. apply Hpre. rewrite E.
      apply in_or_app. right. now left.
  - cbn [Re.group0].
    replace (123 :: mid ++ 125 :: post)
      with (([123] ++ mid ++ [125]) ++ post)
      by (simpl; now rewrite <- app_assoc).
    apply firstn_sub_app.
Qed.

End Blocks.

(** ** Stripping *)

Section Strip.
Local Open Scope N_scope.

Lemma lstrip_by_blank (f : N -> bool) (ws s : str) :
  Forall (fun c => f c = true) ws -> lstrip_by f (ws ++ s) = lstrip_by f s.
Proof.
  induction 1 as [|c ws Hc Hws IH]; [reflexivity|].
  cbn [app lstrip_by]. now rewrite Hc.
Qed.

Lemma strip_object (body ws : str) :
  Spec.all_blank ws ->
  strip ((123 :: body ++ [125]) ++ ws) = 123 :: body ++ [125].
Proof.
  intros Hws. unfold strip, rstrip_by.
  cbn [app lstrip_by]. change (isspace 123) with false. cbn iota.
  change (123 :: (body ++ [125]) ++ ws) with ((123 :: body ++ [125]) ++ ws).
  rewrite rev_app_distr, lstrip_by_blank by (apply Forall_rev, Hws).
  change (123 :: body ++ [125]) with ((123 :: body) ++ [125]).
  rewrite rev_app_distr. cbn [rev app lstrip_by].
  change (isspace 125) with false. cbn iota.
  change (125 :: rev body ++ [123]) with ([125] ++ rev (123 :: body)).
  rewrite rev_app_distr, rev_involutive. reflexivity.
Qed.

End Strip.

(** ** Texts that are no JSON from their first character *)

Section Backtick.
Local Open Scope N_scope.

Lemma json_loads_backtick (s : str) : json_loads (96 :: s) = None.
Proof.
  unfold json_loads.
  replace (2 * length (96%N :: s) + 1)%nat
    with (S (2 * length s + 2))%nat by (simpl; lia).
  reflexivity.
Qed.

End Backtick.

(** ** A match is a part of the text *)

Section Parts.
Local Open Scope N_scope.

Lemma suffix_refl (s : str) : Ref.suffix_of s s.
Proof. now exists []. Qed.

Lemma suffix_cons (c : N) (t s : str) :
  Ref.suffix_of t s -> Ref.suffix_of t (c :: s).
Proof. intros [pre ->]. now exists (c :: pre). Qed.

Lemma suffix_trans (a b c : str) :
  Ref.suffix_of a b -> Ref.suffix_of b c -> Ref.suffix_of a c.
Proof. intros [p ->] [q ->]. exists (q ++ p). now rewrite app_assoc. Qed.

Lemma part_of_suffix (t a s : str) :
  Ref.part_of t a -> Ref.suffix_of a s -> Ref.part_of t s.
Proof.
  intros [pre [post ->]] [q ->]. exists (q ++ pre), post.
  now rewrite <- app_assoc.
Qed.

Lemma part_trans (a b c : str) :
  Ref.part_of a b -> Ref.part_of b c -> Ref.part_of a c.
Proof.
  intros [p [q ->]] [p' [q' ->]]. exists (p' ++ p), (q ++ q').
  now rewrite <- !app_assoc.
Qed.

Lemma firstn_part (n : nat) (s : str) : Ref.part_of (firstn n s) s.
Proof. exists [], (skipn n s). cbn [app]. now rewrite firstn_skipn. Qed.

Lemma suffix_part (t s : str) : Ref.suffix_of t s -> Ref.part_of t s.
Proof. intros [pre ->]. exists pre, []. now rewrite app_nil_r. Qed.

Lemma lstrip_by_suffix (f : N -> bool) (s : str) :
  Ref.suffix_of (lstrip_by f s) s.
Proof.
  induction s as [|c s IH]; cbn [lstrip_by]; [apply suffix_refl|].
  destruct (f c); [now apply suffix_cons | apply suffix_refl].
Qed.

Lemma rstrip_by_part (f : N -> bool) (s : str) :
  Ref.part_of (rstrip_by f s) s.
Proof.
  unfold rstrip_by. destruct (lstrip_by_suffix f (rev s)) as [pre E].
  exists [], (rev pre). cbn [app].
  rewrite <- rev_app_distr, <- E. now rewrite rev_involutive.
Qed.

Lemma strip_part (s : str) : Ref.part_of (strip s) s.
Proof.
  unfold strip. eapply part_trans; [apply rstrip_by_part|].
  apply suffix_part, lstrip_by_suffix.
Qed.

Lemma star_greedy_suffix {R : Type} (cls : N -> bool) (k : str -> option R)
  (x : R) :
  forall s,
    Re.star_greedy cls s k = Some x ->
    exists s', Ref.suffix_of s' s /\ k s' = Some x.
Proof.
  induction s as [|c s IH]; cbn [Re.star_greedy]; intros H.
  - exists []. split; [apply suffix_refl | exact H].
  - destruct (cls c);
      [|exists (c :: s); split; [apply suffix_refl | exact H]].
    destruct (Re.star_greedy cls s k) as [y|] eqn:E.
    + injection H as <-. destruct (IH eq_refl) as [s' [S K]].
      exists s'. split; [now apply suffix_cons | exact K].
    + exists (c :: s). split; [apply suffix_refl | exact H].
Qed.

Lemma star_lazy_suffix {R : Type} (cls : N -> bool) (k : str -> option R)
  (x : R) :
  forall s,
    Re.star_lazy cls s k = Some x ->
    exists s', Ref.suffix_of s' s /\ k s' = Some x.
Proof.
  induction s as [|c s IH]; cbn [Re.star_lazy]; intros H.
  - destruct (k []) eqn:E; [|discriminate]. injection H as <-.
    exists []. split; [apply suffix_refl | exact E].
  - destruct (k (c :: s)) eqn:E.
    + injection H as <-. exists (c :: s).
      split; [apply suffix_refl | exact E].
    + destruct (cls c); [|discriminate].
      destruct (IH H) as [s' [S K]].
      exists s'. split; [now apply suffix_cons | exact K].
Qed.

(** The continuation of a match runs on an end of the input, with the
    capture it was given or with a part of the input. *)
Lemma mtch_suffix {R : Type} (r : Re.regex) :
  forall (s : str) (cap : option str) (k : str -> option str -> option R)
         (x : R),
    Re.mtch r s cap k = Some x ->
    exists s' cap',
      k s' cap' = Some x
      /\ Ref.suffix_of s' s
      /\ (cap' = cap \/ exists t, cap' = Some t /\ Ref.part_of t s).
Proof.
  induction r as [|c|r1 IH1 r2 IH2|r1 IH1|cls|cls|r1 IH1];
    intros s cap k x H; cbn [Re.mtch] in H.
  - exists s, cap. split; [exact H|]. split; [apply suffix_refl | now left].
  - destruct s as [|y s]; [discriminate|].
    destruct (y =? c); [|discriminate].
    exists s, cap. split; [exact H|].
    split; [apply suffix_cons, suffix_refl | now left].
  - destruct (IH1 _ _ _ _ H) as [s1 [cap1 [H1 [S1 C1]]]].
    destruct (IH2 _ _ _ _ H1) as [s2 [cap2 [H2 [S2 C2]]]].
    exists s2, cap2. split; [exact H2|].
    split; [eapply suffix_trans; eassumption|].
    destruct C2 as [-> | [t [-> P]]]; [exact C1|].
    right. exists t. split; [reflexivity|].
    eapply part_of_suffix; eassumption.
  - destruct (Re.mtch r1 s cap k) as [y|] eqn:E.
    + injection H as <-. apply (IH1 _ _ _ _ E).
    + exists s, cap. split; [exact H|].
      split; [apply suffix_refl | now left].
  - destruct (star_greedy_suffix _ _ _ _ H) as [s' [S K]].
    exists s', cap. split; [exact K|]. split; [exact S | now left].
  - destruct (star_lazy_suffix _ _ _ _ H) as [s' [S K]].
    exists s', cap. split; [exact K|]. split; [exact S | now left].
  - destruct (IH1 _ _ _ _ H) as [s1 [cap1 [H1 [S1 _]]]].
    exists s1, (Some (firstn (length s - length s1) s)).
    split; [exact H1|]. split; [exact S1|].
    right. eexists. split; [reflexivity | apply firstn_part].
Qed.

Lemma match_at_parts (r : Re.regex) (s : str) (m : Re.match_object) :
  Re.match_at r s = Some m ->
  Ref.part_of (Re.group0 m) s
  /\ forall g, Re.group1 m = Some g -> Ref.part_of g s.
Proof.
  unfold Re.match_at. intros H.
  apply mtch_suffix in H. destruct H as [s' [cap' [K [_ C]]]].
  injection K as <-. cbn [Re.group0 Re.group1].
  split; [apply firstn_part|].
  intros g G. destruct C as [-> | [t [-> P]]]; [discriminate|].
  now injection G as <-.
Qed.

Lemma search_parts (r : Re.regex) (m : Re.match_object) :
  forall s,
    Re.search r s = Some m ->
    Ref.part_of (Re.group0 m) s
    /\ forall g, Re.group1 m = Some g -> Ref.part_of g s.
Proof.
  induction s as [|c s IH]; cbn [Re.search]; intros H.
  - destruct (Re.match_at r []) eqn:E; [|discriminate].
    injection H as <-. exact (match_at_parts r _ _ E).
  - destruct (Re.match_at r (c :: s)) eqn:E.
    + injection H as <-. exact (match_at_parts r _ _ E).
    + destruct (IH H) as [P0 P1]. split.
      * eapply part_of_suffix; [exact P0 | apply suffix_cons, suffix_refl].
      * intros g G. eapply part_of_suffix;
          [exact (P1 g G) | apply suffix_cons, suffix_refl].
Qed.

End Parts.

(** ** The group of a fence match is always there *)

Section Group.
Local Open Scope N_scope.

Lemma star_greedy_from {R : Type} (cls : N -> bool) (k : str -> option R)
  (x : R) :
  forall s, Re.star_greedy cls s k = Some x -> exists s', k s' = Some x.
Proof.
  induction s as [|c s IH]; cbn [Re.star_greedy]; intros H.
  - now exists [].
  - destruct (cls c); [|now exists (c :: s)].
    destruct (Re.star_greedy cls s k) as [y|] eqn:E.
    + injection H as <-. now apply IH.
    + now exists (c :: s).
Qed.

Lemma star_lazy_from {R : Type} (cls : N -> bool) (k : str -> option R)
  (x : R) :
  forall s, Re.star_lazy cls s k = Some x -> exists s', k s' = Some x.
Proof.
  induction s as [|c s IH]; cbn [Re.star_lazy]; intros H.
  - destruct (k []) eqn:E; [|discriminate]. injection H as <-. now exists [].
  - destruct (k (c :: s)) eqn:E.
    + injection H as <-. now exists (c :: s).
    + destruct (cls c); [now apply IH | discriminate].
Qed.

Lemma fence_tail_from (s : str) (cap : option str)
  (k : str -> option str -> option Re.match_object) (m : Re.match_object) :
  Re.mtch Re.FENCE_TAIL s cap k = Some m ->
  exists s' g, k s' (Some g) = Some m.
Proof.
  unfold Re.FENCE_TAIL. cbn [Re.mtch]. intros H.
  apply star_greedy_from in H as [s3 H].
  apply star_lazy_from in H as [s4 H].
  rewrite mtch_word in H. destruct (startswith Re.TICKS s4); [|discriminate].
  eauto.
Qed.

Lemma match_at_fence_group (s : str) (m : Re.match_object) :
  Re.match_at Re.FENCE s = Some m -> exists g, Re.group1 m = Some g.
Proof.
  unfold Re.match_at, Re.FENCE. cbn [Re.mtch]. rewrite mtch_word.
  destruct (startswith Re.TICKS s); [|discriminate].
  rewrite mtch_word. intros H.
  assert (T : exists (s' g : str),
             Some {| Re.group0 := firstn (length s - length s') s;
                     Re.group1 := Some g |} = Some m).
  { destruct (startswith Re.JSON_TAG (skipn (length Re.TICKS) s)).
    - match type of H with
      | match ?e with _ => _ end = _ => destruct e as [y|] eqn:E
      end.
      + injection H as <-. apply (fence_tail_from _ _ _ _ E).
      + apply (fence_tail_from _ _ _ _ H).
    - apply (fence_tail_from _ _ _ _ H). }
  destruct T as [s' [g T]]. injection T as <-. now exists g.
Qed.

Lemma search_from (r : Re.regex) (m : Re.match_object) :
  forall s, Re.search r s = Some m -> exists s', Re.match_at r s' = Some m.
Proof.
  induction s as [|c s IH]; cbn [Re.search]; intros H.
  - destruct (Re.match_at r []) eqn:E; [|discriminate].
    injection H as <-. now exists [].
  - destruct (Re.match_at r (c :: s)) eqn:E.
    + injection H as <-. now exists (c :: s).
    + now apply IH.
Qed.

Lemma search_fence_group (text : str) (m : Re.match_object) :
  Re.search Re.FENCE text = Some m -> exists g, Re.group1 m = Some g.
Proof.
  intros H. apply search_from in H as [s H].
  apply (match_at_fence_group _ _ H).
Qed.

Lemma no_ticks_after_blanks (ws : str) :
  Spec.all_blank ws -> contains Re.TICKS (ws ++ [96; 96]) = false.
Proof.
  induction 1 as [|c ws Hc Hws IH]; [reflexivity|].
  cbn [app]. now rewrite contains_step, (startswith_ticks_blank c _ Hc), IH.
Qed.

Lemma no_ticks_after_brace (ws : str) :
  Spec.all_blank ws ->
  forall u,
    contains Re.TICKS (u ++ [125]) = false ->
    contains Re.TICKS ((u ++ [125]) ++ ws ++ [96; 96]) = false.
Proof.
  intros Hws. induction u as [|c u IH]; intros H.
  - cbn [app]. rewrite contains_step, (no_ticks_after_blanks ws Hws).
    reflexivity.
  - cbn [app] in *. rewrite contains_step in H.
    apply orb_false_iff in H as [H1 H2].
    rewrite contains_step, (IH H2), orb_false_r.
    destruct u as [|d u].
    + cbn [app]. unfold Re.TICKS. cbn [startswith].
      change (96 =? 125) with false. now rewrite andb_false_r.
    + change (c :: ((d :: u) ++ [125]) ++ ws ++ [96; 96])
        with ((c :: (d :: u) ++ [125]) ++ ws ++ [96; 96]).
      rewrite startswith_app_long; [exact H1|].
      simpl. rewrite length_app. simpl. lia.
Qed.

End Group.

(** ** The stages of [chat_json] *)

Section Stages.
Local Open Scope N_scope.

Variable err : str -> exn.
Hypothesis err_own : forall p, err p <> JSONDecodeError /\ err p <> AttributeError.

Lemma extract_direct (text : str) (v : json) :
  json_loads text = Some v -> extract_json err (JString text) = inr v.
Proof. intros H. unfold extract_json. now rewrite H. Qed.

Lemma extract_fence (text pre tag ws g post : str) :
  json_loads text = None ->
  text = pre ++ Re.TICKS ++ tag ++ ws ++ g ++ Re.TICKS ++ post ->
  Spec.first_fence pre tag ws g post ->
  extract_json err (JString text)
  = match json_loads (strip g) with
    | Some v => inr v
    | None => inl JSONDecodeError
    end.
Proof.
  intros Hl -> [Hpre [Htag [Hws [Hg Hno]]]].
  unfold extract_json. rewrite Hl.
  destruct (search_fence_first pre tag ws g post Hpre Htag Hws Hg Hno)
    as [m [Hm H1]].
  rewrite Hm, H1. reflexivity.
Qed.

Lemma no_fence_search (text : str) :
  ~ Spec.has_fence text -> Re.search Re.FENCE text = None.
Proof.
  intros H. apply is_some_false.
  destruct (Spec.is_some (Re.search Re.FENCE text)) eqn:E; [|reflexivity].
  now apply search_fence_iff in E.
Qed.

Lemma no_braces_search (text : str) :
  ~ Spec.has_braces text -> Re.search Re.BRACES text = None.
Proof.
  intros H. apply is_some_false.
  destruct (Spec.is_some (Re.search Re.BRACES text)) eqn:E; [|reflexivity].
  now apply search_braces_iff in E.
Qed.

Lemma extract_braces (text pre mid post : str) :
  json_loads text = None ->
  ~ Spec.has_fence text ->
  text = pre ++ [123] ++ mid ++ [125] ++ post ->
  ~ In 123 pre -> ~ In 125 post ->
  extract_json err (JString text)
  = match json_loads ([123] ++ mid ++ [125]) with
    | Some v => inr v
    | None => inl JSONDecodeError
    end.
Proof.
  intros Hl Hf -> Hpre Hpost.
  unfold extract_json. rewrite Hl, (no_fence_search _ Hf).
  destruct (search_braces_first pre mid post Hpre Hpost) as [m [Hm H0]].
  rewrite Hm, H0. reflexivity.
Qed.

Lemma extract_fence_found (text : str) :
  json_loads text = None -> Spec.has_fence text ->
  exists pre g post,
    text = pre ++ g ++ post
    /\ (forall v, json_loads (strip g) = Some v ->
                  extract_json err (JString text) = inr v)
    /\ (json_loads (strip g) = None ->
        extract_json err (JString text) = inl JSONDecodeError).
Proof.
  intros Hl Hf. unfold extract_json. rewrite Hl.
  apply search_fence_iff in Hf.
  destruct (Re.search Re.FENCE text) as [m|] eqn:E; [|discriminate].
  destruct (search_fence_group _ _ E) as [g G]. rewrite G.
  destruct (search_parts _ _ _ E) as [_ P].
  destruct (P g G) as [pre [post Ht]].
  exists pre, g, post. split; [exact Ht|].
  split; [intros v H | intros H]; now rewrite H.
Qed.

Lemma extract_preview_iff (text : str) :
  extract_json err (JString text)
  = inl (err (PARSE_MESSAGE ++ firstn 500 text))
  <-> json_loads text = None
      /\ ~ Spec.has_fence text /\ ~ Spec.has_braces text.
Proof.
  split.
  - intros H. unfold extract_json in H.
    destruct (err_own (PARSE_MESSAGE ++ firstn 500 text)) as [E1 E2].
    destruct (json_loads text) as [v|] eqn:Hl; [discriminate|].
    split; [reflexivity|].
    destruct (Re.search Re.FENCE text) as [m|] eqn:Ef.
    + exfalso. destruct (search_fence_group _ _ Ef) as [g Hg].
      rewrite Hg in H. destruct (json_loads (strip g)); congruence.
    + split.
      * intros Hf. apply search_fence_iff in Hf. now rewrite Ef in Hf.
      * intros Hb. apply search_braces_iff in Hb.
        destruct (Re.search Re.BRACES text) as [m|] eqn:Eb; [|discriminate].
        destruct (json_loads (Re.group0 m)); congruence.
  - intros [Hl [Hf Hb]]. unfold extract_json.
    now rewrite Hl, (no_fence_search _ Hf), (no_braces_search _ Hb).
Qed.

Lemma extract_fenced_object (t body tag ws1 ws2 : str) (v : json) :
  json_loads t = Some v ->
  t = 123 :: body ++ [125] ->
  contains Re.TICKS t = false ->
  tag = [] \/ tag = Re.JSON_TAG ->
  Spec.all_blank ws1 -> Spec.all_blank ws2 ->
  extract_json err (JString (Spec.fenced tag ws1 t ws2)) = inr v.
Proof.
  intros Hl Ht Hno Htag H1 H2.
  assert (E : Spec.fenced tag ws1 t ws2
              = [] ++ Re.TICKS ++ tag ++ ws1 ++ (t ++ ws2) ++ Re.TICKS ++ []).
  { unfold Spec.fenced. cbn [app]. now rewrite app_nil_r, <- !app_assoc. }
  rewrite (extract_fence (Spec.fenced tag ws1 t ws2) [] tag ws1 (t ++ ws2) []).
  - subst t. rewrite strip_object by exact H2. now rewrite Hl.
  - unfold Spec.fenced. apply json_loads_backtick.
  - exact E.
  - unfold Spec.first_fence. split; [reflexivity|].
    split; [|split; [exact H1|split]].
    + destruct Htag as [-> | ->]; [right | now left].
      split; [reflexivity|]. subst t.
      destruct H1 as [|c ws1 Hc H1]; cbn [app].
      * reflexivity.
      * unfold Re.JSON_TAG. cbn [startswith].
        destruct (106 =? c) eqn:J; [|reflexivity].
        apply N.eqb_eq in J. subst c. discriminate.
    + subst t. reflexivity.
    + subst t. rewrite <- app_assoc.
      change (123 :: body ++ [125]) with ((123 :: body) ++ [125]).
      apply (no_ticks_after_brace ws2 H2). exact Hno.
Qed.

End Stages.

Section ChatJson.
Local Open Scope N_scope.

Lemma parse_error_own (p : str) :
  Http.parse_error p <> JSONDecodeError /\ Http.parse_error p <> AttributeError.
Proof. split; discriminate. Qed.

Lemma value_error_own (p : str) :
  ValueError p <> JSONDecodeError /\ ValueError p <> AttributeError.
Proof. split; discriminate. Qed.

Lemma extract_follows_stages (err : str -> exn) (text : str) :
  (forall p, err p <> JSONDecodeError /\ err p <> AttributeError) ->
  Spec.follows_stages err text (extract_json err (JString text)).
Proof.
  intros Herr. unfold Spec.follows_stages.
  split; [apply extract_direct|].
  split; [intros Hl pre tag ws g post; now apply extract_fence|].
  split; [apply extract_fence_found|].
  split; [intros Hl Hf pre mid post; now apply extract_braces|].
  now apply extract_preview_iff.
Qed.

Lemma http_chat_json_of_chat (urlopen : Http.Request -> Http.urlopen_result)
  (self : Http.CopilotClient) (messages : messages_arg)
  (model vendor sp : option str) (log log' : list Http.Request)
  (text : json) :
  Http.chat urlopen self messages model vendor sp log = (inr text, log') ->
  Http.chat_json urlopen self messages model vendor sp log
  = (extract_json Http.parse_error text, log').
Proof.
  intros H. unfold Http.chat_json, Http.bind. rewrite H. reflexivity.
Qed.

Lemma grpc_chat_json_of_chat (Chat : Grpc.ChatRequest -> result Grpc.ChatReply)
  (self : Grpc.CopilotGrpcClient) (messages : messages_arg)
  (model vendor sp : option str) (log log' : list Grpc.rpc) (text : str) :
  Grpc.chat Chat self messages model vendor sp log = (inr text, log') ->
  Grpc.chat_json Chat self messages model vendor sp log
  = (extract_json ValueError (JString text), log').
Proof.
  intros H. unfold Grpc.chat_json. rewrite H. reflexivity.
Qed.

End ChatJson.

(** C3, as the code has it: for every text [chat] returns, [chat_json]
    returns the parsed text when the text parses.  Otherwise, when the text
    holds a fenced block, the result is decided by the content of the first
    one alone, stripped: its value when it parses, and the decoding error
    when parsing it raises that error; the braces are not tried then, and
    with any fenced block in the text the result is what parsing one part
    of the text gives.  Otherwise, when the text holds a braced part, the
    result is the value of the text from the first opening brace to the
    last closing brace, or the decoding error of that text.  The error with
    the preview of the first 500 characters is raised exactly when parsing
    the text raises the decoding error and the text holds neither a fenced
    block nor a braced part.  The HTTP client raises it as
    [CopilotClientError], the interface, and with it the gRPC client, as
    [ValueError]. *)
Theorem chat_json_stages :
  (forall urlopen self messages model vendor sp log log' text,
      Http.chat urlopen self messages model vendor sp log
      = (inr (JString text), log') ->
      exists r,
        Http.chat_json urlopen self messages model vendor sp log = (r, log')
        /\ Spec.follows_stages Http.parse_error text r)
  /\
  (forall Chat self messages model vendor sp log log' text,
      Grpc.chat Chat self messages model vendor sp log = (inr text, log') ->
      exists r,
        Grpc.chat_json Chat self messages model vendor sp log = (r, log')
        /\ Spec.follows_stages ValueError text r).
Proof.
  split.
  - intros urlopen self messages model vendor sp log log' text H.
    exists (extract_json Http.parse_error (JString text)). split.
    + now apply http_chat_json_of_chat.
    + apply extract_follows_stages, parse_error_own.
  - intros Chat self messages model vendor sp log log' text H.
    exists (extract_json ValueError (JString text)). split.
    + now apply grpc_chat_json_of_chat.
    + apply extract_follows_stages, value_error_own.
Qed.

(** C3, witness: a reply of prose gives the preview error, and a reply with
    a fenced block that is no JSON gives the decoding error. *)
Lemma chat_json_stages_witness :
  Http.chat_json Examples.prose_server Examples.demo_client
    (Prompt (lit "hi")) None None None []
  = (inl (Http.parse_error
            (PARSE_MESSAGE ++ firstn 500 (lit "no json here"))),
     [Examples.hi_request])
  /\ Http.chat_json Examples.mixed_server Examples.demo_client
       (Prompt (lit "hi")) None None None []
     = (inl JSONDecodeError, [Examples.hi_request]).
Proof.
  split.
  - destruct (proj1 chat_json_stages Examples.prose_server
                Examples.demo_client (Prompt (lit "hi")) None None None []
                [Examples.hi_request] (lit "no json here") eq_refl)
      as [r [Hr [_ [_ [_ [_ Hp]]]]]].
    rewrite Hr. f_equal. apply Hp. split; [reflexivity|]. split.
    + intros Hf. apply search_fence_iff in Hf. discriminate Hf.
    + intros Hb. apply search_braces_iff in Hb. discriminate Hb.
  - destruct (proj1 chat_json_stages Examples.mixed_server
                Examples.demo_client (Prompt (lit "hi")) None None None []
                [Examples.hi_request] (Examples.q "```x``` {'a': 1}") eq_refl)
      as [r [Hr [_ [Hf _]]]].
    rewrite Hr. f_equal.
    apply (Hf eq_refl [] [] [] (lit "x") (Examples.q " {'a': 1}") eq_refl).
    split; [reflexivity|]. split; [right; split; reflexivity|].
    split; [constructor|]. split; reflexivity.
Defined.

(** C3, counterexample: the reply holds a fenced block that is no JSON and
    then a JSON object.  The fallback of the specification goes on to the
    braces and returns the object; [chat_json] raises the decoding error of
    the second stage.  And for a reply that is only such a block all three
    stages fail, yet the error is not the one with the preview. *)
Lemma failed_fence_stops_the_fallback :
  Spec.claimed_extract Http.parse_error (Examples.q "```x``` {'a': 1}")
  = inr (JObject [(lit "a", JInt 1)])
  /\ Http.chat_json Examples.mixed_server Examples.demo_client
       (Prompt (lit "hi")) None None None []
     = (inl JSONDecodeError, [Examples.hi_request])
  /\ Spec.claimed_extract Http.parse_error (lit "```x```")
     = inl (Http.parse_error (PARSE_MESSAGE ++ lit "```x```"))
  /\ extract_json Http.parse_error (JString (lit "```x```"))
     = inl JSONDecodeError.
Proof. repeat split; vm_compute; reflexivity. Qed.

(** C4, as the code has it: for every text that is a JSON object, from its
    opening to its closing brace, [chat_json] returns the value of the
    text; and for the same text wrapped in a fenced block, with or without
    the tag [json] and with any blanks around the text, it returns the same
    value, provided the text holds no three backticks in a row. *)
Theorem fenced_object_round_trip (t body tag ws1 ws2 : str) (v : json) :
  json_loads t = Some v ->
  t = 123%N :: body ++ [125%N] ->
  contains Re.TICKS t = false ->
  tag = [] \/ tag = Re.JSON_TAG ->
  Spec.all_blank ws1 -> Spec.all_blank ws2 ->
  (forall urlopen self messages model vendor sp log log' text,
      text = t \/ text = Spec.fenced tag ws1 t ws2 ->
      Http.chat urlopen self messages model vendor sp log
      = (inr (JString text), log') ->
      Http.chat_json urlopen self messages model vendor sp log
      = (inr v, log'))
  /\
  (forall Chat self messages model vendor sp log log' text,
      text = t \/ text = Spec.fenced tag ws1 t ws2 ->
      Grpc.chat Chat self messages model vendor sp log = (inr text, log') ->
      Grpc.chat_json Chat self messages model vendor sp log = (inr v, log')).
Proof.
  intros Hl Ht Hno Htag H1 H2. split.
  - intros urlopen self messages model vendor sp log log' text Htext H.
    rewrite (http_chat_json_of_chat _ _ _ _ _ _ _ _ _ H). f_equal.
    destruct Htext as [-> | ->].
    + now apply extract_direct.
    + apply (extract_fenced_object Http.parse_error t body tag ws1 ws2 v);
        assumption.
  - intros Chat self messages model vendor sp log log' text Htext H.
    rewrite (grpc_chat_json_of_chat _ _ _ _ _ _ _ _ _ H). f_equal.
    destruct Htext as [-> | ->].
    + now apply extract_direct.
    + apply (extract_fenced_object ValueError t body tag ws1 ws2 v);
        assumption.
Qed.

(** C4, witness: the object with the field [a] of value one, in a block
    tagged [json], with a line feed on either side. *)
Lemma fenced_object_round_trip_witness :
  Http.chat_json Examples.fencing_server Examples.demo_client
    (Prompt (lit "hi")) None None None []
  = (inr (JObject [(lit "a", JInt 1)]), [Examples.hi_request]).
Proof.
  assert (B : Spec.all_blank [10%N]) by (repeat constructor).
  apply (proj1 (fenced_object_round_trip
                  (Examples.q "{'a': 1}") (Examples.q "'a': 1")
                  Re.JSON_TAG [10%N] [10%N] (JObject [(lit "a", JInt 1)])
                  eq_refl eq_refl eq_refl (or_intror eq_refl) B B)
          Examples.fencing_server Examples.demo_client (Prompt (lit "hi"))
          None None None [] [Examples.hi_request]
          (Spec.fenced Re.JSON_TAG [10%N] (Examples.q "{'a': 1}") [10%N])
          (or_intror eq_refl)).
  vm_compute. reflexivity.
Defined.

(** C4, counterexample: the object whose field holds three backticks
    parses as it is, and wrapped in a fenced block it makes [chat_json]
    raise the decoding error. *)
Lemma backticks_break_the_fence :
  json_loads Examples.ticks_object
  = Some (JObject [(lit "a", JString (lit "```"))])
  /\ extract_json Http.parse_error (JString Examples.ticks_object)
     = inr (JObject [(lit "a", JString (lit "```"))])
  /\ extract_json Http.parse_error
       (JString (Spec.fenced Re.JSON_TAG [10%N] Examples.ticks_object [10%N]))
     = inl JSONDecodeError.
Proof. repeat split; vm_compute; reflexivity. Qed.

(* ================================================================== *)
(** * Part III: further properties of the clients and the harness      *)
(* ================================================================== *)

(** ** The exchanges of the HTTP client *)

Section Exchanges.
Local Open Scope N_scope.

Variable urlopen : Http.Request -> Http.urlopen_result.

Lemma sends_lift {A : Type} (r : result A) : Ref.sends (Http.lift r) [].
Proof. intros log. simpl. now rewrite app_nil_r. Qed.

(** What follows an exchange without sending anything leaves the requests
    of the exchange as they are, whether it runs or not. *)
Lemma sends_bind {A B : Type} (m : Http.M A) (k : A -> Http.M B)
  (a : list Http.Request) :
  Ref.sends m a -> (forall x, Ref.sends (k x) []) ->
  Ref.sends (Http.bind m k) a.
Proof.
  intros Hm Hk log. unfold Http.bind. specialize (Hm log).
  destruct (m log) as [[e|x] log']; simpl in Hm; subst log'.
  - reflexivity.
  - rewrite (Hk x (log ++ a)). now rewrite app_nil_r.
Qed.

Lemma sends_exchange (self : Http.CopilotClient) (req : Http.Request) :
  Ref.sends (Http.exchange urlopen self req) [req].
Proof. intros log. reflexivity. Qed.

Lemma sends_get (self : Http.CopilotClient) (path : str) :
  Ref.sends (Http._get urlopen self path) [Ref.get_request self path].
Proof. apply sends_exchange. Qed.

Lemma sends_post (self : Http.CopilotClient) (path : str) (payload : json) :
  Ref.sends (Http._post urlopen self path payload)
    [Ref.post_request self path payload].
Proof. apply sends_exchange. Qed.

Lemma sends_status (self : Http.CopilotClient) :
  Ref.sends (Http.status urlopen self) [Ref.get_request self (lit "/status")].
Proof.
  unfold Http.status. apply sends_bind; [apply sends_get|].
  intros x. apply sends_lift.
Qed.

Lemma sends_list_models (self : Http.CopilotClient) :
  Ref.sends (Http.list_models urlopen self)
    [Ref.get_request self (lit "/models")].
Proof.
  unfold Http.list_models. apply sends_bind; [apply sends_get|].
  intros x. rewrite <- (app_nil_r []).
  apply sends_bind; [apply sends_lift|].
  intros y. apply sends_bind; [apply sends_lift|].
  intros z. apply sends_lift.
Qed.

Lemma sends_chat (self : Http.CopilotClient) (messages : messages_arg)
  (model vendor sp : option str) :
  Ref.sends (Http.chat urlopen self messages model vendor sp)
    [Ref.post_request self (lit "/chat")
       (Http._build_payload self messages model vendor sp)].
Proof.
  unfold Http.chat. apply sends_bind; [apply sends_post|].
  intros x. apply sends_lift.
Qed.

Lemma sends_chat_full (self : Http.CopilotClient) (messages : messages_arg)
  (model vendor sp : option str) :
  Ref.sends (Http.chat_full urlopen self messages model vendor sp)
    [Ref.post_request self (lit "/chat")
       (Http._build_payload self messages model vendor sp)].
Proof.
  unfold Http.chat_full. apply sends_bind; [apply sends_post|].
  intros x. apply sends_lift.
Qed.

Lemma sends_chat_json (self : Http.CopilotClient) (messages : messages_arg)
  (model vendor sp : option str) :
  Ref.sends (Http.chat_json urlopen self messages model vendor sp)
    [Ref.post_request self (lit "/chat")
       (Http._build_payload self messages model vendor sp)].
Proof.
  unfold Http.chat_json. apply sends_bind; [apply sends_chat|].
  intros x. apply sends_lift.
Qed.

(** What an operation built on one exchange returns, from what [urlopen]
    did with the request. *)
Lemma exchange_then {A : Type} (self : Http.CopilotClient)
  (req : Http.Request) (k : json -> result A) (log : list Http.Request) :
  fst (Http.bind (Http.exchange urlopen self req)
         (fun data => Http.lift (k data)) log)
  = match urlopen req with
    | Http.Response chunks =>
        match Http.read_json chunks with
        | inr data => k data
        | inl e => inl e
        end
    | Http.HTTPError code body =>
        inl (CopilotClientError
               (JString (Http.http_error_message code body)))
    | Http.URLError reason =>
        inl (CopilotClientError
               (JString (Http.cannot_connect_message (Http.base_url self)
                           reason)))
    end.
Proof.
  unfold Http.bind, Http.exchange, Http.lift.
  destruct (urlopen req) as [chunks|code body|reason]; try reflexivity.
  destruct (Http.read_json chunks); reflexivity.
Qed.

Lemma read_json_error (chunks : list bytes) (e : exn) :
  Http.read_json chunks = inl e ->
  e = UnicodeDecodeError \/ e = JSONDecodeError.
Proof.
  unfold Http.read_json. destruct (decode (concat chunks)) as [t|].
  - destruct (json_loads t); [discriminate|]. intros H; injection H as <-.
    now right.
  - intros H; injection H as <-. now left.
Qed.

Lemma comprehension_error (l : list json) (e : exn) :
  Http.comprehension Http.model_info l = inl e -> e = AttributeError.
Proof.
  induction l as [|m l IH]; simpl; [discriminate|].
  destruct (Http.model_info m) as [e'|i] eqn:M.
  - destruct m; simpl in M; try discriminate; injection M as <-;
      intros H; now injection H as <-.
  - destruct (Http.comprehension Http.model_info l) as [e'|bs];
      [|discriminate].
    intros H; injection H as <-. now apply IH.
Qed.

Lemma list_models_of_reply (self : Http.CopilotClient)
  (log : list Http.Request) :
  fst (Http.list_models urlopen self log)
  = fst (Http.bind (Http.exchange urlopen self
                      (Ref.get_request self (lit "/models")))
           (fun data =>
              Http.lift
                match py_get data (lit "models") (JArray []) with
                | inl e => inl e
                | inr models =>
                    match Http.py_iter models with
                    | inl e => inl e
                    | inr items => Http.comprehension Http.model_info items
                    end
                end) log).
Proof.
  unfold Http.list_models, Http._get, Http.bind, Http.exchange, Http.lift.
  fold (Ref.get_request self (lit "/models")).
  destruct (urlopen (Ref.get_request self (lit "/models")))
    as [chunks|code body|reason]; try reflexivity.
  destruct (Http.read_json chunks) as [e|data]; [reflexivity|].
  destruct (py_get data (lit "models") (JArray [])) as [e|models];
    [reflexivity|].
  destruct (Http.py_iter models); reflexivity.
Qed.

End Exchanges.

Section PlainUrls.
Local Open Scope N_scope.

(** A path of plain characters after a URL the constructor takes gives a
    URL it takes. *)
Lemma plain_url_path (base path : str) :
  Http.plain_url base = true ->
  forallb Http.plain_char path = true ->
  Http.plain_url (base ++ path) = true.
Proof.
  unfold Http.plain_url. intros H P.
  apply andb_true_iff in H as [S F]. apply andb_true_iff. split.
  - apply orb_true_iff in S as [S|S]; apply orb_true_iff;
      [left | right]; now apply startswith_more.
  - rewrite forallb_app. now rewrite F, P.
Qed.

End PlainUrls.

(** X1: one request for each operation.  For a client whose base URL the
    request constructor takes, every operation of the HTTP client other
    than the stream hands exactly one request to [urlopen], whatever the
    reply and whether the operation returns or raises: [status] and
    [list_models] a GET of [/status] and [/models] with the timeout of 30
    seconds, and, for messages that are a prompt, [ChatMessage] objects or
    dicts of texts, [chat], [chat_full] and [chat_json] a POST of the
    payload to [/chat] with the timeout of 300 seconds.  The URL of each
    request is one the constructor takes, and nothing is sent twice. *)
Theorem one_request_per_operation
  (urlopen : Http.Request -> Http.urlopen_result)
  (self : Http.CopilotClient) (messages : messages_arg)
  (model vendor sp : option str) (log : list Http.Request) :
  Http.plain_url (Http.base_url self) = true ->
  let get path :=
    {| Http.method := lit "GET"; Http.url := Http.base_url self ++ path;
       Http.headers := Http._headers self; Http.data := None;
       Http.timeout := 30 |} in
  let post :=
    {| Http.method := lit "POST";
       Http.url := Http.base_url self ++ lit "/chat";
       Http.headers := Http._headers self;
       Http.data := Some (Http._build_payload self messages model vendor sp);
       Http.timeout := 300 |} in
  Forall (fun r => Http.plain_url (Http.url r) = true)
    [get (lit "/status"); get (lit "/models"); post]
  /\ snd (Http.status urlopen self log) = log ++ [get (lit "/status")]
  /\ snd (Http.list_models urlopen self log) = log ++ [get (lit "/models")]
  /\ (Ref.text_only messages = true ->
      snd (Http.chat urlopen self messages model vendor sp log)
      = log ++ [post]
      /\ snd (Http.chat_full urlopen self messages model vendor sp log)
         = log ++ [post]
      /\ snd (Http.chat_json urlopen self messages model vendor sp log)
         = log ++ [post]).
Proof.
  intros P. cbv zeta. split; [|split; [|split]].
  - repeat constructor; cbn [Http.url]; now apply plain_url_path.
  - apply sends_status.
  - apply sends_list_models.
  - intros _. split; [|split].
    + apply sends_chat.
    + apply sends_chat_full.
    + apply sends_chat_json.
Qed.

(** X1, witness: the client for [http://127.0.0.1:3741], a prompt. *)
Lemma one_request_per_operation_witness :
  snd (Http.status Examples.accepting_server Examples.demo_client [])
  = [Examples.status_request]
  /\ snd (Http.chat_json Examples.accepting_server Examples.demo_client
            (Prompt (lit "hi")) None None None [])
     = [Examples.hi_request].
Proof.
  destruct (one_request_per_operation Examples.accepting_server
              Examples.demo_client (Prompt (lit "hi")) None None None []
              ltac:(vm_compute; reflexivity)) as [_ [H1 [_ H2]]].
  split; [exact H1|].
  destruct (H2 eq_refl) as [_ [_ H3]]. exact H3.
Defined.

(** X2: the two exceptions of [urlopen] the client translates.  For a
    client whose base URL the request constructor takes: when [urlopen]
    raises [HTTPError], [status], [list_models], [chat] and [chat_full]
    raise [CopilotClientError] with the message [HTTP code: body]; when it
    raises [URLError], they raise [CopilotClientError] with a message that
    names the base URL of the client and the reason; and when [urlopen]
    returns a response, none of the four raises [CopilotClientError],
    whatever the body is. *)
Theorem transport_errors_are_translated
  (urlopen : Http.Request -> Http.urlopen_result)
  (self : Http.CopilotClient) (messages : messages_arg)
  (model vendor sp : option str) (log : list Http.Request) :
  Http.plain_url (Http.base_url self) = true ->
  Ref.text_only messages = true ->
  let translated {A : Type} (req : Http.Request) (r : result A) :=
    match Ref.transport_error self (urlopen req) with
    | Some e => r = inl e
    | None => forall a, r <> inl (CopilotClientError a)
    end in
  translated (Ref.get_request self (lit "/status"))
    (fst (Http.status urlopen self log))
  /\ translated (Ref.get_request self (lit "/models"))
       (fst (Http.list_models urlopen self log))
  /\ translated
       (Ref.post_request self (lit "/chat")
          (Http._build_payload self messages model vendor sp))
       (fst (Http.chat urlopen self messages model vendor sp log))
  /\ translated
       (Ref.post_request self (lit "/chat")
          (Http._build_payload self messages model vendor sp))
       (fst (Http.chat_full urlopen self messages model vendor sp log)).
Proof.
  intros _ _. cbv zeta. split; [|split; [|split]].
  - unfold Http.status, Http._get.
    fold (Ref.get_request self (lit "/status")). rewrite exchange_then.
    destruct (urlopen _) as [chunks|code body|reason]; try reflexivity.
    simpl. intros a. destruct (Http.read_json chunks) as [e|data] eqn:R.
    + destruct (read_json_error _ _ R) as [-> | ->]; discriminate.
    + destruct data; discriminate.
  - rewrite list_models_of_reply, exchange_then.
    destruct (urlopen _) as [chunks|code body|reason]; try reflexivity.
    simpl. intros a. destruct (Http.read_json chunks) as [e|data] eqn:R.
    + destruct (read_json_error _ _ R) as [-> | ->]; discriminate.
    + destruct (py_get data (lit "models") (JArray [])) as [e|models] eqn:G.
      * destruct data; simpl in G; try discriminate;
          injection G as <-; discriminate.
      * destruct (Http.py_iter models) as [e|items] eqn:I.
        -- destruct models; simpl in I; try discriminate;
             injection I as <-; discriminate.
        -- destruct (Http.comprehension Http.model_info items) as [e|infos]
             eqn:C; [|discriminate].
           rewrite (comprehension_error _ _ C). discriminate.
  - unfold Http.chat, Http._post.
    fold (Ref.post_request self (lit "/chat")
            (Http._build_payload self messages model vendor sp)).
    rewrite exchange_then.
    destruct (urlopen _) as [chunks|code body|reason]; try reflexivity.
    simpl. intros a. destruct (Http.read_json chunks) as [e|data] eqn:R.
    + destruct (read_json_error _ _ R) as [-> | ->]; discriminate.
    + destruct data; discriminate.
  - unfold Http.chat_full, Http._post.
    fold (Ref.post_request self (lit "/chat")
            (Http._build_payload self messages model vendor sp)).
    rewrite exchange_then.
    destruct (urlopen _) as [chunks|code body|reason]; try reflexivity.
    simpl. intros a. destruct (Http.read_json chunks) as [e|data] eqn:R.
    + destruct (read_json_error _ _ R) as [-> | ->]; discriminate.
    + destruct data; discriminate.
Qed.

(** X2, witness: the client for [http://127.0.0.1:3741] against the server
    that answers 400 and against the one out of reach. *)
Lemma transport_errors_are_translated_witness :
  fst (Http.status Examples.rejecting_server Examples.demo_client [])
  = inl (CopilotClientError
           (JString (Examples.q
              "HTTP 400: {'error': 'messages must not be empty'}")))
  /\ fst (Http.chat Examples.unreachable_server Examples.demo_client
            (Prompt (lit "hi")) None None None [])
     = inl (CopilotClientError
              (JString (lit "Cannot connect to Copilot Bridge at http://127.0.0.1:3741. Is VS Code running with the extension? Error: [Errno 111] Connection refused"))).
Proof.
  split.
  - exact (proj1 (transport_errors_are_translated Examples.rejecting_server
                    Examples.demo_client (Prompt (lit "hi")) None None None
                    [] ltac:(vm_compute; reflexivity) eq_refl)).
  - exact (proj1 (proj2 (proj2
             (transport_errors_are_translated Examples.unreachable_server
                Examples.demo_client (Prompt (lit "hi")) None None None
                [] ltac:(vm_compute; reflexivity) eq_refl)))).
Defined.

(** X3: [chat] returns the content of what [chat_full] returns for the
    same call, raises what [chat_full] raises and sends the same request,
    in the HTTP client and in the gRPC client. *)
Theorem chat_is_the_content_of_chat_full :
  (forall urlopen self messages model vendor sp log,
      Http.chat urlopen self messages model vendor sp log
      = (match fst (Http.chat_full urlopen self messages model vendor sp log)
         with
         | inr resp => inr (response_content resp)
         | inl e => inl e
         end,
         snd (Http.chat_full urlopen self messages model vendor sp log)))
  /\ (forall Chat self messages model vendor sp log,
        (match fst (Grpc.chat Chat self messages model vendor sp log) with
         | inr text => inr (JString text)
         | inl e => inl e
         end,
         snd (Grpc.chat Chat self messages model vendor sp log))
        = (match
             fst (Grpc.chat_full Chat self messages model vendor sp log)
           with
           | inr resp => inr (response_content resp)
           | inl e => inl e
           end,
           snd (Grpc.chat_full Chat self messages model vendor sp log))).
Proof.
  split.
  - intros urlopen self messages model vendor sp log.
    unfold Http.chat, Http.chat_full, Http.bind, Http._post, Http.exchange,
      Http.lift.
    destruct (urlopen _) as [chunks|code body|reason]; try reflexivity.
    destruct (Http.read_json chunks) as [e|data]; [reflexivity|].
    destruct data; reflexivity.
  - intros Chat self messages model vendor sp log.
    unfold Grpc.chat, Grpc.chat_full, Grpc.call_chat.
    destruct (Grpc._build_request self messages model vendor sp)
      as [e|req]; [reflexivity|].
    destruct (Chat req); reflexivity.
Qed.

Section Models.
Local Open Scope N_scope.

Lemma comprehension_Forall2 (l : list json) :
  forall infos,
    Http.comprehension Http.model_info l = inr infos
    <-> Forall2 (fun m i => Http.model_info m = inr i) l infos.
Proof.
  induction l as [|m l IH]; intros infos; simpl.
  - split.
    + intros H; injection H as <-. constructor.
    + intros H; inversion H. reflexivity.
  - destruct (Http.model_info m) as [e|i] eqn:M.
    + split; [discriminate|]. intros H; inversion H; congruence.
    + destruct (Http.comprehension Http.model_info l) as [e|bs] eqn:C.
      * split; [discriminate|]. intros H; inversion H as [|? ? ? ? _ T]; subst.
        apply IH in T. discriminate.
      * split.
        -- intros H; injection H as <-. constructor; [exact M|].
           now apply IH.
        -- intros H; inversion H as [|? i' ? l' Hi T]; subst.
           apply IH in T. congruence.
Qed.

Lemma comprehension_fails (l : list json) :
  (exists e, Http.comprehension Http.model_info l = inl e)
  <-> Exists (fun m => forall d, m <> JObject d) l.
Proof.
  induction l as [|m l IH]; simpl.
  - split; [intros [e H]; discriminate | intros H; inversion H].
  - destruct (Http.model_info m) as [e|i] eqn:M.
    + split; [|intros _; now exists e]. intros _. left.
      intros d ->. discriminate.
    + destruct m; try discriminate.
      destruct (Http.comprehension Http.model_info l) as [e|bs].
      * split; [|intros _; now exists e]. intros _. right.
        apply IH. now exists e.
      * split; [intros [e H]; discriminate|].
        intros H. inversion H as [? ? Hd|? ? T]; subst.
        -- now destruct (Hd d).
        -- apply IH in T. destruct T as [e T]. discriminate.
Qed.

End Models.

(** X4: what [list_models] makes of a reply that is a JSON object.  Without
    a [models] field it returns the empty list.  With a [models] array it
    returns one [ModelInfo] for each element, in the order of the array,
    each one read from its object with the defaults of [model_info], and it
    raises [AttributeError] as soon as one element is not an object.  A
    [models] field that is an empty string or an empty object gives the
    empty list, a non-empty one [AttributeError], and a number, a boolean
    or null [TypeError]. *)
Theorem list_models_reads_the_models_array
  (urlopen : Http.Request -> Http.urlopen_result)
  (self : Http.CopilotClient) (log : list Http.Request)
  (chunks : list bytes) (d : dict) :
  urlopen (Ref.get_request self (lit "/models")) = Http.Response chunks ->
  Http.read_json chunks = inr (JObject d) ->
  let r := fst (Http.list_models urlopen self log) in
  (dict_get d (lit "models") = None -> r = inr [])
  /\ (forall l,
        dict_get d (lit "models") = Some (JArray l) ->
        (forall infos,
            r = inr infos
            <-> Forall2 (fun m i => Http.model_info m = inr i) l infos)
        /\ (r = inl AttributeError
            <-> Exists (fun m => forall dm, m <> JObject dm) l))
  /\ (forall v,
        dict_get d (lit "models") = Some v ->
        (forall l, v <> JArray l) ->
        r = match v with
            | JString [] | JObject [] => inr []
            | JString _ | JObject _ => inl AttributeError
            | _ => inl TypeError
            end).
Proof.
  intros U R. cbv zeta. rewrite list_models_of_reply, exchange_then, U, R.
  unfold py_get, dict_get_default. split; [|split].
  - intros ->. reflexivity.
  - intros l ->. simpl. split.
    + apply comprehension_Forall2.
    + rewrite <- comprehension_fails. split; [intros H; now exists AttributeError|].
      intros [e H]. rewrite H. now rewrite (comprehension_error _ _ H).
  - intros v -> Hv. destruct v as [| | | | | |s|l|dm]; try reflexivity.
    + destruct s; reflexivity.
    + now destruct (Hv l).
    + destruct dm; reflexivity.
Qed.

(** X4, witness: the model list of the specification's scenario gives
    exactly one [ModelInfo], with the id [gpt-4o]. *)
Lemma list_models_reads_the_models_array_witness :
  exists i,
    fst (Http.list_models Examples.models_server Examples.demo_client [])
    = inr [i]
    /\ model_id i = JString (lit "gpt-4o")
    /\ max_input_tokens i = JInt 128000.
Proof.
  destruct (list_models_reads_the_models_array Examples.models_server
              Examples.demo_client []
              [Examples.bq "{'models':[{'id':'gpt-4o','name':'GPT-4o','vendor':'copilot',";
               Examples.bq "'family':'gpt-4o','version':'1','maxInputTokens':128000}]}"]
              [(lit "models",
                JArray [JObject [(lit "id", JString (lit "gpt-4o"));
                                 (lit "name", JString (lit "GPT-4o"));
                                 (lit "vendor", JString (lit "copilot"));
                                 (lit "family", JString (lit "gpt-4o"));
                                 (lit "version", JString (lit "1"));
                                 (lit "maxInputTokens", JInt 128000)]])]
              eq_refl ltac:(vm_compute; reflexivity)) as [_ [H _]].
  destruct (H _ eq_refl) as [H1 _].
  eexists. split; [|split].
  - apply H1. constructor; [reflexivity | constructor].
  - vm_compute. reflexivity.
  - vm_compute. reflexivity.
Defined.

(** ** The base URL and the default client *)

Section BaseUrl.
Local Open Scope N_scope.

Lemma lstrip_slash_spec (l : str) :
  exists n,
    l = repeat 47 n ++ lstrip_by (N.eqb 47) l
    /\ forall t, lstrip_by (N.eqb 47) l <> 47 :: t.
Proof.
  induction l as [|c l [n [E H]]].
  - exists 0%nat. split; [reflexivity | discriminate].
  - cbn [lstrip_by]. destruct (47 =? c) eqn:C.
    + apply N.eqb_eq in C. subst c. exists (S n). split; [|exact H].
      cbn [repeat app]. now rewrite <- E.
    + exists 0%nat. split; [reflexivity|].
      intros t Ht. injection Ht as -> _. now rewrite N.eqb_refl in C.
Qed.

Lemma lstrip_by_repeat (f : N -> bool) (c : N) (n : nat) (l : str) :
  f c = true -> lstrip_by f (repeat c n ++ l) = lstrip_by f l.
Proof.
  intros H. induction n as [|n IH]; cbn [repeat app lstrip_by];
    [reflexivity|]. now rewrite H.
Qed.

Lemma lstrip_by_idem (f : N -> bool) (l : str) :
  lstrip_by f (lstrip_by f l) = lstrip_by f l.
Proof.
  induction l as [|c l IH]; cbn [lstrip_by]; [reflexivity|].
  destruct (f c) eqn:C; [exact IH|]. cbn [lstrip_by]. now rewrite C.
Qed.

Lemma rstrip_slash_spec (s : str) :
  exists n,
    s = rstrip_slash s ++ repeat 47 n /\ ~ Ref.ends_with_slash (rstrip_slash s).
Proof.
  unfold rstrip_slash, rstrip_by.
  destruct (lstrip_slash_spec (rev s)) as [n [E H]]. exists n. split.
  - rewrite <- (rev_involutive s) at 1. rewrite E at 1.
    now rewrite rev_app_distr, rev_repeat.
  - intros [t Ht]. apply (f_equal (@rev N)) in Ht.
    rewrite rev_involutive, rev_app_distr in Ht. simpl in Ht.
    exact (H _ Ht).
Qed.

Lemma rstrip_slash_more (s : str) (n : nat) :
  rstrip_slash (s ++ repeat 47 n) = rstrip_slash s.
Proof.
  unfold rstrip_slash, rstrip_by.
  rewrite rev_app_distr, rev_repeat, lstrip_by_repeat; [reflexivity|].
  reflexivity.
Qed.

Lemma rstrip_slash_idem (s : str) :
  rstrip_slash (rstrip_slash s) = rstrip_slash s.
Proof.
  unfold rstrip_slash, rstrip_by. now rewrite rev_involutive, lstrip_by_idem.
Qed.

End BaseUrl.

(** X5: the constructor of the HTTP client drops the slashes at the end of
    the base URL, all of them and nothing else: the argument is the stored
    base URL followed by slashes only, the stored base URL does not end with
    a slash, and more slashes at the end of the argument give the same
    client.  The URL of a request is the stored base URL followed by the
    path. *)
Theorem trailing_slashes_are_dropped (b : str) (n : nat)
  (k m v : option str) (path : str) :
  let self := Http.new_client b k m v in
  (exists j, b = Http.base_url self ++ repeat 47%N j)
  /\ ~ Ref.ends_with_slash (Http.base_url self)
  /\ Http.new_client (b ++ repeat 47%N n) k m v = self
  /\ Http.url (Ref.get_request self path) = rstrip_slash b ++ path.
Proof.
  cbv zeta. destruct (rstrip_slash_spec b) as [j [E H]].
  split; [now exists j|]. split; [exact H|]. split; [|reflexivity].
  unfold Http.new_client. now rewrite rstrip_slash_more.
Qed.

(** X6: [ask_copilot] gives what [chat] of a client built from the base
    URL alone gives for the prompt, and leaves such a client in
    [_default_client], whether it built the client or took the one of an
    earlier call: as long as only [ask_copilot] assigns [_default_client],
    keeping the client between calls changes no result. *)
Theorem ask_copilot_is_chat_of_a_fresh_client
  (urlopen : Http.Request -> Http.urlopen_result)
  (prompt : str) (model sp : option str) (base : str)
  (g : option Http.CopilotClient) (log : list Http.Request) :
  Ref.built_by_ask g ->
  Http.ask_copilot urlopen prompt model sp base g log
  = (Http.chat urlopen (Http.new_client base None None None)
       (Prompt prompt) model None sp log,
     Some (Http.new_client base None None None))
  /\ Ref.built_by_ask
       (snd (Http.ask_copilot urlopen prompt model sp base g log)).
Proof.
  intros H.
  assert (E : Http.ask_copilot urlopen prompt model sp base g log
              = (Http.chat urlopen (Http.new_client base None None None)
                   (Prompt prompt) model None sp log,
                 Some (Http.new_client base None None None))).
  { unfold Http.ask_copilot. destruct g as [c|]; [|reflexivity].
    destruct H as [b0 ->].
    destruct (str_eqb (Http.base_url (Http.new_client b0 None None None))
                base) eqn:Q; [|reflexivity].
    apply str_eqb_eq in Q. simpl in Q. cbn [negb].
    assert (C : Http.new_client b0 None None None
                = Http.new_client base None None None).
    { unfold Http.new_client. rewrite <- Q. now rewrite rstrip_slash_idem. }
    now rewrite C. }
  split; [exact E|]. rewrite E. simpl. now exists base.
Qed.

(** X6, witness: the default client was built for the URL with a slash at
    its end, the call gives the URL without it, and the client is taken
    over. *)
Lemma ask_copilot_is_chat_of_a_fresh_client_witness :
  Http.ask_copilot Examples.accepting_server (lit "hi") None None
    (lit "http://127.0.0.1:3741") (Some Examples.demo_client) []
  = (Http.chat Examples.accepting_server
       (Http.new_client (lit "http://127.0.0.1:3741") None None None)
       (Prompt (lit "hi")) None None None [],
     Some (Http.new_client (lit "http://127.0.0.1:3741") None None None))
  /\ Ref.built_by_ask
       (snd (Http.ask_copilot Examples.accepting_server (lit "hi") None None
               (lit "http://127.0.0.1:3741") (Some Examples.demo_client) [])).
Proof.
  apply (ask_copilot_is_chat_of_a_fresh_client Examples.accepting_server
           (lit "hi") None None (lit "http://127.0.0.1:3741")
           (Some Examples.demo_client) []).
  simpl. exists (lit "http://127.0.0.1:3741/"). reflexivity.
Defined.

(** X7: a chat reply that is a JSON object without text content.  When the
    object has no [content] field, [chat] returns the empty string and
    [chat_json] raises [CopilotClientError] with the message of the failed
    extraction and an empty preview.  When the field holds a value that is
    not a string, [chat] returns that value as it is and [chat_json] raises
    [TypeError]. *)
Theorem replies_without_text_content
  (urlopen : Http.Request -> Http.urlopen_result)
  (self : Http.CopilotClient) (messages : messages_arg)
  (model vendor sp : option str) (log : list Http.Request)
  (chunks : list bytes) (d : dict) :
  urlopen (Ref.post_request self (lit "/chat")
             (Http._build_payload self messages model vendor sp))
  = Http.Response chunks ->
  Http.read_json chunks = inr (JObject d) ->
  (dict_get d Http.K_CONTENT = None ->
   fst (Http.chat urlopen self messages model vendor sp log)
   = inr (JString [])
   /\ fst (Http.chat_json urlopen self messages model vendor sp log)
      = inl (CopilotClientError
               (JString (lit "Could not parse JSON from response:" ++ [10%N]))))
  /\ (forall v,
        dict_get d Http.K_CONTENT = Some v ->
        (forall s, v <> JString s) ->
        fst (Http.chat urlopen self messages model vendor sp log) = inr v
        /\ fst (Http.chat_json urlopen self messages model vendor sp log)
           = inl TypeError).
Proof.
  intros U R.
  assert (C : Http.chat urlopen self messages model vendor sp log
              = (inr (dict_get_default d Http.K_CONTENT (JString [])),
                 log ++ [Ref.post_request self (lit "/chat")
                           (Http._build_payload self messages model vendor
                              sp)])).
  { unfold Http.chat, Http._post, Http.bind, Http.exchange, Http.lift.
    fold (Ref.post_request self (lit "/chat")
            (Http._build_payload self messages model vendor sp)).
    rewrite U, R. reflexivity. }
  rewrite (http_chat_json_of_chat _ _ _ _ _ _ _ _ _ C), C.
  unfold dict_get_default. split.
  - intros ->. split; reflexivity.
  - intros v -> Hv. split; [reflexivity|].
    destruct v; try reflexivity. now destruct (Hv s).
Qed.

(** X7, witness: a reply with an id and a model only. *)
Lemma replies_without_text_content_witness :
  fst (Http.chat Examples.silent_server Examples.demo_client
         (Prompt (lit "hi")) None None None [])
  = inr (JString [])
  /\ fst (Http.chat_json Examples.silent_server Examples.demo_client
            (Prompt (lit "hi")) None None None [])
     = inl (CopilotClientError
              (JString (lit "Could not parse JSON from response:" ++ [10%N]))).
Proof.
  destruct (replies_without_text_content Examples.silent_server
              Examples.demo_client (Prompt (lit "hi")) None None None []
              [Examples.bq "{'id': 8, 'model': 'gpt-4o'}"]
              [(lit "id", JInt 8); (lit "model", JString (lit "gpt-4o"))]
              eq_refl ltac:(vm_compute; reflexivity)) as [H _].
  apply H. vm_compute. reflexivity.
Defined.

(** ** The stream of the HTTP client, request and reads *)

Section StreamRequest.
Local Open Scope N_scope.

Variable urlopen : Http.Request -> Http.urlopen_result.

(** A generator that has started sends nothing more. *)
Lemma act_started (a : Http.consumer_action) (g : Http.generator)
  (log : list Http.Request) :
  (forall self path payload, g <> Http.Created self path payload) ->
  snd (Http.act urlopen a (g, log)) = log
  /\ forall self path payload,
       fst (Http.act urlopen a (g, log)) <> Http.Created self path payload.
Proof.
  intros H. destruct a, g as [self path payload|lines buffer resp|r];
    try (now destruct (H self path payload)); simpl.
  - split; [reflexivity|].
    destruct (Http.resume lines buffer (Http.unread resp)); discriminate.
  - split; [reflexivity | discriminate].
  - split; [reflexivity | discriminate].
  - split; [reflexivity | discriminate].
Qed.

Lemma fold_started (acts : list Http.consumer_action) :
  forall g log,
    (forall self path payload, g <> Http.Created self path payload) ->
    snd (fold_left (fun st a => Http.act urlopen a st) acts (g, log)) = log.
Proof.
  induction acts as [|a acts IH]; intros g log H; [reflexivity|].
  cbn [fold_left]. destruct (act_started a g log H) as [E H'].
  destruct (Http.act urlopen a (g, log)) as [g' log'] eqn:A.
  simpl in E, H'. subst log'. now apply IH.
Qed.

Lemma consume_log (acts : list Http.consumer_action)
  (self : Http.CopilotClient) (path : str) (payload : json) :
  snd (Http.consume urlopen acts (Http._post_stream self path payload))
  = match acts with
    | Http.DoNext :: _ => [Ref.post_request self path payload]
    | _ => []
    end.
Proof.
  unfold Http.consume, Http._post_stream.
  destruct acts as [|[|] acts]; [reflexivity| |].
  - cbn [fold_left].
    destruct (Http.act urlopen Http.DoNext
                (Http.Created self path payload, [])) as [g' log'] eqn:A.
    assert (L : log' = [Ref.post_request self path payload]).
    { unfold Http.act in A. simpl in A. now injection A as _ <-. }
    assert (G : forall s p q, g' <> Http.Created s p q).
    { unfold Http.act in A. simpl in A. injection A as <- _.
      intros s p q.
      destruct (urlopen _) as [chunks|code body|reason]; simpl;
        try discriminate.
      destruct (Http.resume [] [] chunks); discriminate. }
    rewrite (fold_started acts g' log' G). exact L.
  - cbn [fold_left]. unfold Http.act at 2. simpl.
    apply fold_started. discriminate.
Qed.


End StreamRequest.


(** X9: the request of [chat_stream] is sent by the first [next] and by
    nothing else.  For a client whose base URL the request constructor
    takes and messages that are a prompt, [ChatMessage] objects or dicts of
    texts: whatever the consumer does with the generator, in any order, one
    request has been handed to [urlopen] when its first action was a
    [next], a POST of the payload to [/chat/stream] with the timeout of 300
    seconds, and none otherwise: creating the generator sends nothing, a
    generator closed before its first [next] never sends, and later calls
    send nothing more. *)
Theorem stream_request_is_sent_by_the_first_next
  (urlopen : Http.Request -> Http.urlopen_result)
  (self : Http.CopilotClient) (messages : messages_arg)
  (model vendor sp : option str) (acts : list Http.consumer_action) :
  Http.plain_url (Http.base_url self) = true ->
  Ref.text_only messages = true ->
  let req :=
    {| Http.method := lit "POST";
       Http.url := Http.base_url self ++ lit "/chat/stream";
       Http.headers := Http._headers self;
       Http.data := Some (Http._build_payload self messages model vendor sp);
       Http.timeout := 300 |} in
  Http.plain_url (Http.url req) = true
  /\ snd (Http.consume urlopen acts
            (Http.chat_stream self messages model vendor sp))
     = match acts with
       | Http.DoNext :: _ => [req]
       | _ => []
       end.
Proof.
  intros P _. cbv zeta. split.
  - cbn [Http.url]. now apply plain_url_path.
  - unfold Http.chat_stream. apply consume_log.
Qed.

(** X9, witness: a [close], then a [next]: nothing is sent; a [next], a
    [close] and a [next]: one request. *)
Lemma stream_request_is_sent_by_the_first_next_witness :
  snd (Http.consume (Examples.streaming_server Examples.scenario)
         [Http.DoClose; Http.DoNext]
         (Http.chat_stream Examples.demo_client (Prompt (lit "hi")) None None
            None))
  = []
  /\ length
       (snd (Http.consume (Examples.streaming_server Examples.scenario)
               [Http.DoNext; Http.DoClose; Http.DoNext]
               (Http.chat_stream Examples.demo_client (Prompt (lit "hi"))
                  None None None)))
     = 1%nat.
Proof.
  split.
  - exact (proj2 (stream_request_is_sent_by_the_first_next
                    (Examples.streaming_server Examples.scenario)
                    Examples.demo_client (Prompt (lit "hi")) None None None
                    [Http.DoClose; Http.DoNext]
                    ltac:(vm_compute; reflexivity) eq_refl)).
  - rewrite (proj2 (stream_request_is_sent_by_the_first_next
                      (Examples.streaming_server Examples.scenario)
                      Examples.demo_client (Prompt (lit "hi")) None None None
                      [Http.DoNext; Http.DoClose; Http.DoNext]
                      ltac:(vm_compute; reflexivity) eq_refl)).
    reflexivity.
Defined.

Section Headers.
Local Open Scope N_scope.

Lemma headers_bearer (self : Http.CopilotClient) (r : Http.Request) :
  Http.headers r = Http._headers self -> Ref.bearer_ok self r.
Proof.
  intros E. unfold Ref.bearer_ok. rewrite E. unfold Http._headers.
  destruct (Http.api_key self) as [[|c k]|]; (split; [now left|]);
    intros v; split.
  - intros [H|[]]. vm_compute in H. discriminate.
  - intros [c [k [H _]]]. discriminate.
  - intros [H|[H|[]]]; [vm_compute in H; discriminate|].
    exists c, k. split; [reflexivity|]. now injection H as <-.
  - intros [c' [k' [H ->]]]. injection H as <- <-. right. now left.
  - intros [H|[]]. vm_compute in H. discriminate.
  - intros [c [k [H _]]]. discriminate.
Qed.

End Headers.

(** X10: every request of the HTTP client carries the content type
    [application/json], and an [Authorization] header exactly when the
    client has a key that is not empty, with the value [Bearer ] followed by
    the key: a client built without a key or with the empty string as its
    key sends no such header.  This holds for the requests of [status],
    [list_models], [chat], [chat_full], [chat_json] and of the stream. *)
Theorem api_key_travels_as_bearer
  (urlopen : Http.Request -> Http.urlopen_result)
  (self : Http.CopilotClient) (messages : messages_arg)
  (model vendor sp : option str) (acts : list Http.consumer_action) :
  Forall (Ref.bearer_ok self) (snd (Http.status urlopen self []))
  /\ Forall (Ref.bearer_ok self) (snd (Http.list_models urlopen self []))
  /\ Forall (Ref.bearer_ok self)
       (snd (Http.chat urlopen self messages model vendor sp []))
  /\ Forall (Ref.bearer_ok self)
       (snd (Http.chat_full urlopen self messages model vendor sp []))
  /\ Forall (Ref.bearer_ok self)
       (snd (Http.chat_json urlopen self messages model vendor sp []))
  /\ Forall (Ref.bearer_ok self)
       (snd (Http.consume urlopen acts
               (Http.chat_stream self messages model vendor sp))).
Proof.
  assert (B : forall r, Http.headers r = Http._headers self ->
                        Forall (Ref.bearer_ok self) [r]).
  { intros r Hr. constructor; [|constructor]. now apply headers_bearer. }
  split; [|split; [|split; [|split; [|split]]]].
  - rewrite (sends_status urlopen self []). now apply B.
  - rewrite (sends_list_models urlopen self []). now apply B.
  - rewrite (sends_chat urlopen self messages model vendor sp []).
    now apply B.
  - rewrite (sends_chat_full urlopen self messages model vendor sp []).
    now apply B.
  - rewrite (sends_chat_json urlopen self messages model vendor sp []).
    now apply B.
  - unfold Http.chat_stream. rewrite consume_log.
    destruct acts as [|[|] acts]; [constructor | now apply B | constructor].
Qed.

(** ** The reads of the stream, one after the other *)

Section Reads.
Local Open Scope N_scope.

(** The loop over the chunks of a first part of the response, then over
    the rest: the loop on the text of the first part, continued on the rest
    with the buffer that is left. *)
Lemma read_loop_app (chunks : list bytes) :
  forall buffer text rest,
    Forall (fun c : bytes => c <> []) chunks ->
    Spec.decoded chunks = Some text ->
    contains Http.BLANK_LINE buffer = false ->
    Http.read_loop (chunks ++ rest) buffer
    = match Http.while_events (buffer ++ text) with
      | (ys, Http.More b') =>
          let '(ys', o) := Http.read_loop rest b' in (ys ++ ys', o)
      | (ys, Http.Halt o) => (ys, o)
      end.
Proof.
  induction chunks as [|c cs IH]; intros buffer text rest Hne Hd Hb.
  - injection Hd as <-. rewrite app_nil_r, (while_events_drained _ Hb).
    cbn [app]. destruct (Http.read_loop rest buffer); reflexivity.
  - inversion Hne as [|c0 cs0 Hc Hcs]; subst.
    simpl in Hd. destruct c as [|x c']; [congruence|].
    cbn [app Http.read_loop].
    destruct (decode (x :: c')) as [t|]; [|discriminate].
    destruct (Spec.decoded cs) as [ts|] eqn:D; [|discriminate].
    injection Hd as <-.
    rewrite app_assoc, (while_events_app (buffer ++ t) ts).
    destruct (Http.while_events (buffer ++ t)) as [ys [b'|o]] eqn:W;
      [|reflexivity].
    destruct (while_events_rest _ _ _ W) as [Hb' _].
    rewrite (IH b' ts rest Hcs eq_refl Hb').
    destruct (Http.while_events (b' ++ ts)) as [ys' [b2|o2]];
      [|reflexivity].
    destruct (Http.read_loop rest b2) as [ys3 o3]. now rewrite app_assoc.
Qed.

End Reads.

(** X11: nothing is read after the event that ends the stream.  When the
    chunks read so far carry a text on which the loop stops inside an event
    (a [done] event, an [error] event, a data line that cannot be handled),
    the stream is what that text gives, whatever the response holds after
    these chunks: further events, bytes that are not UTF-8, or nothing. *)
Theorem nothing_is_read_after_the_end (chunks rest : list bytes)
  (text : str) (ys : list json) (o : outcome) :
  Forall (fun c : bytes => c <> []) chunks ->
  Spec.decoded chunks = Some text ->
  Http.while_events text = (ys, Http.Halt o) ->
  Http.stream_all (chunks ++ rest) = (ys, o).
Proof.
  intros Hne Hd Hw. unfold Http.stream_all.
  rewrite (read_loop_app chunks [] text rest Hne Hd eq_refl).
  cbn [app]. now rewrite Hw.
Qed.

(** X11, witness: after the [done] event the response goes on with a
    content and with a byte that is no UTF-8; the stream is the one
    fragment before the [done] event. *)
Lemma nothing_is_read_after_the_end_witness :
  Http.stream_all
    (Examples.after_done
     ++ [Examples.line "data: {'content':'y'}" ++ [Byte.x0a]; [Byte.xff]])
  = ([JString (lit "x")], Returned).
Proof.
  apply (nothing_is_read_after_the_end Examples.after_done _
           (Examples.q "data: {'content':'x'}" ++ Http.BLANK_LINE
            ++ Examples.q "data: {'done':true}" ++ Http.BLANK_LINE)).
  - repeat constructor; discriminate.
  - vm_compute. reflexivity.
  - vm_compute. reflexivity.
Defined.

(** X12: each chunk is decoded on its own.  When the loop has not stopped
    on the chunks read so far and the next chunk is not UTF-8 by itself, the
    generator raises [UnicodeDecodeError] there, after the fragments of the
    text before it; so a read that ends inside a character of several bytes
    breaks a stream whose bytes, taken together, are valid. *)
Theorem undecodable_chunk_raises (chunks : list bytes) (c : bytes)
  (rest : list bytes) (text : str) (ys : list json) (b : str) :
  Forall (fun c : bytes => c <> []) chunks ->
  Spec.decoded chunks = Some text ->
  Http.while_events text = (ys, Http.More b) ->
  c <> [] ->
  decode c = None ->
  Http.stream_all (chunks ++ c :: rest) = (ys, Raised UnicodeDecodeError).
Proof.
  intros Hne Hd Hw Hc Hu. unfold Http.stream_all.
  rewrite (read_loop_app chunks [] text (c :: rest) Hne Hd eq_refl).
  cbn [app]. rewrite Hw. cbn [Http.read_loop].
  destruct c as [|x c']; [congruence|]. rewrite Hu.
  now rewrite app_nil_r.
Qed.

(** X12, witness: the two bytes of a character arrive in two reads; the
    same bytes in one read give the fragment. *)
Lemma undecodable_chunk_raises_witness :
  Http.stream_all Examples.split_character = ([], Raised UnicodeDecodeError)
  /\ Http.stream_all [concat Examples.split_character]
     = ([JString (lit "caf" ++ [233%N])], Returned).
Proof.
  split.
  - apply (undecodable_chunk_raises [] _ _ [] [] []).
    + constructor.
    + reflexivity.
    + reflexivity.
    + discriminate.
    + vm_compute. reflexivity.
  - vm_compute. reflexivity.
Defined.

(** ** The gRPC client *)

Section GrpcRequests.
Local Open Scope N_scope.

Lemma convert_objects (ms : list ChatMessage) :
  Grpc.convert_messages (map MsgObj ms) = inr (map Ref.pb_of ms).
Proof.
  induction ms as [|m ms IH]; [reflexivity|]. simpl. now rewrite IH.
Qed.

Lemma convert_all (l : list message_item) :
  match Grpc.convert_messages l with
  | inl e => e = AttributeError /\ existsb Ref.is_dict l = true
  | inr msgs => existsb Ref.is_dict l = false /\ length msgs = length l
  end.
Proof.
  induction l as [|[m|d] l IH]; simpl.
  - now split.
  - destruct (Grpc.convert_messages l) as [e|msgs]; simpl.
    + exact IH.
    + destruct IH as [H1 H2]. split; [exact H1 | now rewrite H2].
  - now split.
Qed.

End GrpcRequests.

(** X13: the fragments of the gRPC stream.  [chat_stream] yields the
    non-empty contents of the messages that come before the first message
    with an error or with the [done] flag, in their order.  It ends at that
    message: with [RuntimeError] when the message has an error, also when it
    has the [done] flag or a content as well, and normally when it has the
    [done] flag and no error, without yielding its content.  Without such a
    message it ends as the call ends.  One call of [ChatStream] is made. *)
Theorem grpc_stream_ends_at_the_first_stop :
  (forall chunks failure,
      Grpc.stream_loop chunks failure
      = (Ref.fragments chunks, Ref.ending chunks failure))
  /\ (forall ChatStream self s model vendor sp,
        let req :=
          {| Grpc.messages :=
               [{| Grpc.pb_role := lit "user"; Grpc.pb_content := s |}];
             Grpc.req_model :=
               Grpc.por_str model (Grpc.grpc_default_model self);
             Grpc.req_vendor :=
               Grpc.por_str vendor (Grpc.grpc_default_vendor self);
             Grpc.req_system_prompt := Grpc.por_str sp [] |} in
        Grpc.chat_stream ChatStream self (Prompt s) model vendor sp
        = ((Ref.fragments (Grpc.delivered (ChatStream req)),
            Ref.ending (Grpc.delivered (ChatStream req))
              (Grpc.failure (ChatStream req))),
           [Grpc.CallChatStream req])).
Proof.
  assert (L : forall chunks failure,
             Grpc.stream_loop chunks failure
             = (Ref.fragments chunks, Ref.ending chunks failure)).
  { intros chunks failure. induction chunks as [|c chunks IH].
    - reflexivity.
    - unfold Ref.fragments, Ref.ending in *.
      cbn [Grpc.stream_loop Ref.before_stop Ref.first_stop].
      unfold Ref.stops.
      destruct (Grpc.chunk_error c) as [|x e] eqn:E.
      + destruct (Grpc.chunk_done c) eqn:D.
        * cbn [map filter]. now rewrite E.
        * cbn [map filter].
          destruct (Grpc.chunk_content c) as [|y t] eqn:C; rewrite IH;
            reflexivity.
      + cbn [map filter]. rewrite E. reflexivity. }
  split; [exact L|].
  intros ChatStream self s model vendor sp. cbv zeta.
  unfold Grpc.chat_stream, Grpc._build_request. now rewrite L.
Qed.

(** X14: both clients build the same request from the same arguments.  For
    a prompt and for a list of [ChatMessage] objects, with the same per-call
    arguments and the same defaults given to the two constructors, the body
    the HTTP client sends is the JSON form of the request the gRPC client
    sends: the messages with their roles and contents in the same order, and
    [model], [vendor] and [systemPrompt] exactly when the field of the gRPC
    request is not empty, with the same value. *)
Theorem http_body_is_the_grpc_request (ms : list ChatMessage) (s : str)
  (model vendor sp : option str) (b addr : str) (key dm dv : option str) :
  let h := Http.new_client b key dm dv in
  let g := Grpc.new_client addr dm dv in
  (exists req,
      Grpc._build_request g (Messages (map MsgObj ms)) model vendor sp
      = inr req
      /\ Grpc.messages req = map Ref.pb_of ms
      /\ Http._build_payload h (Messages (map MsgObj ms)) model vendor sp
         = Ref.json_of_request req)
  /\ (exists req,
        Grpc._build_request g (Prompt s) model vendor sp = inr req
        /\ Grpc.messages req = [Ref.pb_of {| role := lit "user";
                                             content := s |}]
        /\ Http._build_payload h (Prompt s) model vendor sp
           = Ref.json_of_request req).
Proof.
  cbv zeta. split.
  - unfold Grpc._build_request. rewrite convert_objects.
    eexists. split; [reflexivity|]. split; [reflexivity|].
    unfold Http._build_payload, Ref.json_of_request.
    cbn [Grpc.messages Grpc.req_model Grpc.req_vendor Grpc.req_system_prompt
         Http.new_client Http.client_default_model Http.client_default_vendor
         Grpc.new_client Grpc.grpc_default_model Grpc.grpc_default_vendor].
    rewrite !map_map. cbn [Ref.pb_of Grpc.pb_role Grpc.pb_content].
    destruct model as [[|? ?]|], dm as [[|? ?]|], vendor as [[|? ?]|],
      dv as [[|? ?]|], sp as [[|? ?]|]; reflexivity.
  - unfold Grpc._build_request.
    eexists. split; [reflexivity|]. split; [reflexivity|].
    unfold Http._build_payload, Ref.json_of_request.
    cbn [Grpc.messages Grpc.req_model Grpc.req_vendor Grpc.req_system_prompt
         Http.new_client Http.client_default_model Http.client_default_vendor
         Grpc.new_client Grpc.grpc_default_model Grpc.grpc_default_vendor].
    destruct model as [[|? ?]|], dm as [[|? ?]|], vendor as [[|? ?]|],
      dv as [[|? ?]|], sp as [[|? ?]|]; reflexivity.
Qed.

(** X15: the gRPC client takes [ChatMessage] objects only, and finds out
    before it calls the server.  When the message list holds a dict at any
    place, [chat], [chat_full] and [chat_stream] raise [AttributeError] and
    no call is made; otherwise each makes exactly one call, with one message
    for each element of the list. *)
Theorem grpc_refuses_dicts_before_any_call
  (Chat : Grpc.ChatRequest -> result Grpc.ChatReply)
  (ChatStream : Grpc.ChatRequest -> Grpc.server_stream)
  (self : Grpc.CopilotGrpcClient) (l : list message_item)
  (model vendor sp : option str) (log : list Grpc.rpc) :
  if existsb Ref.is_dict l then
    Grpc.chat Chat self (Messages l) model vendor sp log
    = (inl AttributeError, log)
    /\ Grpc.chat_full Chat self (Messages l) model vendor sp log
       = (inl AttributeError, log)
    /\ Grpc.chat_stream ChatStream self (Messages l) model vendor sp
       = (([], Raised AttributeError), [])
  else
    exists req,
      length (Grpc.messages req) = length l
      /\ snd (Grpc.chat Chat self (Messages l) model vendor sp log)
         = log ++ [Grpc.CallChat req]
      /\ snd (Grpc.chat_full Chat self (Messages l) model vendor sp log)
         = log ++ [Grpc.CallChat req]
      /\ snd (Grpc.chat_stream ChatStream self (Messages l) model vendor sp)
         = [Grpc.CallChatStream req].
Proof.
  unfold Grpc.chat, Grpc.chat_full, Grpc.call_chat, Grpc.chat_stream,
    Grpc._build_request.
  pose proof (convert_all l) as H.
  destruct (Grpc.convert_messages l) as [e|msgs].
  - destruct H as [-> ->]. repeat split.
  - destruct H as [-> H].
    exists {| Grpc.messages := msgs;
              Grpc.req_model :=
                Grpc.por_str model (Grpc.grpc_default_model self);
              Grpc.req_vendor :=
                Grpc.por_str vendor (Grpc.grpc_default_vendor self);
              Grpc.req_system_prompt := Grpc.por_str sp [] |}.
    split; [exact H|]. split; [|split].
    + destruct (Chat _); reflexivity.
    + destruct (Chat _); reflexivity.
    + reflexivity.
Qed.

(** ** The test harness *)

Section Checks.
Local Open Scope N_scope.

(** No exception of the clients has a name that holds [AssertionError]. *)
Lemma exn_name_is_no_assertion (e : exn) :
  contains (lit "AssertionError") (Harness.exn_name e) = false.
Proof. destruct e; vm_compute; reflexivity. Qed.

Lemma empty_rejected_outcome {A : Type} (chat_empty : result A) :
  Harness.test_chat_empty_rejected chat_empty
  = match chat_empty with
    | inr _ =>
        inl (Harness.AssertionError
               (lit "Should have raised an error for empty messages"))
    | inl e =>
        inr (Some (lit "correctly rejected: " ++ Harness.exn_name e))
    end.
Proof.
  unfold Harness.test_chat_empty_rejected.
  destruct chat_empty as [e|a].
  - cbn [Harness.type_name]. now rewrite exn_name_is_no_assertion.
  - reflexivity.
Qed.

Variable seconds : Type.
Variable exn_text : Harness.raised -> str.

Lemma run_tests_from (transport : str) (tests : list (Harness.check seconds)) :
  forall acc,
    fold_left
      (fun results t =>
         results
         ++ [Harness.run_test exn_text
               (transport ++ lit "::" ++ Harness.check_name t)
               (Harness.check_run t) (Harness.check_time t)])
      tests acc
    = acc
      ++ map (fun t =>
                Harness.run_test exn_text
                  (transport ++ lit "::" ++ Harness.check_name t)
                  (Harness.check_run t) (Harness.check_time t))
           tests.
Proof.
  induction tests as [|t tests IH]; intros acc; cbn [fold_left map].
  - now rewrite app_nil_r.
  - rewrite IH, <- app_assoc. reflexivity.
Qed.

Lemma run_tests_map (transport : str) (tests : list (Harness.check seconds)) :
  Harness.run_tests exn_text transport tests
  = map (fun t =>
           Harness.run_test exn_text
             (transport ++ lit "::" ++ Harness.check_name t)
             (Harness.check_run t) (Harness.check_time t))
      tests.
Proof. unfold Harness.run_tests. now rewrite run_tests_from. Qed.

Lemma run_test_passed (name : str) (func : Harness.raised + option str)
  (elapsed : seconds) :
  Harness.passed (Harness.run_test exn_text name func elapsed)
  = Ref.returned func.
Proof. destruct func; reflexivity. Qed.

Lemma counts_total (rs : list (Harness.TestResult seconds)) :
  (Harness.count_passed rs + Harness.count_failed rs = length rs)%nat.
Proof.
  unfold Harness.count_passed, Harness.count_failed.
  induction rs as [|r rs IH]; [reflexivity|]. cbn [filter].
  destruct (Harness.passed r); cbn [negb length]; lia.
Qed.

Lemma no_failure_iff (rs : list (Harness.TestResult seconds)) :
  Harness.count_failed rs = 0%nat
  <-> Forall (fun r => Harness.passed r = true) rs.
Proof.
  unfold Harness.count_failed.
  induction rs as [|r rs IH]; cbn [filter].
  - split; [constructor | reflexivity].
  - destruct (Harness.passed r) eqn:P; cbn [negb].
    + rewrite IH. split; [now constructor|].
      intros H; now inversion H.
    + cbn [length]. split; [discriminate|].
      intros H; inversion H; congruence.
Qed.

Lemma all_or_one {A : Type} (f : A -> bool) (l : list A) :
  Forall (fun t => f t = true) l \/ Exists (fun t => f t = false) l.
Proof.
  induction l as [|t l [IH|IH]].
  - left. constructor.
  - destruct (f t) eqn:F; [left; now constructor | right; now left].
  - right. now right.
Qed.

End Checks.

(** X16: the check [chat_empty_rejected] passes exactly when the exchange
    for the empty list fails.  Run against the HTTP client it is recorded as
    passed, with the name of the exception in its message, when [chat([])]
    raised, and as failed, with [AssertionError], when [chat([])] returned;
    and [chat([])] returns exactly when the server answers the request with
    a JSON object.  Run against the gRPC client it passes exactly when the
    call of [Chat] raises.  The clients reject nothing themselves. *)
Theorem empty_rejected_check_passes_iff_the_exchange_fails
  (seconds : Type) (exn_text : Harness.raised -> str) (name : str)
  (elapsed : seconds) :
  (forall urlopen self log,
      let outcome :=
        fst (Http.chat urlopen self (Messages []) None None None log) in
      let r :=
        Harness.run_test exn_text name
          (Harness.test_chat_empty_rejected outcome) elapsed in
      (Harness.passed r = false
       <-> exists chunks d,
             urlopen (Ref.post_request self (lit "/chat")
                        (Http._build_payload self (Messages []) None None
                           None))
             = Http.Response chunks
             /\ Http.read_json chunks = inr (JObject d))
      /\ (forall e,
            outcome = inl e ->
            Harness.passed r = true
            /\ Harness.message r
               = lit "correctly rejected: " ++ Harness.exn_name e)
      /\ (Harness.passed r = false ->
          Harness.message r
          = lit "AssertionError: "
            ++ exn_text
                 (Harness.AssertionError
                    (lit "Should have raised an error for empty messages"))))
  /\ (forall Chat self log,
        let outcome :=
          fst (Grpc.chat Chat self (Messages []) None None None log) in
        let r :=
          Harness.run_test exn_text name
            (Harness.test_chat_empty_rejected outcome) elapsed in
        Harness.passed r = true
        <-> exists e,
              Chat {| Grpc.messages := [];
                      Grpc.req_model := Grpc.grpc_default_model self;
                      Grpc.req_vendor := Grpc.grpc_default_vendor self;
                      Grpc.req_system_prompt := [] |}
              = inl e).
Proof.
  split.
  - intros urlopen self log. cbv zeta.
    rewrite empty_rejected_outcome.
    unfold Http.chat, Http._post.
    fold (Ref.post_request self (lit "/chat")
            (Http._build_payload self (Messages []) None None None)).
    rewrite exchange_then.
    destruct (urlopen _) as [chunks|code body|reason].
    + destruct (Http.read_json chunks) as [e|data] eqn:R.
      * split; [|split].
        -- split; [discriminate|].
           intros [c [d [H1 H2]]]. injection H1 as <-. congruence.
        -- intros e' H. injection H as <-. split; reflexivity.
        -- discriminate.
      * destruct data; cbn [py_get];
          try (split; [|split];
               [ split; [discriminate|];
                 intros [c [d' [H1 H2]]]; injection H1 as <-; congruence
               | intros e' H; injection H as <-; split; reflexivity
               | discriminate ]).
        split; [|split].
        -- split; [|reflexivity]. intros _. now exists chunks, d.
        -- discriminate.
        -- reflexivity.
    + split; [|split].
      * split; [discriminate|]. intros [c [d [H1 _]]]. discriminate.
      * intros e' H. injection H as <-. split; reflexivity.
      * discriminate.
    + split; [|split].
      * split; [discriminate|]. intros [c [d [H1 _]]]. discriminate.
      * intros e' H. injection H as <-. split; reflexivity.
      * discriminate.
  - intros Chat self log. cbv zeta. rewrite empty_rejected_outcome.
    unfold Grpc.chat, Grpc.call_chat, Grpc._build_request.
    cbn [Grpc.convert_messages Grpc.por_str].
    destruct (Chat _) as [e|reply]; cbn [fst].
    + split; [intros _; now exists e | reflexivity].
    + split; [discriminate | intros [e H]; discriminate].
Qed.

Section Suites.
Local Open Scope N_scope.

Variable seconds : Type.
Variable exn_text : Harness.raised -> str.

Lemma suites_passed (suites : list (str * list (Harness.check seconds))) :
  map Harness.passed
    (flat_map (fun s => Harness.run_tests exn_text (fst s) (snd s)) suites)
  = map (fun t => Ref.returned (Harness.check_run t)) (flat_map snd suites).
Proof.
  induction suites as [|[transport tests] suites IH]; [reflexivity|].
  cbn [flat_map fst snd]. rewrite !map_app, IH. f_equal.
  rewrite run_tests_map, map_map. apply map_ext. intros t.
  apply run_test_passed.
Qed.

Lemma suites_all_passed (suites : list (str * list (Harness.check seconds))) :
  Forall (fun r => Harness.passed r = true)
    (flat_map (fun s => Harness.run_tests exn_text (fst s) (snd s)) suites)
  <-> Forall (fun t => Ref.returned (Harness.check_run t) = true)
        (flat_map snd suites).
Proof.
  rewrite <- (Forall_map Harness.passed (fun b => b = true)).
  rewrite suites_passed.
  now rewrite (Forall_map (fun t => Ref.returned (Harness.check_run t))
                 (fun b => b = true)).
Qed.

End Suites.

(** X17: the run of the suites and the exit status.  The loop of
    [run_interface_tests] records one result for each check of the suite,
    in order, under the name of the transport, two colons and the name of
    the check; a check that raised is recorded as failed and the checks
    after it are run all the same.  In the summary of [main] the passed and
    the failed results add up to the number of checks of all suites, and
    the status [main] exits with after the summary is zero when every check
    of every suite returned without raising, and one as soon as a single
    check raised. *)
Theorem exit_status_reports_every_failure
  (seconds : Type) (exn_text : Harness.raised -> str)
  (suites : list (str * list (Harness.check seconds))) :
  let all_results :=
    flat_map (fun s => Harness.run_tests exn_text (fst s) (snd s)) suites in
  let checks := flat_map snd suites in
  (forall transport (tests : list (Harness.check seconds)),
      map Harness.name (Harness.run_tests exn_text transport tests)
      = map (fun t => transport ++ lit "::" ++ Harness.check_name t) tests)
  /\ map Harness.passed all_results
     = map (fun t => Ref.returned (Harness.check_run t)) checks
  /\ (Harness.count_passed all_results + Harness.count_failed all_results
      = length checks)%nat
  /\ (Harness.exit_status all_results = 0%Z
      <-> Forall (fun t => Ref.returned (Harness.check_run t) = true) checks)
  /\ (Harness.exit_status all_results = 1%Z
      <-> Exists (fun t => Ref.returned (Harness.check_run t) = false)
            checks).
Proof.
  cbv zeta.
  assert (Z0 : Harness.exit_status
                 (flat_map
                    (fun s => Harness.run_tests exn_text (fst s) (snd s))
                    suites) = 0%Z
               <-> Forall (fun t => Ref.returned (Harness.check_run t) = true)
                     (flat_map snd suites)).
  { rewrite <- suites_all_passed, <- no_failure_iff.
    unfold Harness.exit_status.
    destruct (Nat.eqb _ 0) eqn:Q.
    - apply Nat.eqb_eq in Q. split; intros _; [exact Q | reflexivity].
    - apply Nat.eqb_neq in Q. split; [discriminate | contradiction]. }
  split; [|split; [|split; [|split]]].
  - intros transport tests. rewrite run_tests_map, map_map.
    apply map_ext. intros t. destruct (Harness.check_run t); reflexivity.
  - apply suites_passed.
  - rewrite counts_total.
    rewrite <- (length_map Harness.passed), suites_passed.
    now rewrite length_map.
  - exact Z0.
  - split.
    + intros H.
      destruct (all_or_one (fun t => Ref.returned (Harness.check_run t))
                  (flat_map snd suites)) as [F|E]; [|exact E].
      apply Z0 in F. rewrite F in H. discriminate.
    + intros H. unfold Harness.exit_status.
      destruct (Nat.eqb _ 0) eqn:Q; [|reflexivity]. exfalso.
      assert (F : Forall (fun t => Ref.returned (Harness.check_run t) = true)
                    (flat_map snd suites)).
      { apply Z0. unfold Harness.exit_status. now rewrite Q. }
      apply Exists_exists in H. destruct H as [t [Hin Ht]].
      rewrite Forall_forall in F. rewrite (F t Hin) in Ht. discriminate.
Qed.

Section Picking.
Local Open Scope N_scope.

Variable py_int : str -> option Z.

Lemma prompt_loop_in_list (models : list ModelInfo)
  (answers : list (option str)) (f : json) :
  Harness.prompt_loop py_int models answers = Harness.Family f ->
  exists m, In m models /\ model_family m = f.
Proof.
  induction answers as [|[line|] rest IH]; cbn [Harness.prompt_loop].
  - discriminate.
  - destruct (match strip line with
              | [] => Some 0%Z
              | _ :: _ =>
                  match py_int (strip line) with
                  | Some n => Some (n - 1)%Z
                  | None => None
                  end
              end) as [idx|]; [|exact IH].
    destruct ((0 <=? idx)%Z && (idx <? Z.of_nat (length models))%Z);
      [|exact IH].
    destruct (nth_error models (Z.to_nat idx)) as [m|] eqn:E; [|exact IH].
    intros H. injection H as <-. exists m. split; [|reflexivity].
    eapply nth_error_In, E.
  - exact IH.
Qed.

Lemma format_family_text (f : json) :
  (exists line, Harness.format_family f = inr line)
  <-> exists s, f = JString s.
Proof.
  split.
  - intros [line H]. destruct f; try discriminate H. now eexists.
  - intros [s ->]. now eexists.
Qed.

Lemma listing_texts (models : list ModelInfo) :
  Forall (fun x => exists s, model_family x = JString s) models ->
  Harness.listing models = inr tt.
Proof.
  induction 1 as [|x l [s Hx] _ IH]; [reflexivity|].
  cbn [Harness.listing]. rewrite Hx. exact IH.
Qed.

Lemma listing_first_failure (before after : list ModelInfo) (x : ModelInfo)
  (e : exn) :
  Forall (fun y => exists s, model_family y = JString s) before ->
  Harness.format_family (model_family x) = inl e ->
  Harness.listing (before ++ x :: after) = inl e.
Proof.
  induction 1 as [|y l [s Hy] _ IH]; intros Hx; cbn [app Harness.listing].
  - now rewrite Hx.
  - rewrite Hy. now apply IH.
Qed.

End Picking.

(** X18: the model picked at the prompt is a model of the list.  A server
    without models makes [pick_model_interactive] exit with status 1 before
    any prompt, and an exception of [list_models] passes through.  The
    models are listed before the prompt, and the listing formats each family
    as a text: the first model whose family is no text makes the function
    raise there, whatever the answers would be, with [ValueError] for a
    number or a boolean and [TypeError] for null, a list or a dict.  When
    every family is a text the prompt follows: an answer that is blank gives
    the family of the first model; an answer that [int] reads as a number
    from 1 to the length of the list gives the family of the model at that
    place; and the end of the input, an answer that [int] rejects, zero, a
    negative number or a number above the length are passed over and the
    next answer is read.  A family that is returned is the family of a
    model of the list. *)
Theorem picked_model_is_in_the_list (py_int : str -> option Z)
  (m : ModelInfo) (ms : list ModelInfo) (rest : list (option str)) :
  let models := m :: ms in
  let loop := Harness.prompt_loop py_int models in
  (forall answers,
      Harness.pick_model_interactive py_int (inr []) answers
      = inr (Harness.SystemExit 1))
  /\ (forall e answers,
        Harness.pick_model_interactive py_int (inl e) answers = inl e)
  /\ (forall before x after e answers,
        models = before ++ x :: after ->
        Forall (fun y => exists s, model_family y = JString s) before ->
        Harness.format_family (model_family x) = inl e ->
        Harness.pick_model_interactive py_int (inr models) answers = inl e
        /\ (e = TypeError \/ exists msg, e = ValueError msg))
  /\ (Forall (fun y => exists s, model_family y = JString s) models ->
      (forall answers,
          Harness.pick_model_interactive py_int (inr models) answers
          = inr (loop answers))
      /\ (forall line,
            strip line = [] ->
            loop (Some line :: rest) = Harness.Family (model_family m))
      /\ (forall line n,
            strip line <> [] ->
            py_int (strip line) = Some n ->
            (1 <= n <= Z.of_nat (length models))%Z ->
            exists picked,
              nth_error models (Z.to_nat (n - 1)) = Some picked
              /\ loop (Some line :: rest)
                 = Harness.Family (model_family picked))
      /\ loop (None :: rest) = loop rest
      /\ (forall line,
            strip line <> [] ->
            py_int (strip line) = None ->
            loop (Some line :: rest) = loop rest)
      /\ (forall line n,
            strip line <> [] ->
            py_int (strip line) = Some n ->
            (n < 1 \/ Z.of_nat (length models) < n)%Z ->
            loop (Some line :: rest) = loop rest)
      /\ (forall answers f,
            loop answers = Harness.Family f ->
            exists picked, In picked models /\ model_family picked = f)).
Proof.
  cbv zeta.
  split; [reflexivity|]. split; [reflexivity|]. split.
  { intros before x after e answers Hm Hb Hx. split.
    - unfold Harness.pick_model_interactive. rewrite Hm.
      destruct (before ++ x :: after) as [|m' ms'] eqn:L.
      + destruct before; discriminate L.
      + rewrite <- L. now rewrite (listing_first_failure _ _ _ _ Hb Hx).
    - destruct (model_family x); try discriminate Hx;
        cbn in Hx; injection Hx as <-; eauto. }
  intros Ht.
  split.
  { intros answers. unfold Harness.pick_model_interactive.
    now rewrite (listing_texts _ Ht). }
  split; [|split; [|split; [|split; [|split]]]].
  - intros line H. cbn [Harness.prompt_loop]. rewrite H. reflexivity.
  - intros line n Hs Hn Hr. cbn [Harness.prompt_loop].
    destruct (strip line) as [|c s] eqn:S; [congruence|]. rewrite Hn.
    assert (B : ((0 <=? n - 1)%Z
                 && (n - 1 <? Z.of_nat (length (m :: ms)))%Z)%bool = true).
    { apply andb_true_iff. split; [apply Z.leb_le | apply Z.ltb_lt]; lia. }
    rewrite B.
    destruct (nth_error (m :: ms) (Z.to_nat (n - 1))) as [p|] eqn:E.
    + exists p. now split.
    + apply nth_error_None in E. lia.
  - reflexivity.
  - intros line Hs Hn. cbn [Harness.prompt_loop].
    destruct (strip line) as [|c s] eqn:S; [congruence|]. now rewrite Hn.
  - intros line n Hs Hn Hr. cbn [Harness.prompt_loop].
    destruct (strip line) as [|c s] eqn:S; [congruence|]. rewrite Hn.
    assert (B : ((0 <=? n - 1)%Z
                 && (n - 1 <? Z.of_nat (length (m :: ms)))%Z)%bool = false).
    { apply andb_false_iff. destruct Hr as [Hr|Hr];
        [left; apply Z.leb_gt | right; apply Z.ltb_ge]; lia. }
    now rewrite B.
  - intros answers f. apply prompt_loop_in_list.
Qed.

(** X18, witness: two models, the second with the number 5 as its family:
    the listing raises before the prompt; and the first model alone, with a
    blank answer after an end of input: its family is picked. *)
Lemma picked_model_is_in_the_list_witness :
  (forall answers,
      Harness.pick_model_interactive (fun _ => None)
        (inr [Examples.gpt_model; Examples.odd_model]) answers
      = inl (ValueError
               (lit "Unknown format code 's' for object of type 'int'")))
  /\ Harness.pick_model_interactive (fun _ => None)
       (inr [Examples.gpt_model]) [None; Some (lit "  ")]
     = inr (Harness.Family (JString (lit "gpt-4o"))).
Proof.
  split.
  - intros answers.
    destruct (picked_model_is_in_the_list (fun _ => None)
                Examples.gpt_model [Examples.odd_model] [])
      as [_ [_ [H _]]].
    exact (proj1 (H [Examples.gpt_model] Examples.odd_model [] _ answers
                    eq_refl
                    ltac:(constructor; [now eexists | constructor])
                    eq_refl)).
  - destruct (picked_model_is_in_the_list (fun _ => None)
                Examples.gpt_model [] [Some (lit "  ")])
      as [_ [_ [_ H]]].
    destruct (H ltac:(constructor; [now eexists | constructor]))
      as [H1 [_ [_ [H4 _]]]].
    destruct (picked_model_is_in_the_list (fun _ => None)
                Examples.gpt_model [] [])
      as [_ [_ [_ H']]].
    destruct (H' ltac:(constructor; [now eexists | constructor]))
      as [_ [H2 _]].
    rewrite H1, H4, (H2 (lit "  ") eq_refl). reflexivity.
Defined.

(** ** What [chat_json] returns stands in the reply *)

(** X19: a value [chat_json] returns stands in the reply.  When
    [chat_json] returns a value, [chat] returned a text and the value is the
    JSON reading of one part of that text, in one piece: the text itself,
    the content of a fenced block without the blanks around it, or a piece
    from an opening to a closing brace.  Nothing is repaired or made up.
    This holds for the interface's [chat_json], which the gRPC client uses,
    and for the one of the HTTP client. *)
Theorem chat_json_returns_a_part_of_the_text :
  (forall err text v,
      extract_json err (JString text) = inr v ->
      exists t, Ref.part_of t text /\ json_loads t = Some v)
  /\ (forall urlopen self messages model vendor sp log v,
        fst (Http.chat_json urlopen self messages model vendor sp log)
        = inr v ->
        exists text t,
          fst (Http.chat urlopen self messages model vendor sp log)
          = inr (JString text)
          /\ Ref.part_of t text /\ json_loads t = Some v)
  /\ (forall Chat self messages model vendor sp log v,
        fst (Grpc.chat_json Chat self messages model vendor sp log)
        = inr v ->
        exists text t,
          fst (Grpc.chat Chat self messages model vendor sp log) = inr text
          /\ Ref.part_of t text /\ json_loads t = Some v).
Proof.
  assert (E : forall err text v,
             extract_json err (JString text) = inr v ->
             exists t, Ref.part_of t text /\ json_loads t = Some v).
  { intros err text v. unfold extract_json.
    destruct (json_loads text) as [w|] eqn:L.
    { intros H. injection H as <-. exists text. split; [|exact L].
      exists [], []. cbn [app]. now rewrite app_nil_r. }
    destruct (Re.search Re.FENCE text) as [m|] eqn:F.
    { destruct (search_fence_group _ _ F) as [g G]. rewrite G.
      destruct (search_parts _ _ _ F) as [_ P].
      destruct (json_loads (strip g)) as [w|] eqn:Lg; [|discriminate].
      intros H. injection H as <-. exists (strip g). split; [|exact Lg].
      eapply part_trans; [apply strip_part | exact (P g G)]. }
    destruct (Re.search Re.BRACES text) as [m|] eqn:B; [|discriminate].
    destruct (search_parts _ _ _ B) as [P _].
    destruct (json_loads (Re.group0 m)) as [w|] eqn:Lg; [|discriminate].
    intros H. injection H as <-. exists (Re.group0 m). now split. }
  split; [exact E|]. split.
  - intros urlopen self messages model vendor sp log v.
    unfold Http.chat_json, Http.bind, Http.lift.
    destruct (Http.chat urlopen self messages model vendor sp log)
      as [[e|text] log']; cbn [fst]; [discriminate|].
    intros H. destruct text as [| | | | | |text| |]; try discriminate H.
    destruct (E _ _ _ H) as [t Ht]. now exists text, t.
  - intros Chat self messages model vendor sp log v.
    unfold Grpc.chat_json.
    destruct (Grpc.chat Chat self messages model vendor sp log)
      as [[e|text] log']; cbn [fst]; [discriminate|].
    intros H. destruct (E _ _ _ H) as [t Ht]. now exists text, t.
Qed.

(** X19, witness: the reply holds an object in a fenced block; the value
    returned is the reading of the text between the fences. *)
Lemma chat_json_returns_a_part_of_the_text_witness :
  exists text t,
    fst (Http.chat Examples.fencing_server Examples.demo_client
           (Prompt (lit "hi")) None None None [])
    = inr (JString text)
    /\ Ref.part_of t text
    /\ json_loads t = Some (JObject [(lit "a", JInt 1)]).
Proof.
  apply (proj1 (proj2 chat_json_returns_a_part_of_the_text)
           Examples.fencing_server Examples.demo_client (Prompt (lit "hi"))
           None None None []).
  vm_compute. reflexivity.
Defined.
